(** * Semaphore coordination programs: bounded pair buffer, ordered relay,
      lock-ordered account transfer

    A shallow embedding of the three Python programs [Problem1.py],
    [Problem2.py] and [deadlock_simlation.py].  Every thread is a small
    program-counter machine with one program point per source statement;
    a system state holds the shared objects (semaphore counters, the buffer,
    the accounts) together with the threads, and [step s t] executes the
    next statement of thread [t]: it is [None] when that statement is a
    semaphore [acquire] on a counter that is [0] (the thread is parked),
    when the thread has ended, and when [t] names no thread.  An
    interleaving is a schedule, the list of thread names in the order in
    which they take their steps. *)

From Stdlib Require Import ZArith Lia DecimalString Ascii.
From stdpp Require Import base option list strings.

Local Open Scope string_scope.

(** ** Problem1.py: producers and consumers of pairs *)

Module Problem1.

Definition BUFFER_SIZE : nat := 100.

(** Program points of the loop body of [producer] (lines 16-29) and of
    [consumer] (lines 32-43); the number is the source line of the
    statement that runs next.  [C_IndexError] is a consumer that died of
    the exception raised by [pop] on an empty list. *)
Inductive producer_pc :=
| P16_assign | P17_acquire | P18_acquire | P20_lock | P21_append
| P22_append | P23_print | P24_unlock | P26_release | P27_release
| P29_sleep.

Inductive consumer_pc :=
| C32_acquire | C33_acquire | C35_lock | C36_pop | C37_pop | C38_print
| C39_unlock | C41_release | C42_release | C43_sleep | C_IndexError.

(** A thread with its argument ([pid] or [cid]), its program point and
    its local variables [P1] and [P2] (empty until assigned). *)
Inductive thread :=
| Producer (pid : nat) (p : producer_pc) (P1 P2 : string)
| Consumer (cid : nat) (p : consumer_pc) (P1 P2 : string).

(** The content of the two [print] calls. *)
Inductive event :=
| Produced (pid : nat) (P1 P2 : string) (size : nat)
| Consumed (cid : nat) (P1 P2 : string) (size : nat).

Definition show_nat (n : nat) : string :=
  DecimalString.NilZero.string_of_uint (Nat.to_uint n).

Definition line (e : event) : string :=
  match e with
  | Produced pid P1 P2 size =>
      "Producer " ++ show_nat pid ++ " produced: pair : " ++ P1 ++ ", " ++ P2
      ++ " | Buffer size: " ++ show_nat size
  | Consumed cid P1 P2 size =>
      "Consumer " ++ show_nat cid ++ " consumed: pair : " ++ P1 ++ ", " ++ P2
      ++ " | Buffer size: " ++ show_nat size
  end.

(** [space], [full] and [lock] are the values of the three semaphores. *)
Record state := State {
  buffer : list string;
  space : nat;
  full : nat;
  lock : nat;
  threads : list thread;
  log : list event
}.

Definition stdout (s : state) : list string := line <$> log s.

(** f"P{pid}-A" and f"P{pid}-B" *)
Definition item_A (pid : nat) : string := "P" ++ show_nat pid ++ "-A".
Definition item_B (pid : nat) : string := "P" ++ show_nat pid ++ "-B".

Definition producer (s : state) (i pid : nat) (p : producer_pc)
    (P1 P2 : string) : option state :=
  let goto p' := <[i := Producer pid p' P1 P2]> (threads s) in
  match p with
  | P16_assign =>
      Some (State (buffer s) (space s) (full s) (lock s)
              (<[i := Producer pid P17_acquire (item_A pid) (item_B pid)]> (threads s))
              (log s))
  | P17_acquire =>
      match space s with
      | O => None
      | S n => Some (State (buffer s) n (full s) (lock s) (goto P18_acquire) (log s))
      end
  | P18_acquire =>
      match space s with
      | O => None
      | S n => Some (State (buffer s) n (full s) (lock s) (goto P20_lock) (log s))
      end
  | P20_lock =>
      match lock s with
      | O => None
      | S n => Some (State (buffer s) (space s) (full s) n (goto P21_append) (log s))
      end
  | P21_append =>
      Some (State (buffer s ++ [P1]) (space s) (full s) (lock s) (goto P22_append)
              (log s))
  | P22_append =>
      Some (State (buffer s ++ [P2]) (space s) (full s) (lock s) (goto P23_print)
              (log s))
  | P23_print =>
      Some (State (buffer s) (space s) (full s) (lock s) (goto P24_unlock)
              (log s ++ [Produced pid P1 P2 (length (buffer s))]))
  | P24_unlock =>
      Some (State (buffer s) (space s) (full s) (S (lock s)) (goto P26_release)
              (log s))
  | P26_release =>
      Some (State (buffer s) (space s) (S (full s)) (lock s) (goto P27_release)
              (log s))
  | P27_release =>
      Some (State (buffer s) (space s) (S (full s)) (lock s) (goto P29_sleep)
              (log s))
  | P29_sleep =>
      Some (State (buffer s) (space s) (full s) (lock s) (goto P16_assign) (log s))
  end.

Definition consumer (s : state) (i cid : nat) (p : consumer_pc)
    (P1 P2 : string) : option state :=
  let goto p' := <[i := Consumer cid p' P1 P2]> (threads s) in
  match p with
  | C32_acquire =>
      match full s with
      | O => None
      | S n => Some (State (buffer s) (space s) n (lock s) (goto C33_acquire) (log s))
      end
  | C33_acquire =>
      match full s with
      | O => None
      | S n => Some (State (buffer s) (space s) n (lock s) (goto C35_lock) (log s))
      end
  | C35_lock =>
      match lock s with
      | O => None
      | S n => Some (State (buffer s) (space s) (full s) n (goto C36_pop) (log s))
      end
  | C36_pop =>
      match buffer s with
      | [] => Some (State [] (space s) (full s) (lock s) (goto C_IndexError) (log s))
      | x :: rest =>
          Some (State rest (space s) (full s) (lock s)
                  (<[i := Consumer cid C37_pop x P2]> (threads s)) (log s))
      end
  | C37_pop =>
      match buffer s with
      | [] => Some (State [] (space s) (full s) (lock s) (goto C_IndexError) (log s))
      | x :: rest =>
          Some (State rest (space s) (full s) (lock s)
                  (<[i := Consumer cid C38_print P1 x]> (threads s)) (log s))
      end
  | C38_print =>
      Some (State (buffer s) (space s) (full s) (lock s) (goto C39_unlock)
              (log s ++ [Consumed cid P1 P2 (length (buffer s))]))
  | C39_unlock =>
      Some (State (buffer s) (space s) (full s) (S (lock s)) (goto C41_release)
              (log s))
  | C41_release =>
      Some (State (buffer s) (S (space s)) (full s) (lock s) (goto C42_release)
              (log s))
  | C42_release =>
      Some (State (buffer s) (S (space s)) (full s) (lock s) (goto C43_sleep)
              (log s))
  | C43_sleep =>
      Some (State (buffer s) (space s) (full s) (lock s) (goto C32_acquire) (log s))
  | C_IndexError => None
  end.

(** Thread [i] executes its next statement. *)
Definition step (s : state) (i : nat) : option state :=
  match threads s !! i with
  | Some (Producer pid p P1 P2) => producer s i pid p P1 P2
  | Some (Consumer cid p P1 P2) => consumer s i cid p P1 P2
  | None => None
  end.

Fixpoint run (s : state) (sched : list nat) : option state :=
  match sched with
  | [] => Some s
  | i :: sched' =>
      match step s i with
      | Some s' => run s' sched'
      | None => None
      end
  end.

(** [np] producers with [pid] 0 .. np-1 followed by [nc] consumers with
    [cid] 0 .. nc-1, all at the top of their loops; the module's shared
    objects as lines 5-11 create them. *)
Definition start (np nc : nat) : state :=
  State [] BUFFER_SIZE 0 1
    (((fun pid => Producer pid P16_assign "" "") <$> seq 0 np)
     ++ ((fun cid => Consumer cid C32_acquire "" "") <$> seq 0 nc))
    [].

(** Lines 45-49: three producers and one consumer. *)
Definition program : state := start 3 1.

(** The pairs printed by producers, and by consumers, in the order of the
    output. *)
Definition produced_pairs (l : list event) : list (string * string) :=
  omap (fun e => match e with Produced _ x y _ => Some (x, y) | _ => None end) l.

Definition consumed_pairs (l : list event) : list (string * string) :=
  omap (fun e => match e with Consumed _ x y _ => Some (x, y) | _ => None end) l.

(** *** Quantities used to state the invariants *)

(** Cells of the buffer that a thread has reserved and not filled (a
    producer between its first [space.acquire()] and its second [append]),
    or emptied and not given back (a consumer between its first [pop] and
    its second [space.release()]). *)
Definition space_held (t : thread) : nat :=
  match t with
  | Producer _ p _ _ =>
      match p with
      | P18_acquire => 1
      | P20_lock | P21_append => 2
      | P22_append => 1
      | _ => 0
      end
  | Consumer _ p _ _ =>
      match p with
      | C37_pop => 1
      | C38_print | C39_unlock | C41_release => 2
      | C42_release => 1
      | _ => 0
      end
  end.

(** Elements of the buffer that a thread has appended and not announced on
    [full] (a producer), or has claimed on [full] and not popped (a
    consumer). *)
Definition full_held (t : thread) : nat :=
  match t with
  | Producer _ p _ _ =>
      match p with
      | P22_append => 1
      | P23_print | P24_unlock | P26_release => 2
      | P27_release => 1
      | _ => 0
      end
  | Consumer _ p _ _ =>
      match p with
      | C33_acquire => 1
      | C35_lock | C36_pop => 2
      | C37_pop => 1
      | _ => 0
      end
  end.

(** 1 for a thread between [lock.acquire()] and [lock.release()]. *)
Definition in_cs (t : thread) : nat :=
  match t with
  | Producer _ p _ _ =>
      match p with
      | P21_append | P22_append | P23_print | P24_unlock => 1
      | _ => 0
      end
  | Consumer _ p _ _ =>
      match p with
      | C36_pop | C37_pop | C38_print | C39_unlock | C_IndexError => 1
      | _ => 0
      end
  end.

Fixpoint total (w : thread → nat) (ts : list thread) : nat :=
  match ts with
  | [] => 0
  | t :: ts' => w t + total w ts'
  end.

(** The accounting of the three semaphores. *)
Definition counts (s : state) : Prop :=
  space s + total space_held (threads s) + length (buffer s) = BUFFER_SIZE
  ∧ full s + total full_held (threads s) = length (buffer s)
  ∧ lock s + total in_cs (threads s) = 1.

(** A producer past line 16 holds its own pair in [P1], [P2]; no consumer
    has died. *)
Definition sound (t : thread) : Prop :=
  match t with
  | Producer pid p P1 P2 =>
      p = P16_assign ∨ (P1 = item_A pid ∧ P2 = item_B pid)
  | Consumer _ p _ _ => p ≠ C_IndexError
  end.

Fixpoint flat (R : list (string * string)) : list string :=
  match R with
  | [] => []
  | (x, y) :: R' => x :: y :: flat R'
  end.

(** How the buffer relates to [R], the pairs announced by producers and
    not yet announced by a consumer, seen from the thread that is between
    [lock.acquire()] and [lock.release()]. *)
Definition cs_shape (t : thread) (R : list (string * string))
    (buf : list string) : Prop :=
  match t with
  | Producer _ p P1 P2 =>
      match p with
      | P21_append | P24_unlock => buf = flat R
      | P22_append => buf = (flat R ++ [P1])%list
      | P23_print => buf = (flat R ++ [P1; P2])%list
      | _ => True
      end
  | Consumer _ p P1 P2 =>
      match p with
      | C36_pop | C39_unlock => buf = flat R
      | C37_pop => flat R = P1 :: buf
      | C38_print => flat R = P1 :: P2 :: buf
      | _ => True
      end
  end.

Definition is_pair (xy : string * string) : Prop :=
  ∃ pid, xy.1 = item_A pid ∧ xy.2 = item_B pid.

Definition fifo (s : state) : Prop :=
  ∃ R, produced_pairs (log s) = (consumed_pairs (log s) ++ R)%list
       ∧ Forall is_pair (produced_pairs (log s))
       ∧ (lock s = 1 → buffer s = flat R)
       ∧ ∀ i t, threads s !! i = Some t → cs_shape t R (buffer s).

Definition inv (s : state) : Prop :=
  counts s ∧ Forall sound (threads s) ∧ fifo s.

End Problem1.

(** ** Problem2.py: the relay of three processes *)

Module Problem2.

(** Program points of [process1] (lines 10-13), [process2] (lines 16-19)
    and [process3] (lines 22-23).  Each [while True] loop returns to its
    first statement after the last one. *)
Inductive pc1 := P1_acquire_a | P1_print_H | P1_print_E | P1_release_b.
Inductive pc2 := P2_acquire_b | P2_print_L1 | P2_print_L2 | P2_release_c.
Inductive pc3 := P3_acquire_c | P3_print_O.

Inductive tid := T1 | T2 | T3.

(** [a], [b], [c] are the values of the three [Semaphore] objects. *)
Record state := State {
  a : nat;
  b : nat;
  c : nat;
  at1 : pc1;
  at2 : pc2;
  at3 : pc3;
  stdout : list string
}.

(** [a = Semaphore(1)], [b = Semaphore(0)], [c = Semaphore(0)]; the three
    threads are started at the top of their loops. *)
Definition init : state :=
  State 1 0 0 P1_acquire_a P2_acquire_b P3_acquire_c [].

Definition print (line : string) (out : list string) : list string :=
  out ++ [line].

Definition process1 (s : state) : option state :=
  match at1 s with
  | P1_acquire_a =>
      match a s with
      | O => None
      | S n => Some (State n (b s) (c s) P1_print_H (at2 s) (at3 s) (stdout s))
      end
  | P1_print_H =>
      Some (State (a s) (b s) (c s) P1_print_E (at2 s) (at3 s) (print "H" (stdout s)))
  | P1_print_E =>
      Some (State (a s) (b s) (c s) P1_release_b (at2 s) (at3 s) (print "E" (stdout s)))
  | P1_release_b =>
      Some (State (a s) (S (b s)) (c s) P1_acquire_a (at2 s) (at3 s) (stdout s))
  end.

Definition process2 (s : state) : option state :=
  match at2 s with
  | P2_acquire_b =>
      match b s with
      | O => None
      | S n => Some (State (a s) n (c s) (at1 s) P2_print_L1 (at3 s) (stdout s))
      end
  | P2_print_L1 =>
      Some (State (a s) (b s) (c s) (at1 s) P2_print_L2 (at3 s) (print "L" (stdout s)))
  | P2_print_L2 =>
      Some (State (a s) (b s) (c s) (at1 s) P2_release_c (at3 s) (print "L" (stdout s)))
  | P2_release_c =>
      Some (State (a s) (b s) (S (c s)) (at1 s) P2_acquire_b (at3 s) (stdout s))
  end.

(** [process3] prints and goes back to [c.acquire()]: its loop body has no
    [release]. *)
Definition process3 (s : state) : option state :=
  match at3 s with
  | P3_acquire_c =>
      match c s with
      | O => None
      | S n => Some (State (a s) (b s) n (at1 s) (at2 s) P3_print_O (stdout s))
      end
  | P3_print_O =>
      Some (State (a s) (b s) (c s) (at1 s) (at2 s) P3_acquire_c (print "O" (stdout s)))
  end.

Definition step (s : state) (t : tid) : option state :=
  match t with
  | T1 => process1 s
  | T2 => process2 s
  | T3 => process3 s
  end.

Fixpoint run (s : state) (sched : list tid) : option state :=
  match sched with
  | [] => Some s
  | t :: sched' =>
      match step s t with
      | Some s' => run s' sched'
      | None => None
      end
  end.

(** One pass of each loop body, from its [acquire] to its last statement. *)
Definition cycle1 : list tid := [T1; T1; T1; T1].
Definition cycle2 : list tid := [T2; T2; T2; T2].
Definition cycle3 : list tid := [T3; T3].

(** The schedule of the first round. *)
Definition first_round : list tid := cycle1 ++ cycle2 ++ cycle3.

End Problem2.

(** ** deadlock_simlation.py: transfers between two locked accounts *)

Module DeadlockSimulation.

(** [class Account]: [lock] is the value of the account's
    [Semaphore(1)]. *)
Record Account := mkAccount {
  account_id : string;
  balance : Z;
  lock : nat
}.

(** [Account.__init__] *)
Definition Account_init (account_id : string) (balance : Z) : Account :=
  mkAccount account_id balance 1.

Definition set_lock (x : Account) (n : nat) : Account :=
  mkAccount (account_id x) (balance x) n.

Definition set_balance (x : Account) (z : Z) : Account :=
  mkAccount (account_id x) z (lock x).

(** The store of [Account] objects: a reference is a position in the
    list.  Two parameters of a call that hold the same reference are the
    same object. *)
Abbreviation heap := (list Account).

(** The content of each kind of [print] call of the two transfer
    functions; [line] gives the text. *)
Inductive message :=
| Attempting_first (name id : string)
| Attempting (name id : string)
| Acquired (name id : string)
| Transferred (name : string) (amount : Z) (from_id to_id : string)
| Balance_is (id : string) (balance : Z)
| Insufficient_funds (name id : string)
| Released (name id : string)
| Attempting_min (name id : string)
| Attempting_max (name id : string)
| Waited (name id : string)
| New_balance (name id : string) (balance : Z)
| Signalled (name id : string).

Definition nl : string := String (Ascii.ascii_of_nat 10) "".

(** Decimal rendering of an [int] inside an f-string. *)
Definition show_Z (z : Z) : string :=
  DecimalString.NilZero.string_of_int (Z.to_int z).


Definition line (m : message) : string :=
  match m with
  | Attempting_first name id =>
      nl ++ "[" ++ name ++ "] Attempting to acquire lock on " ++ id
  | Attempting name id =>
      "[" ++ name ++ "] Attempting to acquire lock on " ++ id
  | Acquired name id =>
      "[" ++ name ++ "] ✓ Acquired lock on " ++ id
  | Transferred name amount from_id to_id =>
      "[" ++ name ++ "] ✓ Transferred $" ++ show_Z amount ++ " from " ++ from_id
      ++ " to " ++ to_id
  | Balance_is id balance =>
      "    " ++ id ++ " balance: $" ++ show_Z balance
  | Insufficient_funds name id =>
      "[" ++ name ++ "] ✗ Insufficient funds in " ++ id
  | Released name id =>
      "[" ++ name ++ "] Released lock on " ++ id
  | Attempting_min name id =>
      nl ++ "[" ++ name ++ "] Attempting to acquire lock on " ++ id ++ " (min)"
  | Attempting_max name id =>
      "[" ++ name ++ "] Attempting to acquire lock on " ++ id ++ " (max)"
  | Waited name id =>
      "[" ++ name ++ "] ✓ wait(lock[" ++ id ++ "])"
  | New_balance name id balance =>
      "[" ++ name ++ "] ✓ balance[" ++ id ++ "] = " ++ show_Z balance
  | Signalled name id =>
      "[" ++ name ++ "] ✓ signal(lock[" ++ id ++ "])"
  end.

(** What a run leaves behind: semaphore operations and [print] calls, each
    with the index of the thread that performed it. *)
Inductive event :=
| Acquire (t : nat) (r : nat)
| Release (t : nat) (r : nat)
| Prints (t : nat) (m : message).

(** [x.lock.acquire()]: parks the caller ([None]) while the value is 0. *)
Definition acquire (h : heap) (r : nat) : option heap :=
  x ← h !! r;
  match lock x with
  | O => None
  | S n => Some (<[r := set_lock x n]> h)
  end.

(** [x.lock.release()]: a [Semaphore] has no upper bound. *)
Definition release (h : heap) (r : nat) : option heap :=
  x ← h !! r;
  Some (<[r := set_lock x (S (lock x))]> h).

(** *** [int(account_id.replace("Account", ""))] *)

(** [s.replace("Account", "")]: every occurrence, scanning from the left;
    [skip] counts the characters of the current occurrence still to drop. *)
Fixpoint drop_Account (skip : nat) (s : string) : string :=
  match s with
  | EmptyString => EmptyString
  | String ch s' =>
      match skip with
      | S k => drop_Account k s'
      | O =>
          if String.prefix "Account" s then drop_Account 6 s'
          else String ch (drop_Account 0 s')
      end
  end.

(** An identifier whose characters are all below 128 stands for the [str]
    of the same ASCII characters.  On these [int] skips, at both ends, the
    space and the five characters tab, line feed, vertical tab, form feed
    and carriage return, and nothing else; it reads the digits [0] to [9].
    A character above 127 is outside this translation ([int] consults the
    Unicode tables for it): a theorem that depends on the outcome of [int]
    is stated for identifiers that satisfy [is_ascii]. *)
Fixpoint is_ascii (s : string) : bool :=
  match s with
  | EmptyString => true
  | String ch s' => (Ascii.nat_of_ascii ch <? 128)%nat && is_ascii s'
  end.

Definition is_blank (ch : Ascii.ascii) : bool :=
  let n := Ascii.nat_of_ascii ch in
  ((n =? 32) || ((9 <=? n) && (n <=? 13)))%nat.

Definition digit_of (ch : Ascii.ascii) : option Z :=
  let n := Ascii.nat_of_ascii ch in
  if ((48 <=? n) && (n <=? 57))%nat then Some (Z.of_nat (n - 48)) else None.

Fixpoint lstrip (s : string) : string :=
  match s with
  | EmptyString => EmptyString
  | String ch s' => if is_blank ch then lstrip s' else s
  end.

Fixpoint rstrip (s : string) : string :=
  match s with
  | EmptyString => EmptyString
  | String ch s' =>
      match rstrip s' with
      | EmptyString => if is_blank ch then EmptyString else String ch EmptyString
      | r => String ch r
      end
  end.

(** Decimal digits, with single underscores allowed between two digits. *)
Fixpoint digits (s : string) (acc : Z) (after_digit : bool) : option Z :=
  match s with
  | EmptyString => if after_digit then Some acc else None
  | String ch s' =>
      match digit_of ch with
      | Some d => digits s' (10 * acc + d)%Z true
      | None =>
          if Ascii.eqb ch "_" && after_digit then digits s' acc false else None
      end
  end.

(** The interpreter's default limit on the number of digits that [int]
    reads and that [str] writes ([sys.get_int_max_str_digits()]). *)
Definition max_str_digits : N := 4300.

Fixpoint count_digits (s : string) : N :=
  match s with
  | EmptyString => 0
  | String ch s' =>
      ((match digit_of ch with Some _ => 1 | None => 0 end)
       + count_digits s')%N
  end.

(** [int(s)] on a string of ASCII characters; [None] is [ValueError],
    raised also when there are more than [max_str_digits] digits. *)
Definition int (s : string) : option Z :=
  let body := lstrip (rstrip s) in
  if (max_str_digits <? count_digits body)%N then None
  else
    match body with
    | String "-" s' => Z.opp <$> digits s' 0%Z false
    | String "+" s' => digits s' 0%Z false
    | s' => digits s' 0%Z false
    end.

Definition numeric_id (account_id : string) : option Z :=
  int (drop_Account 0 account_id).

(** *** The two transfer functions, statement by statement *)

(** Parameters of a call; [from_account] and [to_account] are references. *)
Record args := Args {
  from_account : nat;
  to_account : nat;
  amount : Z;
  thread_name : string
}.

(** Program points of [transfer]; the number is the source line of the
    statement that runs next. *)
Inductive transfer_pc :=
| T27_print | T30_acquire_from | T31_print | T34_sleep | T36_print
| T41_acquire_to | T42_print | T46_if | T47_debit | T48_credit
| T49_print | T50_print | T51_print | T53_print
| T56_release_to | T57_print | T59_release_from | T60_print
| T_return.

(** Program points of [transfer_ordered]; [O_ValueError] is the uncaught
    exception of [int]. *)
Inductive ordered_pc :=
| O74_from_id | O75_to_id | O79_if | O86_print | O89_acquire_a | O90_print
| O93_sleep | O95_print | O99_acquire_b | O100_print | O104_if
| O105_debit | O106_credit | O107_print | O108_print | O109_print
| O111_print | O114_release_b | O115_print | O118_release_a | O119_print
| O_return | O_ValueError.

(** Local variables of [transfer_ordered].  A variable holds 0 until its
    assignment; no statement reads it before. *)
Record locals := Locals {
  from_id : Z;
  to_id : Z;
  lock_a : nat;
  lock_b : nat
}.

Definition no_locals : locals := Locals 0 0 0 0.

Inductive thread :=
| Transfer (p : transfer_pc) (a : args)
| TransferOrdered (p : ordered_pc) (a : args) (l : locals).

Definition emit (tr : list event) (e : event) : list event := tr ++ [e].

Definition transfer (me : nat) (a : args) (h : heap) (tr : list event)
    (p : transfer_pc) : option (heap * list event * transfer_pc) :=
  src ← h !! from_account a;
  dst ← h !! to_account a;
  let name := thread_name a in
  match p with
  | T27_print =>
      Some (h, emit tr (Prints me (Attempting_first name (account_id src))),
            T30_acquire_from)
  | T30_acquire_from =>
      h' ← acquire h (from_account a);
      Some (h', emit tr (Acquire me (from_account a)), T31_print)
  | T31_print =>
      Some (h, emit tr (Prints me (Acquired name (account_id src))), T34_sleep)
  | T34_sleep => Some (h, tr, T36_print)
  | T36_print =>
      Some (h, emit tr (Prints me (Attempting name (account_id dst))),
            T41_acquire_to)
  | T41_acquire_to =>
      h' ← acquire h (to_account a);
      Some (h', emit tr (Acquire me (to_account a)), T42_print)
  | T42_print =>
      Some (h, emit tr (Prints me (Acquired name (account_id dst))), T46_if)
  | T46_if =>
      Some (h, tr, if (balance src >=? amount a)%Z then T47_debit else T53_print)
  | T47_debit =>
      Some (<[from_account a := set_balance src (balance src - amount a)]> h, tr,
            T48_credit)
  | T48_credit =>
      Some (<[to_account a := set_balance dst (balance dst + amount a)]> h, tr,
            T49_print)
  | T49_print =>
      Some (h, emit tr (Prints me (Transferred name (amount a) (account_id src)
                                    (account_id dst))), T50_print)
  | T50_print =>
      Some (h, emit tr (Prints me (Balance_is (account_id src) (balance src))),
            T51_print)
  | T51_print =>
      Some (h, emit tr (Prints me (Balance_is (account_id dst) (balance dst))),
            T56_release_to)
  | T53_print =>
      Some (h, emit tr (Prints me (Insufficient_funds name (account_id src))),
            T56_release_to)
  | T56_release_to =>
      h' ← release h (to_account a);
      Some (h', emit tr (Release me (to_account a)), T57_print)
  | T57_print =>
      Some (h, emit tr (Prints me (Released name (account_id dst))),
            T59_release_from)
  | T59_release_from =>
      h' ← release h (from_account a);
      Some (h', emit tr (Release me (from_account a)), T60_print)
  | T60_print =>
      Some (h, emit tr (Prints me (Released name (account_id src))), T_return)
  | T_return => None
  end.

Definition transfer_ordered (me : nat) (a : args) (h : heap) (tr : list event)
    (p : ordered_pc) (l : locals)
  : option (heap * list event * ordered_pc * locals) :=
  src ← h !! from_account a;
  dst ← h !! to_account a;
  let name := thread_name a in
  match p with
  | O74_from_id =>
      match numeric_id (account_id src) with
      | Some n => Some (h, tr, O75_to_id, Locals n (to_id l) (lock_a l) (lock_b l))
      | None => Some (h, tr, O_ValueError, l)
      end
  | O75_to_id =>
      match numeric_id (account_id dst) with
      | Some n => Some (h, tr, O79_if, Locals (from_id l) n (lock_a l) (lock_b l))
      | None => Some (h, tr, O_ValueError, l)
      end
  | O79_if =>
      if (from_id l <? to_id l)%Z
      then Some (h, tr, O86_print,
                 Locals (from_id l) (to_id l) (from_account a) (to_account a))
      else Some (h, tr, O86_print,
                 Locals (from_id l) (to_id l) (to_account a) (from_account a))
  | O86_print =>
      la ← h !! lock_a l;
      Some (h, emit tr (Prints me (Attempting_min name (account_id la))),
            O89_acquire_a, l)
  | O89_acquire_a =>
      h' ← acquire h (lock_a l);
      Some (h', emit tr (Acquire me (lock_a l)), O90_print, l)
  | O90_print =>
      la ← h !! lock_a l;
      Some (h, emit tr (Prints me (Waited name (account_id la))), O93_sleep, l)
  | O93_sleep => Some (h, tr, O95_print, l)
  | O95_print =>
      lb ← h !! lock_b l;
      Some (h, emit tr (Prints me (Attempting_max name (account_id lb))),
            O99_acquire_b, l)
  | O99_acquire_b =>
      h' ← acquire h (lock_b l);
      Some (h', emit tr (Acquire me (lock_b l)), O100_print, l)
  | O100_print =>
      lb ← h !! lock_b l;
      Some (h, emit tr (Prints me (Waited name (account_id lb))), O104_if, l)
  | O104_if =>
      Some (h, tr, if (balance src >=? amount a)%Z then O105_debit else O111_print, l)
  | O105_debit =>
      Some (<[from_account a := set_balance src (balance src - amount a)]> h, tr,
            O106_credit, l)
  | O106_credit =>
      Some (<[to_account a := set_balance dst (balance dst + amount a)]> h, tr,
            O107_print, l)
  | O107_print =>
      Some (h, emit tr (Prints me (New_balance name (account_id src) (balance src))),
            O108_print, l)
  | O108_print =>
      Some (h, emit tr (Prints me (New_balance name (account_id dst) (balance dst))),
            O109_print, l)
  | O109_print =>
      Some (h, emit tr (Prints me (Transferred name (amount a) (account_id src)
                                    (account_id dst))), O114_release_b, l)
  | O111_print =>
      Some (h, emit tr (Prints me (Insufficient_funds name (account_id src))),
            O114_release_b, l)
  | O114_release_b =>
      h' ← release h (lock_b l);
      Some (h', emit tr (Release me (lock_b l)), O115_print, l)
  | O115_print =>
      lb ← h !! lock_b l;
      Some (h, emit tr (Prints me (Signalled name (account_id lb))),
            O118_release_a, l)
  | O118_release_a =>
      h' ← release h (lock_a l);
      Some (h', emit tr (Release me (lock_a l)), O119_print, l)
  | O119_print =>
      la ← h !! lock_a l;
      Some (h, emit tr (Prints me (Signalled name (account_id la))), O_return, l)
  | O_return => None
  | O_ValueError => None
  end.

Definition thread_step (me : nat) (h : heap) (tr : list event) (t : thread)
  : option (heap * list event * thread) :=
  match t with
  | Transfer p a =>
      '(h', tr', p') ← transfer me a h tr p;
      Some (h', tr', Transfer p' a)
  | TransferOrdered p a l =>
      '(h', tr', p', l') ← transfer_ordered me a h tr p l;
      Some (h', tr', TransferOrdered p' a l')
  end.

(** A call on its own: the thread takes steps until it returns, raises or
    parks. *)
Fixpoint thread_run (fuel : nat) (me : nat) (h : heap) (tr : list event)
    (t : thread) : heap * list event * thread :=
  match fuel with
  | O => (h, tr, t)
  | S fuel' =>
      match thread_step me h tr t with
      | Some (h', tr', t') => thread_run fuel' me h' tr' t'
      | None => (h, tr, t)
      end
  end.

(** Enough for either function: the longest path has 20 statements. *)
Definition call_fuel : nat := 32.

Definition call_transfer (from_account to_account : nat) (amount : Z)
    (thread_name : string) : thread :=
  Transfer T27_print (Args from_account to_account amount thread_name).

Definition call_transfer_ordered (from_account to_account : nat) (amount : Z)
    (thread_name : string) : thread :=
  TransferOrdered O74_from_id (Args from_account to_account amount thread_name)
                  no_locals.

(** The function has run to its end. *)
Definition returned (t : thread) : bool :=
  match t with
  | Transfer T_return _ => true
  | TransferOrdered O_return _ _ => true
  | _ => false
  end.

(** [Thread.is_alive()]: false once the target function has returned or
    died of an exception. *)
Definition is_alive (t : thread) : bool :=
  match t with
  | Transfer T_return _ => false
  | TransferOrdered O_return _ _ => false
  | TransferOrdered O_ValueError _ _ => false
  | _ => true
  end.

(** The semaphore operations of a trace, in order. *)
Definition lock_ops (tr : list event) : list event :=
  List.filter (fun e => match e with Prints _ _ => false | _ => true end) tr.

Definition printed (tr : list event) : list message :=
  omap (fun e => match e with Prints _ m => Some m | _ => None end) tr.

Definition stdout (tr : list event) : list string := line <$> printed tr.

(** *** Threads running together *)

Record state := State {
  accounts : heap;
  threads : list thread;
  trace : list event
}.

Definition step (s : state) (i : nat) : option state :=
  t ← threads s !! i;
  '(h', tr', t') ← thread_step i (accounts s) (trace s) t;
  Some (State h' (<[i := t']> (threads s)) tr').

Fixpoint run (s : state) (sched : list nat) : option state :=
  match sched with
  | [] => Some s
  | i :: sched' =>
      match step s i with
      | Some s' => run s' sched'
      | None => None
      end
  end.

(** The module-level objects [account1] and [account2]. *)
Definition account1 : nat := 0.
Definition account2 : nat := 1.

Definition fresh_accounts : heap :=
  [Account_init "Account1" 1000; Account_init "Account2" 1000].

Definition thread1_task : thread :=
  call_transfer account1 account2 100 "Thread-1".
Definition thread2_task : thread :=
  call_transfer account2 account1 50 "Thread-2".
Definition thread1_task_ordered : thread :=
  call_transfer_ordered account1 account2 100 "Thread-1".
Definition thread2_task_ordered : thread :=
  call_transfer_ordered account2 account1 50 "Thread-2".

(** [main] after [t1.start(); t2.start()]. *)
Definition main (h : heap) : state :=
  State h [thread1_task; thread2_task] [].

(** [account1.balance = 1000; account2.balance = 1000] at the top of
    [main_ordered]. *)
Definition reset_balances (h : heap) : heap :=
  let h1 := match h !! account1 with
            | Some x => <[account1 := set_balance x 1000]> h
            | None => h
            end in
  match h1 !! account2 with
  | Some x => <[account2 := set_balance x 1000]> h1
  | None => h1
  end.

(** [main_ordered] after [t1.start(); t2.start()]. *)
Definition main_ordered (h : heap) : state :=
  State (reset_balances h) [thread1_task_ordered; thread2_task_ordered] [].

(** The test [t1.is_alive() or t2.is_alive()] that both drivers make once
    the two [join(timeout=...)] calls are over. *)
Definition deadlock_reported (s : state) : bool :=
  match threads s with
  | [t1; t2] => is_alive t1 || is_alive t2
  | _ => false
  end.

Definition balance_of (h : heap) (r : nat) : option Z := balance <$> h !! r.
Definition lock_of (h : heap) (r : nat) : option nat := lock <$> h !! r.

(** *** Quantities used to state the properties *)

(** Whether a trace holds the success report, and whether it holds the
    insufficient-funds report. *)
Definition reported_success (tr : list event) : bool :=
  existsb (fun e => match e with Prints _ (Transferred _ _ _ _) => true
                            | _ => false end) tr.

Definition reported_insufficient (tr : list event) : bool :=
  existsb (fun e => match e with Prints _ (Insufficient_funds _ _) => true
                            | _ => false end) tr.

(** In [transfer]: the first lock has been acquired and the second
    [acquire] has not yet succeeded. *)
Definition holds_first (p : transfer_pc) : bool :=
  match p with
  | T31_print | T34_sleep | T36_print | T41_acquire_to => true
  | _ => false
  end.

(** Statements left before the second [acquire] of [transfer]. *)
Definition before_second (p : transfer_pc) : nat :=
  match p with
  | T31_print => 3
  | T34_sleep => 2
  | T36_print => 1
  | _ => 0
  end.

(** The program point after [p] on the path of [transfer_ordered] whose
    funds suffice, and the number of statements left on that path. *)
Definition next (p : ordered_pc) : ordered_pc :=
  match p with
  | O74_from_id => O75_to_id | O75_to_id => O79_if | O79_if => O86_print
  | O86_print => O89_acquire_a | O89_acquire_a => O90_print
  | O90_print => O93_sleep | O93_sleep => O95_print
  | O95_print => O99_acquire_b | O99_acquire_b => O100_print
  | O100_print => O104_if | O104_if => O105_debit
  | O105_debit => O106_credit | O106_credit => O107_print
  | O107_print => O108_print | O108_print => O109_print
  | O109_print => O114_release_b | O111_print => O114_release_b
  | O114_release_b => O115_print | O115_print => O118_release_a
  | O118_release_a => O119_print | O119_print => O_return
  | O_return => O_return | O_ValueError => O_ValueError
  end.

Definition left (p : ordered_pc) : nat :=
  match p with
  | O74_from_id => 20 | O75_to_id => 19 | O79_if => 18 | O86_print => 17
  | O89_acquire_a => 16 | O90_print => 15 | O93_sleep => 14
  | O95_print => 13 | O99_acquire_b => 12 | O100_print => 11
  | O104_if => 10 | O105_debit => 9 | O106_credit => 8 | O107_print => 7
  | O108_print => 6 | O109_print => 5 | O111_print => 5
  | O114_release_b => 4 | O115_print => 3 | O118_release_a => 2
  | O119_print => 1 | O_return => 0 | O_ValueError => 0
  end.

(** In [transfer_ordered]: [lock_a] is held, [lock_b] is held, the debit
    is done, the credit is done. *)
Definition holds_a (p : ordered_pc) : bool :=
  (Nat.leb (left p) 15 && Nat.leb 2 (left p))%bool.
Definition holds_b (p : ordered_pc) : bool :=
  (Nat.leb (left p) 11 && Nat.leb 4 (left p))%bool.
Definition debited (p : ordered_pc) : bool := Nat.leb (left p) 8.
Definition credited (p : ordered_pc) : bool := Nat.leb (left p) 7.

(** The two threads of [main_ordered] and the two accounts, as functions
    of the program points of the threads. *)
Definition locals_at (p : ordered_pc) (from_id to_id : Z) (lock_a lock_b : nat)
  : locals :=
  match p with
  | O74_from_id => no_locals
  | O75_to_id => Locals from_id 0 0 0
  | O79_if => Locals from_id to_id 0 0
  | _ => Locals from_id to_id lock_a lock_b
  end.

Definition thread1_at (p : ordered_pc) : thread :=
  TransferOrdered p (Args account1 account2 100 "Thread-1")
    (locals_at p 1 2 account1 account2).

Definition thread2_at (p : ordered_pc) : thread :=
  TransferOrdered p (Args account2 account1 50 "Thread-2")
    (locals_at p 2 1 account1 account2).

Definition accounts_at (p1 p2 : ordered_pc) : heap :=
  [mkAccount "Account1"
     (1000 - (if debited p1 then 100 else 0) + (if credited p2 then 50 else 0))
     (1 - Nat.b2n (holds_a p1) - Nat.b2n (holds_a p2));
   mkAccount "Account2"
     (1000 + (if credited p1 then 100 else 0) - (if debited p2 then 50 else 0))
     (1 - Nat.b2n (holds_b p1) - Nat.b2n (holds_b p2))].

Definition state_at (p1 p2 : ordered_pc) (tr : list event) : state :=
  State (accounts_at p1 p2) [thread1_at p1; thread2_at p2] tr.

Definition on_path (p : ordered_pc) : bool :=
  match p with
  | O111_print | O_ValueError => false
  | _ => true
  end.

Definition consistent (p1 p2 : ordered_pc) : bool :=
  on_path p1 && on_path p2 && negb (holds_a p1 && holds_a p2).

(** Two [transfer] calls in opposite directions over [X] and [Y]. *)
Definition opposite (h : heap) (X Y : nat) (a1 a2 : Z) (n1 n2 : string)
    (p1 p2 : transfer_pc) (tr : list event) : state :=
  State h [Transfer p1 (Args X Y a1 n1); Transfer p2 (Args Y X a2 n2)] tr.

End DeadlockSimulation.

(** ** Problem1.py: roles of the threads and printed sizes *)

Module BufferRoles.
Import Problem1.

Definition is_producer (t : thread) : bool :=
  match t with
  | Producer _ _ _ _ => true
  | Consumer _ _ _ _ => false
  end.

(** What the two [print] calls can show as buffer size. *)
Definition size_ok (e : event) : Prop :=
  match e with
  | Produced _ _ _ size => Nat.Even size ∧ (2 ≤ size ∧ size ≤ BUFFER_SIZE)%nat
  | Consumed _ _ _ size => Nat.Even size ∧ (size + 2 ≤ BUFFER_SIZE)%nat
  end.

End BufferRoles.

(** ** Problem2.py: permits in circulation *)

Module RelayPermits.
Import Problem2.

(** 1 while a process is between its [acquire] and the end of its loop
    body. *)
Definition in_body1 (p : pc1) : nat :=
  match p with P1_acquire_a => 0 | _ => 1 end.
Definition in_body2 (p : pc2) : nat :=
  match p with P2_acquire_b => 0 | _ => 1 end.
Definition in_body3 (p : pc3) : nat :=
  match p with P3_acquire_c => 0 | _ => 1 end.

Definition busy (s : state) : nat :=
  in_body1 (at1 s) + in_body2 (at2 s) + in_body3 (at3 s).

(** Permits stored in the three semaphores or carried by a process that
    is inside its body. *)
Definition permits (s : state) : nat := a s + b s + c s + busy s.

(** Statements that the three processes can still execute: a permit in
    [a] pays for the ten statements of a whole round, one in [b] for the
    six of [process2] and [process3], one in [c] for the two of
    [process3]. *)
Definition statements_left (s : state) : nat :=
  10 * a s + 6 * b s + 2 * c s
  + match at1 s with
    | P1_acquire_a => 0 | P1_print_H => 9 | P1_print_E => 8 | P1_release_b => 7
    end
  + match at2 s with
    | P2_acquire_b => 0 | P2_print_L1 => 5 | P2_print_L2 => 4
    | P2_release_c => 3
    end
  + match at3 s with
    | P3_acquire_c => 0 | P3_print_O => 1
    end.

End RelayPermits.

(** ** deadlock_simlation.py: any number of transfers running together *)

Module TransferPool.
Import DeadlockSimulation.

(** In [transfer]: the lock of the source is held from the [acquire] of
    line 30 to the [release] of line 59, the lock of the destination from
    line 41 to line 56. *)
Definition held_from (p : transfer_pc) : bool :=
  match p with
  | T27_print | T30_acquire_from | T60_print | T_return => false
  | _ => true
  end.

Definition held_to (p : transfer_pc) : bool :=
  match p with
  | T42_print | T46_if | T47_debit | T48_credit | T49_print | T50_print
  | T51_print | T53_print | T56_release_to => true
  | _ => false
  end.

(** Number of permits of the lock of account [r] that thread [t] has
    acquired and not released. *)
Definition holds (t : thread) (r : nat) : nat :=
  match t with
  | Transfer p a =>
      Nat.b2n (held_from p && Nat.eqb (from_account a) r)
      + Nat.b2n (held_to p && Nat.eqb (to_account a) r)
  | TransferOrdered p a l =>
      Nat.b2n (holds_a p && Nat.eqb (lock_a l) r)
      + Nat.b2n (holds_b p && Nat.eqb (lock_b l) r)
  end.

Fixpoint tally {A} (w : A → nat) (l : list A) : nat :=
  match l with
  | [] => 0
  | x :: l' => w x + tally w l'
  end.

Definition args_of (t : thread) : args :=
  match t with
  | Transfer _ a => a
  | TransferOrdered _ a _ => a
  end.

(** The thread is at the test or at one of the two updates of the
    balances (lines 46-48, 104-106). *)
Definition in_critical (t : thread) : bool :=
  match t with
  | Transfer (T46_if | T47_debit | T48_credit) _ => true
  | TransferOrdered (O104_if | O105_debit | O106_credit) _ _ => true
  | _ => false
  end.

(** The test has succeeded and the debit is the next statement. *)
Definition at_debit (t : thread) : bool :=
  match t with
  | Transfer T47_debit _ => true
  | TransferOrdered O105_debit _ _ => true
  | _ => false
  end.

(** Money taken from the source and not yet given to the destination. *)
Definition in_flight (t : thread) : Z :=
  match t with
  | Transfer T48_credit a => amount a
  | TransferOrdered O106_credit a _ => amount a
  | _ => 0%Z
  end.

Fixpoint sumZ {A} (w : A → Z) (l : list A) : Z :=
  match l with
  | [] => 0%Z
  | x :: l' => (w x + sumZ w l')%Z
  end.

(** A call that has not started. *)
Definition fresh (t : thread) : Prop :=
  t = Transfer T27_print (args_of t)
  ∨ t = TransferOrdered O74_from_id (args_of t) no_locals.

(** From line 86 on, [lock_a] and [lock_b] are the two accounts of the
    call. *)
Definition locals_set (t : thread) : Prop :=
  match t with
  | Transfer _ _ => True
  | TransferOrdered p a l =>
      (left p ≤ 17)%nat → p ≠ O_ValueError →
      (lock_a l = from_account a ∧ lock_b l = to_account a)
      ∨ (lock_a l = to_account a ∧ lock_b l = from_account a)
  end.

(** Every lock is accounted for: its value and the permits held by the
    threads add up to 1. *)
Definition locks_accounted (s : state) : Prop :=
  ∀ r x, accounts s !! r = Some x →
         lock x + tally (λ t, holds t r) (threads s) = 1.

(** All the money of the system: the balances and what is in flight. *)
Definition money (s : state) : Z :=
  (sumZ balance (accounts s) + sumZ in_flight (threads s))%Z.

(** No balance is negative, no amount is negative, and a thread about to
    debit finds enough on its source. *)
Definition solvent (s : state) : Prop :=
  (∀ r x, accounts s !! r = Some x → (0 ≤ balance x)%Z)
  ∧ (∀ i t, threads s !! i = Some t → (0 ≤ amount (args_of t))%Z)
  ∧ (∀ i t x, threads s !! i = Some t → at_debit t = true →
       accounts s !! from_account (args_of t) = Some x →
       (amount (args_of t) ≤ balance x)%Z).

(** *** Pools of ordered transfers *)

(** Numeric identifier of the account at reference [r], where [ids] lists
    the [account_id] fields of the store. *)
Definition key (ids : list string) (r : nat) : option Z :=
  ids !! r ≫= numeric_id.

(** Different accounts have different numeric identifiers. *)
Definition distinct_keys (ids : list string) : Prop :=
  ∀ r r' k, key ids r = Some k → key ids r' = Some k → r = r'.

(** A [transfer_ordered] call between two different accounts with numeric
    identifiers, that has not started. *)
Definition ordered_call (ids : list string) (t : thread) : Prop :=
  t = TransferOrdered O74_from_id (args_of t) no_locals
  ∧ from_account (args_of t) ≠ to_account (args_of t)
  ∧ is_Some (key ids (from_account (args_of t)))
  ∧ is_Some (key ids (to_account (args_of t))).

(** A [transfer_ordered] call under way: its local variables hold what
    lines 74-84 have computed so far. *)
Definition ordered_ok (ids : list string) (t : thread) : Prop :=
  match t with
  | Transfer _ _ => False
  | TransferOrdered p a l =>
      from_account a ≠ to_account a
      ∧ p ≠ O_ValueError
      ∧ ∃ kf kt,
          key ids (from_account a) = Some kf
          ∧ key ids (to_account a) = Some kt
          ∧ ((left p ≤ 19)%nat → from_id l = kf)
          ∧ ((left p ≤ 18)%nat → to_id l = kt)
          ∧ ((left p ≤ 17)%nat →
             lock_a l = (if (kf <? kt)%Z then from_account a else to_account a)
             ∧ lock_b l = (if (kf <? kt)%Z then to_account a
                           else from_account a))
  end.

(** The account whose lock the thread is about to acquire. *)
Definition waits (t : thread) : option nat :=
  match t with
  | TransferOrdered O89_acquire_a _ l => Some (lock_a l)
  | TransferOrdered O99_acquire_b _ l => Some (lock_b l)
  | _ => None
  end.

(** Statements left to a [transfer_ordered] call on its longest path. *)
Definition left_of (t : thread) : nat :=
  match t with
  | Transfer _ _ => 0
  | TransferOrdered p _ _ => left p
  end.

(** The invariant of a pool of ordered transfers over accounts with the
    identifiers [ids]. *)
Definition ordered_pool (ids : list string) (s : state) : Prop :=
  account_id <$> accounts s = ids
  ∧ Forall (ordered_ok ids) (threads s)
  ∧ locks_accounted s.

End TransferPool.

(** ** deadlock_simlation.py: the two drivers, one after the other *)

Module Script.
Import DeadlockSimulation TransferPool.

(** The program point after [p] in [transfer] on the path on which the
    funds suffice, and the number of statements left on that path. *)
Definition after (p : transfer_pc) : transfer_pc :=
  match p with
  | T27_print => T30_acquire_from | T30_acquire_from => T31_print
  | T31_print => T34_sleep | T34_sleep => T36_print
  | T36_print => T41_acquire_to | T41_acquire_to => T42_print
  | T42_print => T46_if | T46_if => T47_debit | T47_debit => T48_credit
  | T48_credit => T49_print | T49_print => T50_print
  | T50_print => T51_print | T51_print => T56_release_to
  | T53_print => T56_release_to | T56_release_to => T57_print
  | T57_print => T59_release_from | T59_release_from => T60_print
  | T60_print => T_return | T_return => T_return
  end.

Definition remaining (p : transfer_pc) : nat :=
  match p with
  | T27_print => 17 | T30_acquire_from => 16 | T31_print => 15
  | T34_sleep => 14 | T36_print => 13 | T41_acquire_to => 12
  | T42_print => 11 | T46_if => 10 | T47_debit => 9 | T48_credit => 8
  | T49_print => 7 | T50_print => 6 | T51_print => 5 | T53_print => 5
  | T56_release_to => 4 | T57_print => 3 | T59_release_from => 2
  | T60_print => 1 | T_return => 0
  end.

(** On that path: the debit of line 47 is done, the credit of line 48 is
    done. *)
Definition withdrawn (p : transfer_pc) : bool := Nat.leb (remaining p) 8.
Definition deposited (p : transfer_pc) : bool := Nat.leb (remaining p) 7.

Definition funded (p : transfer_pc) : bool :=
  match p with
  | T53_print => false
  | _ => true
  end.

(** The two threads of [main] and the two accounts, as functions of the
    program points of the threads. *)
Definition main_at (p1 p2 : transfer_pc) (tr : list event) : state :=
  State
    [mkAccount "Account1"
       (1000 - (if withdrawn p1 then 100 else 0)
        + (if deposited p2 then 50 else 0))
       (1 - Nat.b2n (held_from p1) - Nat.b2n (held_to p2));
     mkAccount "Account2"
       (1000 + (if deposited p1 then 100 else 0)
        - (if withdrawn p2 then 50 else 0))
       (1 - Nat.b2n (held_to p1) - Nat.b2n (held_from p2))]
    [Transfer p1 (Args account1 account2 100 "Thread-1");
     Transfer p2 (Args account2 account1 50 "Thread-2")]
    tr.

Definition compatible (p1 p2 : transfer_pc) : bool :=
  funded p1 && funded p2
  && negb (held_from p1 && held_to p2) && negb (held_to p1 && held_from p2).

(** [main(); main_ordered()] of lines 244 and 247, taken when [main] has
    made its test: the balances are reset, the two threads of [main] are
    still there, and two more threads are started. *)
Definition main_then_main_ordered (s : state) : state :=
  State (reset_balances (accounts s))
        (threads s ++ [thread1_task_ordered; thread2_task_ordered])%list
        (trace s).

(** The test of line 225 on the threads that [main_ordered] started. *)
Definition ordered_deadlock_reported (s : state) : bool :=
  match threads s with
  | [_; _; t1; t2] => is_alive t1 || is_alive t2
  | _ => false
  end.

(** The four threads of the second demonstration: those of [main], both
    at [q], and those of [main_ordered]. *)
Definition second_at (q : transfer_pc) (h : heap) (p3 p4 : ordered_pc)
    (tr : list event) : state :=
  State h
    [Transfer q (Args account1 account2 100 "Thread-1");
     Transfer q (Args account2 account1 50 "Thread-2");
     thread1_at p3; thread2_at p4]
    tr.

(** The accounts as a deadlocked [main] leaves them, balances reset. *)
Definition held_accounts : heap :=
  [mkAccount "Account1" 1000 0; mkAccount "Account2" 1000 0].

(** Before the first [acquire] of [transfer_ordered]. *)
Definition before_first (p : ordered_pc) : bool := Nat.leb 16 (left p).

End Script.

(** * Properties of the pair buffer ([Problem1.py]) *)

Module Problem1Facts.
Import Problem1.
Local Open Scope list_scope.
Local Open Scope nat_scope.

Lemma buffer_run_app (s : state) (l1 l2 : list nat) :
  run s (l1 ++ l2) = run s l1 ≫= λ s', run s' l2.
Proof.
  revert s. induction l1 as [|t l1 IH]; intros s; simpl; [done|].
  destruct (step s t); simpl; [apply IH | done].
Qed.

(** **** Sums over the threads *)

Lemma total_insert (w : thread → nat) (ts : list thread) (i : nat)
    (t t' : thread) :
  ts !! i = Some t →
  total w (<[i := t']> ts) + w t = total w ts + w t'.
Proof.
  revert i. induction ts as [|u ts IH]; intros i Hi; [done|].
  destruct i as [|i]; simpl in *.
  - injection Hi as ->. lia.
  - specialize (IH i Hi). lia.
Qed.

Lemma total_ge (w : thread → nat) (ts : list thread) (i : nat) (t : thread) :
  ts !! i = Some t → w t ≤ total w ts.
Proof.
  revert i. induction ts as [|u ts IH]; intros i Hi; [done|].
  destruct i as [|i]; simpl in *.
  - injection Hi as ->. lia.
  - specialize (IH i Hi). lia.
Qed.

Lemma total_two (w : thread → nat) (ts : list thread) (i j : nat)
    (t u : thread) :
  i ≠ j → ts !! i = Some t → ts !! j = Some u → w t + w u ≤ total w ts.
Proof.
  revert i j. induction ts as [|v ts IH]; intros i j Hne Hi Hj; [done|].
  destruct i as [|i], j as [|j]; simpl in *; try done.
  - injection Hi as ->. pose proof (total_ge w ts j u Hj). lia.
  - injection Hj as ->. pose proof (total_ge w ts i t Hi). lia.
  - assert (i ≠ j) by congruence.
    specialize (IH i j H Hi Hj). lia.
Qed.

Lemma total_fmap_zero {A} (w : thread → nat) (f : A → thread) (l : list A) :
  (∀ x, w (f x) = 0) → total w (f <$> l) = 0.
Proof.
  intros Hz. induction l as [|x l IH]; simpl; [done|].
  rewrite Hz. exact IH.
Qed.

Lemma total_app (w : thread → nat) (l1 l2 : list thread) :
  total w (l1 ++ l2) = total w l1 + total w l2.
Proof. induction l1 as [|x l1 IH]; simpl; [done|]. rewrite IH. lia. Qed.

Lemma flat_app (R1 R2 : list (string * string)) :
  flat (R1 ++ R2) = flat R1 ++ flat R2.
Proof.
  induction R1 as [|[x y] R1 IH]; simpl; [done|]. by rewrite IH.
Qed.

(** **** The invariant is kept by every statement *)

Lemma counts_step (s s' : state) (i : nat) :
  counts s → step s i = Some s' → counts s'.
Proof.
  intros (A & B & L) Hs. unfold step in Hs.
  destruct (threads s !! i) as [t|] eqn:Hi; [|done].
  destruct s as [buf sp fu lk ts lg]. simpl in *.
  pose proof (total_ge full_held _ _ _ Hi) as Hf.
  destruct t as [pid p P1 P2|cid p P1 P2]; destruct p; simpl in Hs, Hf;
    repeat case_match; simplify_eq; simpl in *; try lia;
    unfold counts; simpl;
    match goal with
    | |- context [<[i := ?t']> ts] =>
        pose proof (total_insert space_held ts i _ t' Hi);
        pose proof (total_insert full_held ts i _ t' Hi);
        pose proof (total_insert in_cs ts i _ t' Hi)
    end; simpl in *; rewrite ?length_app; simpl; lia.
Qed.

Lemma sound_step (s s' : state) (i : nat) :
  counts s → Forall sound (threads s) → step s i = Some s' →
  Forall sound (threads s').
Proof.
  intros (A & B & L) Hsound Hs. unfold step in Hs.
  destruct (threads s !! i) as [t|] eqn:Hi; [|done].
  destruct s as [buf sp fu lk ts lg]. simpl in *.
  pose proof (total_ge full_held _ _ _ Hi) as Hf.
  pose proof (Forall_lookup_1 _ _ _ _ Hsound Hi) as Ht.
  destruct t as [pid p P1 P2|cid p P1 P2]; destruct p; simpl in Hs, Hf, Ht;
    repeat case_match; simplify_eq; simpl in *; try lia;
    (apply Forall_insert; [done|]); simpl;
    first [ done | by right | by destruct Ht as [|]; [|right] ].
Qed.

Lemma cs_shape_outside (u : thread) (R : list (string * string))
    (buf : list string) :
  in_cs u = 0 → cs_shape u R buf.
Proof. by destruct u as [? [] ? ?|? [] ? ?]. Qed.

Lemma produced_pairs_snoc (lg : list event) (e : event) :
  produced_pairs (lg ++ [e])
  = produced_pairs lg
    ++ match e with Produced _ x y _ => [(x, y)] | _ => [] end.
Proof. unfold produced_pairs. rewrite omap_app. by destruct e. Qed.

Lemma consumed_pairs_snoc (lg : list event) (e : event) :
  consumed_pairs (lg ++ [e])
  = consumed_pairs lg
    ++ match e with Consumed _ x y _ => [(x, y)] | _ => [] end.
Proof. unfold consumed_pairs. rewrite omap_app. by destruct e. Qed.

Lemma fifo_step (s s' : state) (i : nat) :
  counts s → Forall sound (threads s) → fifo s → step s i = Some s' →
  fifo s'.
Proof.
  intros (A & B & L) Hsound (R & HR & Hpairs & Hfree & Hshape) Hs.
  unfold step in Hs.
  destruct (threads s !! i) as [t|] eqn:Hi; [|done].
  destruct s as [buf sp fu lk ts lg]. simpl in *.
  assert (Hlt : i < length ts) by (by eapply lookup_lt_Some).
  pose proof (total_ge full_held _ _ _ Hi) as Hf.
  pose proof (total_ge in_cs _ _ _ Hi) as Hc.
  pose proof (Forall_lookup_1 _ _ _ _ Hsound Hi) as Ht.
  pose proof (Hshape i t Hi) as Hme.
  assert (Hothers : in_cs t = 1 → ∀ j u R' b,
             i ≠ j → ts !! j = Some u → cs_shape u R' b).
  { intros H1 j u R' b Hne Hj. apply cs_shape_outside.
    pose proof (total_two in_cs ts i j t u Hne Hi Hj). lia. }
  destruct t as [pid p P1 P2|cid p P1 P2]; destruct p;
    simpl in Hs, Hf, Hc, Ht, Hme, Hothers;
    repeat case_match; simplify_eq; simpl in *; try lia.
  all: try (exists R; simpl; split; [done|]; split; [done|]; split;
      [ first [ exact Hfree | by intros; exfalso; lia | by intros _ ] | ];
      intros j u Hj; destruct (decide (i = j)) as [<-|Hne];
      [ rewrite list_lookup_insert_eq in Hj by done; injection Hj as <-; simpl;
        first [ done | by apply Hfree; lia | by rewrite <- app_assoc ]
      | rewrite list_lookup_insert_ne in Hj by done;
        first [ by eapply Hshape | by eapply Hothers ] ]).
  - (* line 23: the producer announces its pair *)
    exists (R ++ [(P1, P2)]). simpl.
    rewrite produced_pairs_snoc, consumed_pairs_snoc, app_nil_r.
    split; [by rewrite HR, app_assoc|]. split.
    { apply Forall_app. split; [done|]. apply Forall_singleton.
      destruct Ht as [|[-> ->]]; [done|]. by exists pid. }
    split; [by intros; exfalso; lia|].
    intros j u Hj. destruct (decide (i = j)) as [<-|Hne].
    + rewrite list_lookup_insert_eq in Hj by done. injection Hj as <-. simpl.
      by rewrite flat_app.
    + rewrite list_lookup_insert_ne in Hj by done. by eapply Hothers.
  - (* line 38: the consumer announces the pair it removed *)
    destruct R as [|[x y] R]; simpl in Hme; [done|]. simplify_eq.
    exists R. simpl.
    rewrite produced_pairs_snoc, consumed_pairs_snoc, app_nil_r.
    split; [by rewrite HR, <- app_assoc|]. split; [done|].
    split; [by intros; exfalso; lia|].
    intros j u Hj. destruct (decide (i = j)) as [<-|Hne].
    + rewrite list_lookup_insert_eq in Hj by done. by injection Hj as <-.
    + rewrite list_lookup_insert_ne in Hj by done. by eapply Hothers.
Qed.

Lemma inv_step (s s' : state) (i : nat) :
  inv s → step s i = Some s' → inv s'.
Proof.
  intros (Hc & Hs & Hf) Hstep. split; [|split].
  - by eapply counts_step.
  - by eapply sound_step.
  - by eapply fifo_step.
Qed.

Lemma inv_run (sched : list nat) (s s' : state) :
  inv s → run s sched = Some s' → inv s'.
Proof.
  revert s. induction sched as [|i sched IH]; intros s Hinv Hrun.
  - by injection Hrun as <-.
  - simpl in Hrun. destruct (step s i) as [m|] eqn:Hs; [|done].
    eapply IH; [|exact Hrun]. by eapply inv_step.
Qed.

Lemma inv_start (np nc : nat) : inv (start np nc).
Proof.
  assert (Hz : ∀ w, (∀ pid, w (Producer pid P16_assign "" "") = 0) →
                    (∀ cid, w (Consumer cid C32_acquire "" "") = 0) →
                    total w (threads (start np nc)) = 0).
  { intros w Hp Hc. simpl. rewrite total_app.
    rewrite !total_fmap_zero by done. done. }
  split; [|split].
  - unfold counts. rewrite !Hz by done. by simpl.
  - simpl. apply Forall_app. split; apply Forall_fmap, Forall_forall.
    + intros pid _. by left.
    + by intros cid _.
  - exists []. simpl. split; [done|]. split; [done|]. split; [done|].
    intros i t Hi. apply cs_shape_outside.
    pose proof (total_ge in_cs _ _ _ Hi) as Hle.
    specialize (Hz in_cs (λ _, eq_refl) (λ _, eq_refl)). simpl in *. lia.
Qed.

Lemma reachable_inv (np nc : nat) (sched : list nat) (s : state) :
  run (start np nc) sched = Some s → inv s.
Proof. apply inv_run, inv_start. Qed.

(** C5: in every state that the producers and consumers can reach, under
    any interleaving, the buffer holds at most [BUFFER_SIZE] = 100
    elements; and a statement that changes the buffer is executed by a
    thread that is between [lock.acquire()] and [lock.release()], with the
    lock's value at 0 and no other thread in that region. *)
Theorem buffer_capacity_invariant (np nc : nat) (sched : list nat) (s : state) :
  run (start np nc) sched = Some s →
  0 ≤ length (buffer s) ≤ BUFFER_SIZE
  ∧ length (buffer s) ≤ 100
  ∧ ∀ i s', step s i = Some s' → buffer s' ≠ buffer s →
      lock s = 0
      ∧ (∃ t, threads s !! i = Some t ∧ in_cs t = 1)
      ∧ ∀ j u, j ≠ i → threads s !! j = Some u → in_cs u = 0.
Proof.
  intros Hrun. destruct (reachable_inv _ _ _ _ Hrun) as ((A & B & L) & _ & _).
  split; [lia|]. split; [unfold BUFFER_SIZE in A; lia|].
  intros i s' Hs Hbuf. unfold step in Hs.
  destruct (threads s !! i) as [t|] eqn:Hi; [|done].
  assert (in_cs t = 1) as Hin.
  { destruct s as [buf sp fu lk ts lg]. simpl in *.
    destruct t as [pid p P1 P2|cid p P1 P2]; destruct p; simpl in Hs;
      repeat case_match; simplify_eq; simpl in *; done. }
  pose proof (total_ge in_cs _ _ _ Hi). split; [lia|]. split; [by eauto|].
  intros j u Hne Hj.
  pose proof (total_two in_cs _ i j t u (not_eq_sym Hne) Hi Hj). lia.
Qed.

Lemma buffer_capacity_invariant_witness :
  ∃ s s', run program [0; 0; 0; 0; 0] = Some s
          ∧ step s 0 = Some s'
          ∧ buffer s = ["P0-A"] ∧ buffer s' = ["P0-A"; "P0-B"]
          ∧ length (buffer s') ≤ 100
          ∧ lock s = 0.
Proof.
  destruct (run program [0; 0; 0; 0; 0]) as [s|] eqn:Hs;
    [|vm_compute in Hs; discriminate Hs].
  destruct (step s 0) as [s'|] eqn:Hs';
    [|vm_compute in Hs; injection Hs as <-; vm_compute in Hs'; discriminate Hs'].
  pose proof (buffer_capacity_invariant 3 1 _ _ Hs) as (_ & _ & Hlock).
  pose proof (buffer_capacity_invariant 3 1 ([0; 0; 0; 0; 0] ++ [0]) s')
    as (_ & Hlen & _).
  { rewrite buffer_run_app. change (start 3 1) with program. rewrite Hs. simpl.
    by rewrite Hs'. }
  exists s, s'. split; [done|]. split; [done|].
  assert (buffer s = ["P0-A"] ∧ buffer s' = ["P0-A"; "P0-B"]) as [E1 E2].
  { vm_compute in Hs. injection Hs as <-. vm_compute in Hs'.
    injection Hs' as <-. by split. }
  split; [done|]. split; [done|]. split; [done|].
  apply (Hlock 0 s' Hs'). rewrite E1, E2. discriminate.
Defined.

(** C9: in every reachable state a consumer about to execute its first
    [pop] finds at least two elements in the buffer and one about to
    execute its second [pop] finds at least one, so no consumer is ever in
    the [IndexError] state.  Were a [pop] executed on an empty buffer (in a
    state that cannot be reached), the consumer would go to that state at
    once and never take another step: it prints nothing and changes no
    semaphore and no element. *)
Theorem pop_never_short_of_elements (np nc : nat) (sched : list nat)
    (s : state) :
  run (start np nc) sched = Some s →
  (∀ i cid P1 P2,
     threads s !! i = Some (Consumer cid C36_pop P1 P2) →
     2 ≤ length (buffer s))
  ∧ (∀ i cid P1 P2,
       threads s !! i = Some (Consumer cid C37_pop P1 P2) →
       1 ≤ length (buffer s))
  ∧ (∀ i cid P1 P2, threads s !! i ≠ Some (Consumer cid C_IndexError P1 P2))
  ∧ (∀ bad i cid p P1 P2,
       p = C36_pop ∨ p = C37_pop →
       threads bad !! i = Some (Consumer cid p P1 P2) →
       buffer bad = [] →
       ∃ bad', step bad i = Some bad'
               ∧ threads bad' !! i = Some (Consumer cid C_IndexError P1 P2)
               ∧ step bad' i = None
               ∧ buffer bad' = [] ∧ log bad' = log bad
               ∧ space bad' = space bad ∧ full bad' = full bad
               ∧ lock bad' = lock bad).
Proof.
  intros Hrun.
  destruct (reachable_inv _ _ _ _ Hrun) as ((A & B & L) & Hsound & _).
  split; [|split; [|split]].
  - intros i cid P1 P2 Hi. pose proof (total_ge full_held _ _ _ Hi). simpl in *.
    lia.
  - intros i cid P1 P2 Hi. pose proof (total_ge full_held _ _ _ Hi). simpl in *.
    lia.
  - intros i cid P1 P2 Hi. by pose proof (Forall_lookup_1 _ _ _ _ Hsound Hi).
  - intros bad i cid p P1 P2 Hp Hi Hbuf.
    assert (Hlt : i < length (threads bad)) by (by eapply lookup_lt_Some).
    unfold step. rewrite Hi.
    destruct Hp as [-> | ->]; simpl; rewrite Hbuf; eexists;
      (split; [reflexivity|]); simpl;
      rewrite list_lookup_insert_eq by done; by repeat split.
Qed.

Lemma pop_never_short_of_elements_witness :
  (∃ s, run program [0; 0; 0; 0; 0; 0; 0; 0; 0; 0; 3; 3; 3] = Some s
        ∧ threads s !! 3 = Some (Consumer 0 C36_pop "" "")
        ∧ 2 ≤ length (buffer s))
  ∧ (∃ bad', step (State [] 100 0 0 [Consumer 0 C36_pop "" ""] []) 0 = Some bad'
             ∧ threads bad' !! 0 = Some (Consumer 0 C_IndexError "" "")
             ∧ step bad' 0 = None).
Proof.
  split.
  - destruct (run program [0; 0; 0; 0; 0; 0; 0; 0; 0; 0; 3; 3; 3])
      as [s|] eqn:Hs; [|vm_compute in Hs; discriminate Hs].
    pose proof (pop_never_short_of_elements 3 1 _ _ Hs) as (H36 & _).
    assert (Hi : threads s !! 3 = Some (Consumer 0 C36_pop "" "")).
    { vm_compute in Hs. by injection Hs as <-. }
    exists s. split; [done|]. split; [done|]. exact (H36 3 0 "" "" Hi).
  - destruct (pop_never_short_of_elements 3 1 [] program eq_refl)
      as (_ & _ & _ & Hbad).
    destruct (Hbad (State [] 100 0 0 [Consumer 0 C36_pop "" ""] []) 0 0
                C36_pop "" "" (or_introl eq_refl) eq_refl eq_refl)
      as (bad' & S1 & T1 & S2 & _).
    by exists bad'.
Defined.

Lemma prefix_of_app_r {A} (l k : list A) : l `prefix_of` l ++ k.
Proof. by exists k. Qed.

(** C6: in every reachable state,
    - a producer at line 17, and likewise one at line 18, is parked when
      [space] is 0 and otherwise takes exactly one permit and moves to the
      next line: the two units are two separate acquisitions;
    - a producer that holds both permits (lines 20-21) has two free cells
      in front of it;
    - a producer that has executed both [append]s (line 23) is inside the
      lock and its pair is the last two elements of the buffer, in order;
    - a consumer that holds both [full] permits (lines 35-36) has two
      elements in front of it;
    - a consumer that has executed both [pop]s (line 38) holds in [P1], [P2]
      the oldest pair that was announced and not yet consumed;
    - the pairs printed by consumers are, in order, an initial part of the
      pairs printed by producers, and every one of them is the pair
      [item_A pid], [item_B pid] of some producer. *)
Theorem pair_buffer_contract (np nc : nat) (sched : list nat) (s : state) :
  run (start np nc) sched = Some s →
  (∀ i pid P1 P2,
     threads s !! i = Some (Producer pid P17_acquire P1 P2) →
     (space s = 0 → step s i = None)
     ∧ (∀ n, space s = S n →
        ∃ s', step s i = Some s' ∧ space s' = n ∧ buffer s' = buffer s
              ∧ threads s' !! i = Some (Producer pid P18_acquire P1 P2)))
  ∧ (∀ i pid P1 P2,
       threads s !! i = Some (Producer pid P18_acquire P1 P2) →
       (space s = 0 → step s i = None)
       ∧ (∀ n, space s = S n →
          ∃ s', step s i = Some s' ∧ space s' = n ∧ buffer s' = buffer s
                ∧ threads s' !! i = Some (Producer pid P20_lock P1 P2)))
  ∧ (∀ i pid p P1 P2,
       threads s !! i = Some (Producer pid p P1 P2) →
       p = P20_lock ∨ p = P21_append →
       length (buffer s) + 2 ≤ BUFFER_SIZE)
  ∧ (∀ i pid P1 P2,
       threads s !! i = Some (Producer pid P23_print P1 P2) →
       lock s = 0 ∧ ∃ l, buffer s = l ++ [item_A pid; item_B pid])
  ∧ (∀ i cid p P1 P2,
       threads s !! i = Some (Consumer cid p P1 P2) →
       p = C35_lock ∨ p = C36_pop →
       2 ≤ length (buffer s))
  ∧ (∀ i cid P1 P2,
       threads s !! i = Some (Consumer cid C38_print P1 P2) →
       produced_pairs (log s) !! length (consumed_pairs (log s)) = Some (P1, P2))
  ∧ consumed_pairs (log s) `prefix_of` produced_pairs (log s)
  ∧ (∀ x y, (x, y) ∈ consumed_pairs (log s) →
            ∃ pid, x = item_A pid ∧ y = item_B pid).
Proof.
  intros Hrun.
  destruct (reachable_inv _ _ _ _ Hrun)
    as ((A & B & L) & Hsound & (R & HR & Hpairs & Hfree & Hshape)).
  split; [|split; [|split; [|split; [|split; [|split; [|split]]]]]].
  - intros i pid P1 P2 Hi.
    assert (Hlt : i < length (threads s)) by (by eapply lookup_lt_Some).
    unfold step. rewrite Hi. simpl. split.
    + intros H0. by rewrite H0.
    + intros n Hn. rewrite Hn. eexists. split; [reflexivity|]. simpl.
      rewrite list_lookup_insert_eq by done. by repeat split.
  - intros i pid P1 P2 Hi.
    assert (Hlt : i < length (threads s)) by (by eapply lookup_lt_Some).
    unfold step. rewrite Hi. simpl. split.
    + intros H0. by rewrite H0.
    + intros n Hn. rewrite Hn. eexists. split; [reflexivity|]. simpl.
      rewrite list_lookup_insert_eq by done. by repeat split.
  - intros i pid p P1 P2 Hi Hp.
    pose proof (total_ge space_held _ _ _ Hi).
    destruct Hp as [-> | ->]; simpl in *; lia.
  - intros i pid P1 P2 Hi.
    pose proof (total_ge in_cs _ _ _ Hi). split; [simpl in *; lia|].
    pose proof (Hshape _ _ Hi) as Hme.
    pose proof (Forall_lookup_1 _ _ _ _ Hsound Hi) as [|[-> ->]]; [done|].
    by exists (flat R).
  - intros i cid p P1 P2 Hi Hp.
    pose proof (total_ge full_held _ _ _ Hi).
    destruct Hp as [-> | ->]; simpl in *; lia.
  - intros i cid P1 P2 Hi. pose proof (Hshape _ _ Hi) as Hme. simpl in Hme.
    destruct R as [|[x y] R]; simpl in Hme; [done|]. simplify_eq.
    rewrite HR. by apply list_lookup_middle.
  - rewrite HR. apply prefix_of_app_r.
  - intros x y Hin. rewrite Forall_forall in Hpairs.
    apply (Hpairs (x, y)). rewrite HR. apply elem_of_app. by left.
Qed.

Lemma pair_buffer_contract_witness :
  (∃ s, run program [0; 0; 1; 1] = Some s
        ∧ space s = 98
        ∧ threads s !! 0 = Some (Producer 0 P18_acquire "P0-A" "P0-B")
        ∧ threads s !! 1 = Some (Producer 1 P18_acquire "P1-A" "P1-B")
        ∧ ∃ s', step s 0 = Some s' ∧ space s' = 97)
  ∧ (∃ s,
       run program
         (replicate 10 1 ++ replicate 10 0 ++ replicate 6 3) = Some s
       ∧ produced_pairs (log s) = [("P1-A", "P1-B"); ("P0-A", "P0-B")]
       ∧ consumed_pairs (log s) = [("P1-A", "P1-B")]
       ∧ consumed_pairs (log s) `prefix_of` produced_pairs (log s)).
Proof.
  split.
  - destruct (run program [0; 0; 1; 1]) as [s|] eqn:Hs;
      [|vm_compute in Hs; discriminate Hs].
    destruct (pair_buffer_contract 3 1 _ _ Hs) as (_ & Hacq & _).
    assert (space s = 98
            ∧ threads s !! 0 = Some (Producer 0 P18_acquire "P0-A" "P0-B")
            ∧ threads s !! 1 = Some (Producer 1 P18_acquire "P1-A" "P1-B"))
      as (E1 & E2 & E3).
    { vm_compute in Hs. by injection Hs as <-. }
    exists s. split; [done|]. split; [done|]. split; [done|]. split; [done|].
    destruct (Hacq 0 0 "P0-A" "P0-B" E2) as [_ Hgo].
    destruct (Hgo 97 E1) as (s' & S1 & S2 & _). by exists s'.
  - destruct (run program (replicate 10 1 ++ replicate 10 0 ++ replicate 6 3))
      as [s|] eqn:Hs; [|vm_compute in Hs; discriminate Hs].
    destruct (pair_buffer_contract 3 1 _ _ Hs)
      as (_ & _ & _ & _ & _ & _ & Hpre & _).
    exists s. split; [done|].
    assert (produced_pairs (log s) = [("P1-A", "P1-B"); ("P0-A", "P0-B")]
            ∧ consumed_pairs (log s) = [("P1-A", "P1-B")]) as [E1 E2].
    { vm_compute in Hs. by injection Hs as <-. }
    by repeat split.
Defined.

End Problem1Facts.

(** * Properties of the relay ([Problem2.py]) *)

Module Problem2Facts.
Import Problem2.
Local Open Scope list_scope.
Local Open Scope nat_scope.

Lemma relay_run_app (s : state) (l1 l2 : list tid) :
  run s (l1 ++ l2) = run s l1 ≫= λ s', run s' l2.
Proof.
  revert s. induction l1 as [|t l1 IH]; intros s; simpl; [done|].
  destruct (step s t); simpl; [apply IH | done].
Qed.

Lemma relay_run_snoc (s s' : state) (l : list tid) (t : tid) :
  run s (l ++ [t]) = Some s' → ∃ m, run s l = Some m ∧ step m t = Some s'.
Proof.
  rewrite relay_run_app. destruct (run s l) as [m|]; simpl; [|done].
  destruct (step m t) eqn:E; [|done]. intros [= <-]. eauto.
Qed.

(** The first round, run from the initial state, prints HELLO and leaves
    every semaphore at 0. *)
Lemma first_round_result :
  run init first_round
  = Some (State 0 0 0 P1_acquire_a P2_acquire_b P3_acquire_c
            ["H"; "E"; "L"; "L"; "O"]).
Proof. reflexivity. Qed.

(** From a state on the first round only the thread that the round names
    next can move. *)
Lemma step_on_first_round (k : nat) (s s' : state) (t : tid) :
  k ≤ 10 →
  run init (take k first_round) = Some s →
  step s t = Some s' →
  first_round !! k = Some t.
Proof.
  intros Hk Hrun Hstep.
  do 11 (destruct k as [|k];
         [vm_compute in Hrun; injection Hrun as <-;
          destruct t; vm_compute in Hstep; try discriminate Hstep; reflexivity|]).
  lia.
Qed.

(** Every schedule that the program can follow is an initial part of the
    first round. *)
Lemma schedules_are_prefixes (sched : list tid) (s : state) :
  run init sched = Some s →
  sched = take (length sched) first_round ∧ length sched ≤ 10.
Proof.
  revert s. induction sched as [|t sched IH] using rev_ind; intros s Hrun.
  - split; [done | simpl; lia].
  - apply relay_run_snoc in Hrun as (m & Hm & Hstep).
    destruct (IH m Hm) as [Hpre Hlen].
    assert (Hk : first_round !! length sched = Some t).
    { eapply step_on_first_round; [exact Hlen| |exact Hstep].
      rewrite <- Hpre. exact Hm. }
    rewrite length_app. simpl. rewrite Nat.add_1_r. split.
    + rewrite (take_S_r _ _ _ Hk). by rewrite <- Hpre.
    + apply lookup_lt_Some in Hk. change (length first_round) with 10 in Hk. lia.
Qed.

(** C1 (evaluated on the code): from the initial state the only schedules
    are the initial parts of the first round H E L L O; nothing is printed
    after it, and once its ten statements have run no thread can take a
    step: [process3] has released no permit, so [process1] waits on [a]
    for ever and a second round never starts. *)
Theorem relay_stops_after_first_round (sched : list tid) (s : state) :
  run init sched = Some s →
  length sched ≤ 10
  ∧ sched = take (length sched) first_round
  ∧ stdout s `prefix_of` ["H"; "E"; "L"; "L"; "O"]
  ∧ (length sched = 10 →
     stdout s = ["H"; "E"; "L"; "L"; "O"] ∧ a s = 0 ∧ ∀ t, step s t = None).
Proof.
  intros Hrun. destruct (schedules_are_prefixes _ _ Hrun) as [Hpre Hlen].
  split; [exact Hlen|]. split; [exact Hpre|].
  rewrite Hpre in Hrun. clear Hpre. revert Hrun Hlen.
  generalize (length sched) as k. intros k Hrun Hlen.
  do 11 (destruct k as [|k];
         [vm_compute in Hrun; injection Hrun as <-; split;
          [ simpl;
            first [ by eexists | by apply prefix_nil ]
          | intros [=]; try (split; [reflexivity|split; [reflexivity|]];
                             intros []; reflexivity) ]|]).
  lia.
Qed.

Lemma relay_stops_after_first_round_witness :
  let s := State 0 0 0 P1_acquire_a P2_acquire_b P3_acquire_c
             ["H"; "E"; "L"; "L"; "O"] in
  run init first_round = Some s
  ∧ stdout s = ["H"; "E"; "L"; "L"; "O"] ∧ a s = 0 ∧ ∀ t, step s t = None.
Proof.
  intros s. split; [vm_compute; reflexivity|].
  refine (proj2 (proj2 (proj2
    (relay_stops_after_first_round first_round s _))) _);
    vm_compute; reflexivity.
Defined.

(** C8: [a] starts at 1 and [b], [c] at 0; and from any state in which a
    process stands at its [acquire] with a permit available, one pass of
    its loop body prints exactly H, E for [process1], exactly L, L for
    [process2] and exactly O for [process3], and brings the process back to
    its [acquire]. *)
Theorem relay_permits_and_emissions (s : state) :
  (a init = 1 ∧ b init = 0 ∧ c init = 0)
  ∧ (at1 s = P1_acquire_a → a s ≠ 0 →
     ∃ s', run s cycle1 = Some s' ∧ stdout s' = stdout s ++ ["H"; "E"]
           ∧ at1 s' = P1_acquire_a)
  ∧ (at2 s = P2_acquire_b → b s ≠ 0 →
     ∃ s', run s cycle2 = Some s' ∧ stdout s' = stdout s ++ ["L"; "L"]
           ∧ at2 s' = P2_acquire_b)
  ∧ (at3 s = P3_acquire_c → c s ≠ 0 →
     ∃ s', run s cycle3 = Some s' ∧ stdout s' = stdout s ++ ["O"]
           ∧ at3 s' = P3_acquire_c).
Proof.
  destruct s as [va vb vc p1 p2 p3 out]. simpl.
  split; [done|]. split; [|split].
  - intros -> Ha. destruct va as [|n]; [done|].
    eexists. split; [reflexivity|]. simpl. unfold print.
    by rewrite <- app_assoc.
  - intros -> Hb. destruct vb as [|n]; [done|].
    eexists. split; [reflexivity|]. simpl. unfold print.
    by rewrite <- app_assoc.
  - intros -> Hc. destruct vc as [|n]; [done|].
    eexists. split; [reflexivity|]. done.
Qed.

Lemma relay_permits_and_emissions_witness :
  (∃ s', run init cycle1 = Some s' ∧ stdout s' = ["H"; "E"]
         ∧ at1 s' = P1_acquire_a)
  ∧ (∃ s', run (State 0 1 0 P1_acquire_a P2_acquire_b P3_acquire_c ["H"; "E"])
               cycle2 = Some s'
           ∧ stdout s' = ["H"; "E"; "L"; "L"] ∧ at2 s' = P2_acquire_b)
  ∧ (∃ s', run (State 0 0 1 P1_acquire_a P2_acquire_b P3_acquire_c
                  ["H"; "E"; "L"; "L"]) cycle3 = Some s'
           ∧ stdout s' = ["H"; "E"; "L"; "L"; "O"] ∧ at3 s' = P3_acquire_c).
Proof.
  split; [|split].
  - apply (proj1 (proj2 (relay_permits_and_emissions init)));
      [reflexivity | simpl; lia].
  - apply (proj1 (proj2 (proj2 (relay_permits_and_emissions
             (State 0 1 0 P1_acquire_a P2_acquire_b P3_acquire_c ["H"; "E"])))));
      [reflexivity | simpl; lia].
  - apply (proj2 (proj2 (proj2 (relay_permits_and_emissions
             (State 0 0 1 P1_acquire_a P2_acquire_b P3_acquire_c
                ["H"; "E"; "L"; "L"])))));
      [reflexivity | simpl; lia].
Defined.

End Problem2Facts.

(** * Properties of the transfers ([deadlock_simlation.py]) *)

Module DeadlockSimulationFacts.
Import DeadlockSimulation.
Local Open Scope list_scope.
Local Open Scope nat_scope.

Lemma transfers_run_app (s : state) (l1 l2 : list nat) :
  run s (l1 ++ l2) = run s l1 ≫= λ s', run s' l2.
Proof.
  revert s. induction l1 as [|t l1 IH]; intros s; simpl; [done|].
  destruct (step s t); simpl; [apply IH | done].
Qed.

(** **** Two ordered transfers: every interleaving of [main_ordered] *)

Lemma ordered_state_step (p1 p2 : ordered_pc) (tr : list event) (i : nat)
    (s' : state) :
  consistent p1 p2 = true →
  step (state_at p1 p2 tr) i = Some s' →
  ∃ q1 q2 tr', s' = state_at q1 q2 tr' ∧ consistent q1 q2 = true
               ∧ S (left q1 + left q2) = left p1 + left p2.
Proof.
  intros Hc Hs. destruct i as [|[|i]].
  - exists (next p1), p2.
    destruct p1, p2; try discriminate Hc; vm_compute in Hs; try discriminate Hs;
      injection Hs as <-; eexists; (split; [reflexivity|]); split; reflexivity.
  - exists p1, (next p2).
    destruct p1, p2; try discriminate Hc; vm_compute in Hs; try discriminate Hs;
      injection Hs as <-; eexists; (split; [reflexivity|]); split; reflexivity.
  - discriminate Hs.
Qed.

Lemma ordered_state_run (sched : list nat) (p1 p2 : ordered_pc)
    (tr : list event) (s' : state) :
  consistent p1 p2 = true →
  run (state_at p1 p2 tr) sched = Some s' →
  ∃ q1 q2 tr', s' = state_at q1 q2 tr' ∧ consistent q1 q2 = true
               ∧ length sched + (left q1 + left q2) = left p1 + left p2.
Proof.
  revert p1 p2 tr. induction sched as [|i sched IH]; intros p1 p2 tr Hc Hrun.
  - injection Hrun as <-. by exists p1, p2, tr.
  - simpl in Hrun. destruct (step (state_at p1 p2 tr) i) as [m|] eqn:Hs; [|done].
    destruct (ordered_state_step _ _ _ _ _ Hc Hs) as (m1 & m2 & tr1 & -> & Hc1 & Hm).
    destruct (IH _ _ _ Hc1 Hrun) as (q1 & q2 & tr' & -> & Hc' & Hl).
    exists q1, q2, tr'. simpl. repeat split; [done|lia].
Qed.

(** A consistent state in which no thread can move is the final one. *)
Lemma ordered_state_stuck (p1 p2 : ordered_pc) (tr : list event) :
  consistent p1 p2 = true →
  (∀ i, step (state_at p1 p2 tr) i = None) →
  p1 = O_return ∧ p2 = O_return.
Proof.
  intros Hc Hstuck. pose proof (Hstuck 0) as H0. pose proof (Hstuck 1) as H1.
  destruct p1, p2; try discriminate Hc;
    first [ by split | vm_compute in H0; discriminate H0
          | vm_compute in H1; discriminate H1 ].
Qed.

Lemma main_ordered_start :
  main_ordered fresh_accounts = state_at O74_from_id O74_from_id [].
Proof. reflexivity. Qed.

(** C2: [main_ordered] on the two accounts as created, both at 1000.
    Whatever the interleaving of the two ordered transfers, at most 40
    statements run in all; a state in which no thread can move has both
    calls returned, after exactly 40 statements, with Account1 at 950 and
    Account2 at 1050; and as long as a call has not returned some thread
    can take a step. *)
Theorem ordered_transfers_complete (sched : list nat) (s : state) :
  run (main_ordered fresh_accounts) sched = Some s →
  length sched ≤ 40
  ∧ ((∀ i, step s i = None) →
     length sched = 40
     ∧ (∀ t, t ∈ threads s → returned t = true)
     ∧ deadlock_reported s = false
     ∧ balance_of (accounts s) account1 = Some 950%Z
     ∧ balance_of (accounts s) account2 = Some 1050%Z)
  ∧ (length sched < 40 → ∃ i s', step s i = Some s').
Proof.
  rewrite main_ordered_start. intros Hrun.
  destruct (ordered_state_run _ O74_from_id O74_from_id _ _ eq_refl Hrun)
    as (q1 & q2 & tr' & -> & Hc & Hl).
  simpl in Hl. split; [lia|]. split.
  - intros Hstuck. destruct (ordered_state_stuck _ _ _ Hc Hstuck) as [-> ->].
    simpl in Hl. split; [lia|]. split; [|by repeat split].
    intros t Ht. simpl in Ht.
    apply elem_of_cons in Ht as [->|Ht]; [done|].
    apply elem_of_cons in Ht as [->|Ht]; [done|].
    by apply elem_of_nil in Ht.
  - intros Hlt.
    destruct (step (state_at q1 q2 tr') 0) as [m|] eqn:H0; [by eauto|].
    destruct (step (state_at q1 q2 tr') 1) as [m|] eqn:H1; [by eauto|].
    assert (q1 = O_return ∧ q2 = O_return) as [-> ->].
    { apply (ordered_state_stuck _ _ tr' Hc). intros [|[|i]]; done. }
    simpl in Hl. lia.
Qed.

(** The two calls one after the other, in either order, are two of these
    interleavings. *)
Lemma ordered_transfers_complete_witness :
  ∃ s1 s2,
    run (main_ordered fresh_accounts) (replicate 20 0 ++ replicate 20 1) = Some s1
    ∧ run (main_ordered fresh_accounts) (replicate 20 1 ++ replicate 20 0) = Some s2
    ∧ balance_of (accounts s1) account1 = Some 950%Z
    ∧ balance_of (accounts s1) account2 = Some 1050%Z
    ∧ balance_of (accounts s2) account1 = Some 950%Z
    ∧ balance_of (accounts s2) account2 = Some 1050%Z.
Proof.
  destruct (run (main_ordered fresh_accounts) (replicate 20 0 ++ replicate 20 1))
    as [s1|] eqn:H1; [|vm_compute in H1; discriminate H1].
  destruct (run (main_ordered fresh_accounts) (replicate 20 1 ++ replicate 20 0))
    as [s2|] eqn:H2; [|vm_compute in H2; discriminate H2].
  exists s1, s2. split; [reflexivity|]. split; [reflexivity|].
  pose proof (ordered_transfers_complete _ _ H1) as (_ & F1 & _).
  pose proof (ordered_transfers_complete _ _ H2) as (_ & F2 & _).
  assert (S1 : ∀ i, step s1 i = None).
  { vm_compute in H1. injection H1 as <-. intros [|[|i]]; reflexivity. }
  assert (S2 : ∀ i, step s2 i = None).
  { vm_compute in H2. injection H2 as <-. intros [|[|i]]; reflexivity. }
  destruct (F1 S1) as (_ & _ & _ & A1 & B1).
  destruct (F2 S2) as (_ & _ & _ & A2 & B2).
  repeat split; assumption.
Defined.

(** **** Two unordered transfers in opposite directions *)

Section Opposite.
Context (h : heap) (X Y : nat) (ax ay : Account).
Context (a1 a2 : Z) (n1 n2 : string).
Hypothesis HX : h !! X = Some ax.
Hypothesis HY : h !! Y = Some ay.
Hypothesis LX : lock ax = 0.
Hypothesis LY : lock ay = 0.

Local Abbreviation opposite := (opposite h X Y a1 a2 n1 n2).

Lemma opposite_step (p1 p2 : transfer_pc) (tr : list event) (i : nat)
    (s' : state) :
  holds_first p1 = true → holds_first p2 = true →
  step (opposite p1 p2 tr) i = Some s' →
  ∃ q1 q2 tr', s' = opposite q1 q2 tr'
               ∧ holds_first q1 = true ∧ holds_first q2 = true
               ∧ S (before_second q1 + before_second q2)
                 = before_second p1 + before_second p2.
Proof.
  intros H1 H2 Hs. unfold step, opposite in Hs.
  destruct i as [|[|i]]; simpl in Hs; [| |done].
  - unfold transfer, acquire in Hs. simpl in Hs. rewrite HX, HY in Hs.
    simpl in Hs. rewrite ?LX, ?LY in Hs.
    destruct p1; try discriminate H1; simpl in Hs; try discriminate Hs;
      injection Hs as <-; eexists _, p2, _; (split; [reflexivity|]);
      repeat split; done.
  - unfold transfer, acquire in Hs. simpl in Hs. rewrite HX, HY in Hs.
    simpl in Hs. rewrite ?LX, ?LY in Hs.
    destruct p2; try discriminate H2; simpl in Hs; try discriminate Hs;
      injection Hs as <-; eexists p1, _, _; (split; [reflexivity|]);
      repeat split; try done; simpl; lia.
Qed.

Lemma opposite_run (sched : list nat) (p1 p2 : transfer_pc) (tr : list event)
    (s' : state) :
  holds_first p1 = true → holds_first p2 = true →
  run (opposite p1 p2 tr) sched = Some s' →
  ∃ q1 q2 tr', s' = opposite q1 q2 tr'
               ∧ holds_first q1 = true ∧ holds_first q2 = true
               ∧ length sched + (before_second q1 + before_second q2)
                 = before_second p1 + before_second p2.
Proof.
  revert p1 p2 tr. induction sched as [|i sched IH]; intros p1 p2 tr H1 H2 Hrun.
  - injection Hrun as <-. by exists p1, p2, tr.
  - simpl in Hrun. destruct (step (opposite p1 p2 tr) i) as [m|] eqn:Hs; [|done].
    destruct (opposite_step _ _ _ _ _ H1 H2 Hs)
      as (m1 & m2 & tr1 & -> & G1 & G2 & Hm).
    destruct (IH _ _ _ G1 G2 Hrun) as (q1 & q2 & tr' & -> & K1 & K2 & Hl).
    exists q1, q2, tr'. simpl. repeat split; [done..|lia].
Qed.

Lemma opposite_parked (p1 p2 : transfer_pc) (tr : list event) :
  holds_first p1 = true → holds_first p2 = true →
  (∀ i, step (opposite p1 p2 tr) i = None)
  ↔ p1 = T41_acquire_to ∧ p2 = T41_acquire_to.
Proof.
  intros H1 H2. split.
  - intros Hstuck. pose proof (Hstuck 0) as S0. pose proof (Hstuck 1) as S1.
    unfold step, opposite in S0, S1. simpl in S0, S1.
    unfold transfer in S0, S1. simpl in S0, S1.
    rewrite HX, HY in S0, S1. simpl in S0, S1.
    destruct p1; try discriminate H1; try discriminate S0;
      destruct p2; try discriminate H2; try discriminate S1; done.
  - intros [-> ->] [|[|i]]; unfold step, opposite; simpl; [| |done];
      unfold transfer, acquire; simpl; rewrite HX, HY; simpl;
      by rewrite ?LX, ?LY.
Qed.

End Opposite.

(** C7: two [transfer] calls in opposite directions over accounts [X] and
    [Y], each holding its source lock with its second [acquire] not yet
    done.  From there at most six statements run; the accounts never
    change; both threads stay in front of their second [acquire], alive
    and not returned, so the driver's test reports a deadlock; and the
    states without any possible step are those with both threads at that
    [acquire]. *)
Theorem unordered_transfers_deadlock (h : heap) (X Y : nat) (ax ay : Account)
    (a1 a2 : Z) (n1 n2 : string) (p1 p2 : transfer_pc) (tr : list event)
    (sched : list nat) (s : state) :
  h !! X = Some ax → h !! Y = Some ay → lock ax = 0 → lock ay = 0 →
  holds_first p1 = true → holds_first p2 = true →
  run (State h [Transfer p1 (Args X Y a1 n1); Transfer p2 (Args Y X a2 n2)] tr)
      sched = Some s →
  length sched ≤ 6
  ∧ accounts s = h
  ∧ (∃ q1 q2,
       threads s = [Transfer q1 (Args X Y a1 n1); Transfer q2 (Args Y X a2 n2)]
       ∧ holds_first q1 = true ∧ holds_first q2 = true
       ∧ ((∀ i, step s i = None)
          ↔ q1 = T41_acquire_to ∧ q2 = T41_acquire_to))
  ∧ (∀ t, t ∈ threads s → returned t = false ∧ is_alive t = true)
  ∧ deadlock_reported s = true.
Proof.
  intros HX HY LX LY H1 H2 Hrun.
  destruct (opposite_run h X Y ax ay a1 a2 n1 n2 HX HY LX LY _ _ _ _ _ H1 H2 Hrun)
    as (q1 & q2 & tr' & -> & K1 & K2 & Hl).
  split. { destruct p1, p2; try discriminate; simpl in Hl; lia. }
  split; [done|]. split.
  - exists q1, q2. split; [done|]. split; [done|]. split; [done|].
    by apply (opposite_parked h X Y ax ay a1 a2 n1 n2 HX HY LX LY).
  - split.
    + intros t Ht. simpl in Ht.
      apply elem_of_cons in Ht as [->|Ht]; [by destruct q1|].
      apply elem_of_cons in Ht as [->|Ht]; [by destruct q2|].
      by apply elem_of_nil in Ht.
    + simpl. by destruct q1.
Qed.

(** The threads of [main] reach such a state when each has taken its
    first lock, and are then parked after six more statements. *)
Lemma unordered_transfers_deadlock_witness :
  ∃ m s,
    run (main fresh_accounts) [0; 0; 1; 1] = Some m
    ∧ run m [0; 0; 0; 1; 1; 1] = Some s
    ∧ (∀ i, step s i = None)
    ∧ deadlock_reported s = true
    ∧ accounts s = accounts m.
Proof.
  destruct (run (main fresh_accounts) [0; 0; 1; 1]) as [m|] eqn:Hm;
    [|vm_compute in Hm; discriminate Hm].
  vm_compute in Hm. injection Hm as <-.
  match goal with |- ∃ m s, Some ?m0 = _ ∧ _ =>
    destruct (run m0 [0; 0; 0; 1; 1; 1]) as [s|] eqn:Hs;
      [|vm_compute in Hs; discriminate Hs]
  end.
  eexists _, s. split; [reflexivity|]. split; [exact Hs|].
  pose proof (unordered_transfers_deadlock
                [mkAccount "Account1" 1000 0; mkAccount "Account2" 1000 0]
                0 1 (mkAccount "Account1" 1000 0) (mkAccount "Account2" 1000 0)
                100 50 "Thread-1" "Thread-2" T31_print T31_print _ _ _
                eq_refl eq_refl eq_refl eq_refl eq_refl eq_refl Hs)
    as (_ & Ha & (q1 & q2 & Ht & _ & _ & Hp) & _ & Hd).
  split; [|split; [exact Hd | exact Ha]].
  apply Hp. vm_compute in Hs. injection Hs as <-.
  simpl in Ht. by injection Ht as <- <-.
Defined.

(** **** One call on its own *)

Lemma thread_run_step fuel me (h : heap) tr t h' tr' t' :
  thread_step me h tr t = Some (h', tr', t') →
  thread_run (S fuel) me h tr t = thread_run fuel me h' tr' t'.
Proof. intros H. simpl. by rewrite H. Qed.

Lemma thread_run_stop fuel me (h : heap) tr t :
  thread_step me h tr t = None → thread_run fuel me h tr t = (h, tr, t).
Proof. intros H. destruct fuel; simpl; [done|]. by rewrite H. Qed.

Lemma lookup_update_eq (h : heap) r x y :
  h !! r = Some x → <[r := y]> h !! r = Some y.
Proof. intros H. apply list_lookup_insert_eq. by eapply lookup_lt_Some. Qed.

(** Reads an account out of a store built by successive updates. *)
Ltac find_lookup :=
  first [ eassumption
        | eapply lookup_update_eq; find_lookup
        | rewrite list_lookup_insert_ne by congruence; find_lookup ].

Ltac resolve_lookups :=
  repeat match goal with
  | |- context [?l !! ?r] =>
      let H := fresh "L" in
      eassert (H : l !! r = Some _) by find_lookup;
      rewrite H; clear H; simpl
  end.

Ltac use_tests :=
  repeat match goal with
         | H : (_ >=? _)%Z = _ |- _ => rewrite H
         | H : (_ <? _)%Z = _ |- _ => rewrite H
         | H : numeric_id _ = _ |- _ => rewrite H
         end.

(** Executes the next statement of the call under [thread_run]. *)
Ltac one_step :=
  erewrite thread_run_step;
  [ | unfold thread_step, transfer, transfer_ordered, acquire, release; simpl;
      resolve_lookups; use_tests; reflexivity ].

Ltac last_step :=
  rewrite thread_run_stop;
  [ | unfold thread_step, transfer, transfer_ordered; simpl;
      resolve_lookups; reflexivity ].

Section Alone.
Context (me : nat) (h : heap) (tr : list event).
Context (X Y : nat) (amt : Z) (name : string).
Context (idx idy : string) (bx by_ : Z) (lx ly : nat).
Hypothesis HX : h !! X = Some (mkAccount idx bx (S lx)).
Hypothesis HY : h !! Y = Some (mkAccount idy by_ (S ly)).
Hypothesis Hne : X ≠ Y.

Lemma transfer_alone (ok : bool) :
  (bx >=? amt)%Z = ok →
  ∃ h',
    thread_run call_fuel me h tr (call_transfer X Y amt name)
    = (h',
       tr ++ [Prints me (Attempting_first name idx); Acquire me X;
              Prints me (Acquired name idx); Prints me (Attempting name idy);
              Acquire me Y; Prints me (Acquired name idy)]
          ++ (if ok
              then [Prints me (Transferred name amt idx idy);
                    Prints me (Balance_is idx (bx - amt));
                    Prints me (Balance_is idy (by_ + amt))]
              else [Prints me (Insufficient_funds name idx)])
          ++ [Release me Y; Prints me (Released name idy);
              Release me X; Prints me (Released name idx)],
       Transfer T_return (Args X Y amt name))
    ∧ h' !! X = Some (mkAccount idx (if ok then bx - amt else bx) (S lx))
    ∧ h' !! Y = Some (mkAccount idy (if ok then by_ + amt else by_) (S ly))
    ∧ ∀ r, r ≠ X → r ≠ Y → h' !! r = h !! r.
Proof.
  intros Hok. unfold call_fuel, call_transfer.
  destruct ok; repeat one_step; last_step;
    (eexists; split; [|split; [|split]];
     [ unfold emit; rewrite <- ?app_assoc; reflexivity
     | find_lookup | find_lookup
     | intros r H1 H2; by rewrite !list_lookup_insert_ne by congruence ]).
Qed.

Lemma transfer_ordered_alone (kx ky : Z) (lt ok : bool) :
  numeric_id idx = Some kx → numeric_id idy = Some ky →
  (kx <? ky)%Z = lt →
  (bx >=? amt)%Z = ok →
  let lo := if lt then X else Y in
  let hi := if lt then Y else X in
  let idlo := if lt then idx else idy in
  let idhi := if lt then idy else idx in
  ∃ h',
    thread_run call_fuel me h tr (call_transfer_ordered X Y amt name)
    = (h',
       tr ++ [Prints me (Attempting_min name idlo); Acquire me lo;
              Prints me (Waited name idlo); Prints me (Attempting_max name idhi);
              Acquire me hi; Prints me (Waited name idhi)]
          ++ (if ok
              then [Prints me (New_balance name idx (bx - amt));
                    Prints me (New_balance name idy (by_ + amt));
                    Prints me (Transferred name amt idx idy)]
              else [Prints me (Insufficient_funds name idx)])
          ++ [Release me hi; Prints me (Signalled name idhi);
              Release me lo; Prints me (Signalled name idlo)],
       TransferOrdered O_return (Args X Y amt name) (Locals kx ky lo hi))
    ∧ h' !! X = Some (mkAccount idx (if ok then bx - amt else bx) (S lx))
    ∧ h' !! Y = Some (mkAccount idy (if ok then by_ + amt else by_) (S ly))
    ∧ ∀ r, r ≠ X → r ≠ Y → h' !! r = h !! r.
Proof.
  intros Hkx Hky Hlt Hok. unfold call_fuel, call_transfer_ordered.
  destruct lt, ok; repeat one_step; last_step;
    (eexists; split; [|split; [|split]];
     [ unfold emit; rewrite <- ?app_assoc; reflexivity
     | find_lookup | find_lookup
     | intros r H1 H2; by rewrite !list_lookup_insert_ne by congruence ]).
Qed.

End Alone.

Lemma lock_ops_app (l1 l2 : list event) :
  lock_ops (l1 ++ l2) = lock_ops l1 ++ lock_ops l2.
Proof. apply List.filter_app. Qed.

(** C3: two distinct accounts whose identifiers carry the same number,
    "Account1" and "Account01".  Lines 74-75 give both the number 1, the
    test [from_id < to_id] of line 79 fails in either direction and each
    call takes the lock of its destination first: the call from the first
    to the second acquires "Account01" then "Account1", the call from the
    second to the first acquires "Account1" then "Account01" (each
    releases in reverse, leaves both locks at 1 and moves its amount).
    The two calls started together can therefore deadlock: after eight
    statements of each, every thread holds the lock of its destination
    and is parked at line 99 in front of the other, alive and not
    returned, no balance changed. *)
Theorem equal_numbers_defeat_lock_order :
  let h := [Account_init "Account1" 1000; Account_init "Account01" 1000] in
  let there := call_transfer_ordered 0 1 100 "Thread-1" in
  let back := call_transfer_ordered 1 0 50 "Thread-2" in
  numeric_id "Account1" = Some 1%Z ∧ numeric_id "Account01" = Some 1%Z
  ∧ is_ascii "Account1" = true ∧ is_ascii "Account01" = true
  ∧ (∃ tr1 t1,
       thread_run call_fuel 0 h [] there
       = ([mkAccount "Account1" 900 1; mkAccount "Account01" 1100 1], tr1, t1)
       ∧ returned t1 = true
       ∧ lock_ops tr1 = [Acquire 0 1; Acquire 0 0; Release 0 0; Release 0 1])
  ∧ (∃ tr2 t2,
       thread_run call_fuel 1 h [] back
       = ([mkAccount "Account1" 1050 1; mkAccount "Account01" 950 1], tr2, t2)
       ∧ returned t2 = true
       ∧ lock_ops tr2 = [Acquire 1 0; Acquire 1 1; Release 1 1; Release 1 0])
  ∧ ∃ s,
      run (State h [there; back] []) (replicate 8 0 ++ replicate 8 1) = Some s
      ∧ (∀ i, step s i = None)
      ∧ accounts s = [mkAccount "Account1" 1000 0; mkAccount "Account01" 1000 0]
      ∧ lock_ops (trace s) = [Acquire 0 1; Acquire 1 0]
      ∧ Forall (λ t, returned t = false ∧ is_alive t = true) (threads s).
Proof.
  intros h there back.
  split; [by vm_compute|]. split; [by vm_compute|].
  split; [reflexivity|]. split; [reflexivity|]. split; [|split].
  - eexists _, _. split; [vm_compute; reflexivity|]. by split.
  - eexists _, _. split; [vm_compute; reflexivity|]. by split.
  - destruct (run (State h [there; back] []) (replicate 8 0 ++ replicate 8 1))
      as [s|] eqn:Hs; [|vm_compute in Hs; discriminate Hs].
    exists s. split; [done|]. vm_compute in Hs. injection Hs as <-.
    split; [intros [|[|i]]; reflexivity|].
    split; [reflexivity|]. split; [reflexivity|]. by repeat constructor.
Qed.

(** When the numeric identifiers of two accounts are equal (here "Account1"
    and "Account01") the test [from_id < to_id] fails in both directions
    and each call takes the lock of its destination first. *)
Lemma equal_identifiers_follow_the_direction :
  let h := [Account_init "Account1" 1000; Account_init "Account01" 1000] in
  lock_ops (thread_run call_fuel 0 h [] (call_transfer_ordered 0 1 10 "T")).1.2
  = [Acquire 0 1; Acquire 0 0; Release 0 0; Release 0 1]
  ∧ lock_ops (thread_run call_fuel 0 h [] (call_transfer_ordered 1 0 10 "T")).1.2
    = [Acquire 0 0; Acquire 0 1; Release 0 1; Release 0 0].
Proof. split; vm_compute; reflexivity. Qed.

(** An identifier without a number makes [int] raise before any lock is
    taken. *)
Lemma identifier_without_number_raises :
  let h := [Account_init "Savings" 1000; Account_init "Account2" 1000] in
  thread_run call_fuel 0 h [] (call_transfer_ordered 0 1 10 "T")
  = (h, [], TransferOrdered O_ValueError (Args 0 1 10 "T") no_locals).
Proof. vm_compute. reflexivity. Qed.

(** [main_ordered] started on accounts whose locks are still held (value
    0), as the parked threads of [main] leave them: both ordered calls
    park at their first [acquire]. *)
Lemma main_ordered_on_held_locks :
  let h := [mkAccount "Account1" 1000 0; mkAccount "Account2" 1000 0] in
  ∃ s, run (main_ordered h) [0; 0; 0; 0; 1; 1; 1; 1] = Some s
       ∧ (∀ i, step s i = None) ∧ deadlock_reported s = true.
Proof.
  intros h.
  destruct (run (main_ordered h) [0; 0; 0; 0; 1; 1; 1; 1]) as [s|] eqn:Hs;
    [|vm_compute in Hs; discriminate Hs].
  exists s. split; [done|]. vm_compute in Hs. injection Hs as <-.
  split; [|reflexivity]. intros [|[|i]]; reflexivity.
Qed.

(** What a call of either function does when run on its own with both
    locks free: it returns, it leaves every lock value as it found it, and
    the accounts and the reports are those of the guarded transfer. *)
Lemma either_call_alone (me : nat) (h : heap) (tr : list event) (X Y : nat)
    (ax ay : Account) (amt : Z) (name : string) (call : thread) :
  h !! X = Some ax → h !! Y = Some ay → X ≠ Y →
  lock ax ≠ 0 → lock ay ≠ 0 →
  call = call_transfer X Y amt name
  ∨ (call = call_transfer_ordered X Y amt name
     ∧ is_Some (numeric_id (account_id ax))
     ∧ is_Some (numeric_id (account_id ay))) →
  let ok := (balance ax >=? amt)%Z in
  ∃ h' out t',
    thread_run call_fuel me h tr call = (h', tr ++ out, t')
    ∧ returned t' = true
    ∧ h' !! X = Some (set_balance ax (if ok then balance ax - amt else balance ax))
    ∧ h' !! Y = Some (set_balance ay (if ok then balance ay + amt else balance ay))
    ∧ (∀ r, r ≠ X → r ≠ Y → h' !! r = h !! r)
    ∧ reported_success out = ok
    ∧ reported_insufficient out = negb ok
    ∧ Release me X ∈ out ∧ Release me Y ∈ out.
Proof.
  intros HX HY Hne LX LY Hcall ok.
  destruct ax as [idx bx [|lx]], ay as [idy by_ [|ly]]; try done.
  simpl in ok. unfold set_balance. simpl.
  destruct Hcall as [->|(-> & [kx KX] & [ky KY])].
  - destruct (transfer_alone me h tr X Y amt name idx idy bx by_ lx ly
                HX HY Hne ok eq_refl) as (h' & R & X1 & Y1 & Ho).
    eexists h', _, _. split; [exact R|]. split; [done|].
    split; [exact X1|]. split; [exact Y1|]. split; [exact Ho|].
    destruct ok; simpl; repeat split; try done;
      rewrite !elem_of_cons; auto 20.
  - simpl in KX, KY.
    destruct (transfer_ordered_alone me h tr X Y amt name idx idy bx by_ lx ly
                HX HY Hne kx ky _ ok KX KY eq_refl eq_refl)
      as (h' & R & X1 & Y1 & Ho).
    eexists h', _, _. split; [exact R|]. split; [done|].
    split; [exact X1|]. split; [exact Y1|]. split; [exact Ho|].
    destruct ok, (kx <? ky)%Z; simpl; repeat split; try done;
      rewrite !elem_of_cons; auto 20.
Qed.

(** An identifier in which [int] finds no number: the call raises at line
    74 or at line 75, the store and the trace being as they were. *)
Lemma ordered_call_raises (me : nat) (h : heap) (tr : list event) (X Y : nat)
    (ax ay : Account) (amt : Z) (name : string) (fuel : nat) :
  h !! X = Some ax → h !! Y = Some ay →
  numeric_id (account_id ax) = None ∨ numeric_id (account_id ay) = None →
  ∃ l,
    thread_run (S (S fuel)) me h tr (call_transfer_ordered X Y amt name)
    = (h, tr, TransferOrdered O_ValueError (Args X Y amt name) l).
Proof.
  intros HX HY Hid. unfold call_transfer_ordered.
  destruct (numeric_id (account_id ax)) as [kx|] eqn:Hx.
  - destruct Hid as [?|Hy]; [done|]. eexists.
    erewrite thread_run_step;
      [|unfold thread_step, transfer_ordered; simpl;
        rewrite HX, HY; simpl; rewrite Hx; reflexivity].
    erewrite thread_run_step;
      [|unfold thread_step, transfer_ordered; simpl;
        rewrite HX, HY; simpl; rewrite Hy; reflexivity].
    rewrite thread_run_stop; [reflexivity|].
    unfold thread_step, transfer_ordered. simpl. by rewrite HX, HY.
  - eexists.
    erewrite thread_run_step;
      [|unfold thread_step, transfer_ordered; simpl;
        rewrite HX, HY; simpl; rewrite Hx; reflexivity].
    rewrite thread_run_stop; [reflexivity|].
    unfold thread_step, transfer_ordered. simpl. by rewrite HX, HY.
Qed.

Lemma returned_not_alive (t : thread) : returned t = true → is_alive t = false.
Proof. destruct t as [p a|p a l]; by destruct p. Qed.



(** C10: a call of [transfer] or of [transfer_ordered] between distinct
    accounts, both locks free, whatever the identifiers and the amount.
    The call ends (it returns, or [transfer_ordered] raises at line 74 or
    75 before it has touched anything) with the same sum of the two
    balances, on the funded path and on the insufficient-funds path; the
    balances of the other accounts are untouched. *)
Theorem transfer_conserves_total (me : nat) (h : heap) (tr : list event)
    (X Y : nat) (ax ay : Account) (amt : Z) (name : string) (call : thread) :
  h !! X = Some ax → h !! Y = Some ay → X ≠ Y →
  lock ax ≠ 0 → lock ay ≠ 0 →
  call = call_transfer X Y amt name
  ∨ call = call_transfer_ordered X Y amt name →
  ∃ h' tr' t' bx' by',
    thread_run call_fuel me h tr call = (h', tr', t')
    ∧ is_alive t' = false
    ∧ balance_of h' X = Some bx' ∧ balance_of h' Y = Some by'
    ∧ (bx' + by' = balance ax + balance ay)%Z
    ∧ ∀ r, r ≠ X → r ≠ Y → balance_of h' r = balance_of h r.
Proof.
  intros HX HY Hne LX LY Hcall.
  assert (Hcases :
    (call = call_transfer X Y amt name
     ∨ (call = call_transfer_ordered X Y amt name
        ∧ is_Some (numeric_id (account_id ax))
        ∧ is_Some (numeric_id (account_id ay))))
    ∨ (call = call_transfer_ordered X Y amt name
       ∧ (numeric_id (account_id ax) = None
          ∨ numeric_id (account_id ay) = None))).
  { destruct Hcall as [->| ->]; [by left; left|].
    destruct (numeric_id (account_id ax)) as [kx|] eqn:KX; [|right; auto].
    destruct (numeric_id (account_id ay)) as [ky|] eqn:KY; [|right; auto].
    left. right. by repeat split. }
  destruct Hcases as [Hruns|[-> Hraises]].
  - destruct (either_call_alone me h tr X Y ax ay amt name call
                HX HY Hne LX LY Hruns)
      as (h' & out & t' & R & Ht & X1 & Y1 & Ho & _).
    eexists h', _, t', _, _. split; [exact R|].
    split; [by apply returned_not_alive|].
    unfold balance_of. rewrite X1, Y1. simpl.
    split; [reflexivity|]. split; [reflexivity|]. split.
    + destruct (balance ax >=? amt)%Z; lia.
    + intros r H1 H2. by rewrite Ho.
  - destruct (ordered_call_raises me h tr X Y ax ay amt name 30 HX HY Hraises)
      as (l & R).
    eexists h, _, _, _, _. split; [exact R|]. split; [done|].
    unfold balance_of. rewrite HX, HY. simpl. by repeat split.
Qed.

Lemma transfer_conserves_total_witness :
  ∃ h' tr' t' bx' by',
    thread_run call_fuel 0 fresh_accounts []
      (call_transfer account1 account2 100 "Thread-1") = (h', tr', t')
    ∧ balance_of h' account1 = Some bx' ∧ balance_of h' account2 = Some by'
    ∧ (bx' + by' = 2000)%Z.
Proof.
  destruct (transfer_conserves_total 0 fresh_accounts [] account1 account2
              (Account_init "Account1" 1000) (Account_init "Account2" 1000)
              100 "Thread-1" (call_transfer account1 account2 100 "Thread-1"))
    as (h' & tr' & t' & bx' & by' & R & _ & B1 & B2 & Hsum & _);
    [reflexivity | reflexivity | discriminate | simpl; lia | simpl; lia
    | by left |].
  exists h', tr', t', bx', by'. repeat split; assumption.
Defined.

End DeadlockSimulationFacts.

(** * Further properties of the pair buffer *)

Module Problem1Extra.
Import Problem1 Problem1Facts BufferRoles.
Local Open Scope list_scope.
Local Open Scope nat_scope.

(** **** More on sums over the threads *)

Lemma total_zero (w : thread → nat) (ts : list thread) :
  (∀ i t, ts !! i = Some t → w t = 0) → total w ts = 0.
Proof.
  induction ts as [|u ts IH]; intros H; simpl; [done|].
  rewrite (H 0 u eq_refl). apply IH. intros i t Hi. apply (H (S i) t Hi).
Qed.

Lemma total_le_length (w : thread → nat) (ts : list thread) :
  (∀ i t, ts !! i = Some t → w t ≤ 1) → total w ts ≤ length ts.
Proof.
  induction ts as [|u ts IH]; intros H; simpl; [done|].
  pose proof (H 0 u eq_refl).
  assert (total w ts ≤ length ts).
  { apply IH. intros i t Hi. apply (H (S i) t Hi). }
  lia.
Qed.

Lemma total_plus (w1 w2 : thread → nat) (ts : list thread) :
  total (λ t, w1 t + w2 t) ts = total w1 ts + total w2 ts.
Proof. induction ts as [|u ts IH]; simpl; [done|]. rewrite IH. lia. Qed.

Lemma total_pos (w : thread → nat) (ts : list thread) :
  0 < total w ts → ∃ i t, ts !! i = Some t ∧ 0 < w t.
Proof.
  induction ts as [|u ts IH]; simpl; [lia|]. intros H.
  destruct (w u) as [|n] eqn:Hu.
  - destruct IH as (i & t & Hi & Ht); [lia|]. by exists (S i), t.
  - exists 0, u. split; [done|]. lia.
Qed.

Lemma flat_length (R : list (string * string)) :
  length (flat R) = 2 * length R.
Proof. induction R as [|[x y] R IH]; simpl; [done|]. rewrite IH. lia. Qed.

(** **** Roles are fixed *)

Lemma roles_step (s s' : state) (i : nat) :
  step s i = Some s' →
  is_producer <$> threads s' = is_producer <$> threads s.
Proof.
  intros Hs. unfold step in Hs.
  destruct (threads s !! i) as [t|] eqn:Hi; [|done].
  assert (Hrole : ∀ t', is_producer t' = is_producer t →
            is_producer <$> <[i := t']> (threads s) = is_producer <$> threads s).
  { intros t' Ht'. rewrite list_fmap_insert, Ht'. apply list_insert_id.
    by rewrite list_lookup_fmap, Hi. }
  destruct s as [buf sp fu lk ts lg]. simpl in *.
  destruct t as [pid p P1 P2|cid p P1 P2]; destruct p; simpl in Hs;
    repeat case_match; simplify_eq; simpl; by apply Hrole.
Qed.

Lemma roles_run (sched : list nat) (s s' : state) :
  run s sched = Some s' →
  is_producer <$> threads s' = is_producer <$> threads s.
Proof.
  revert s. induction sched as [|i sched IH]; intros s Hrun.
  - by injection Hrun as <-.
  - simpl in Hrun. destruct (step s i) as [m|] eqn:Hs; [|done].
    rewrite (IH _ Hrun). by eapply roles_step.
Qed.

Lemma fmap_seq_const {A B} (f : A → B) (g : nat → A) (c : B) (a n : nat) :
  (∀ x, f (g x) = c) → f <$> (g <$> seq a n) = replicate n c.
Proof.
  intros H. revert a. induction n as [|n IH]; intros a; simpl; [done|].
  by rewrite H, IH.
Qed.

Lemma roles_start (np nc : nat) :
  is_producer <$> threads (start np nc)
  = replicate np true ++ replicate nc false.
Proof.
  simpl. rewrite fmap_app.
  by rewrite (fmap_seq_const _ _ true), (fmap_seq_const _ _ false).
Qed.

(** X1: the bounded buffer cannot deadlock.  With at least one producer,
    at least one consumer and fewer than [BUFFER_SIZE] threads in all,
    every state that can be reached has a thread able to execute its next
    statement. *)
Theorem buffer_never_deadlocks (np nc : nat) (sched : list nat) (s : state) :
  1 ≤ np → 1 ≤ nc → np + nc < BUFFER_SIZE →
  run (start np nc) sched = Some s →
  ∃ i s', step s i = Some s'.
Proof.
  intros Hnp Hnc Hsmall Hrun.
  destruct (reachable_inv _ _ _ _ Hrun) as ((A & B & L) & Hsound & _).
  pose proof (roles_run _ _ _ Hrun) as Hroles. rewrite roles_start in Hroles.
  destruct (decide (Exists (λ i, is_Some (step s i))
                      (seq 0 (length (threads s))))) as [He|Hn].
  { apply Exists_exists in He as (i & _ & [s' Hs']). by exists i, s'. }
  exfalso. apply not_Exists_Forall in Hn; [|apply _].
  assert (Hnone : ∀ i t, threads s !! i = Some t → step s i = None).
  { intros i t Hi. rewrite Forall_forall in Hn.
    apply eq_None_not_Some. apply (Hn i). apply elem_of_seq.
    apply lookup_lt_Some in Hi. lia. }
  clear Hn.
  assert (Hout : ∀ i t, threads s !! i = Some t → in_cs t = 0).
  { intros i t Hi. pose proof (Hnone i t Hi) as Hs.
    pose proof (Forall_lookup_1 _ _ _ _ Hsound Hi) as Ht.
    unfold step in Hs. rewrite Hi in Hs.
    destruct t as [pid p P1 P2|cid p P1 P2]; destruct p; simpl in *;
      repeat case_match; done. }
  pose proof (total_zero in_cs _ Hout) as Hcs.
  assert (Hlock : lock s = 1) by lia.
  assert (Hparked : ∀ i t, threads s !! i = Some t →
            space_held t + full_held t ≤ 1
            ∧ (is_producer t = true → space s = 0)
            ∧ (is_producer t = false → full s = 0)).
  { intros i t Hi. pose proof (Hnone i t Hi) as Hs.
    pose proof (Hout i t Hi) as Ho.
    unfold step in Hs. rewrite Hi in Hs.
    destruct t as [pid p P1 P2|cid p P1 P2]; destruct p; simpl in *;
      repeat case_match; simplify_eq; repeat split; done || lia. }
  assert (Hlen : length (threads s) = np + nc).
  { rewrite <- (length_fmap is_producer), Hroles.
    by rewrite length_app, !length_replicate. }
  assert (Hp : ∃ t, threads s !! 0 = Some t ∧ is_producer t = true).
  { assert (Hl : (is_producer <$> threads s) !! 0 = Some true).
    { rewrite Hroles. destruct np; [lia|done]. }
    rewrite list_lookup_fmap in Hl.
    destruct (threads s !! 0) as [t|]; [|done]. exists t.
    split; [done|]. by injection Hl. }
  assert (Hc : ∃ t, threads s !! np = Some t ∧ is_producer t = false).
  { assert (Hl : (is_producer <$> threads s) !! np = Some false).
    { rewrite Hroles, lookup_app_r by (rewrite length_replicate; lia).
      rewrite length_replicate, Nat.sub_diag. destruct nc; [lia|done]. }
    rewrite list_lookup_fmap in Hl.
    destruct (threads s !! np) as [t|]; [|done]. exists t.
    split; [done|]. by injection Hl. }
  destruct Hp as (tp & Hip & Hrp), Hc as (tc & Hic & Hrc).
  destruct (Hparked _ _ Hip) as (_ & Hsp & _).
  destruct (Hparked _ _ Hic) as (_ & _ & Hfu).
  specialize (Hsp Hrp). specialize (Hfu Hrc).
  assert (total (λ t, space_held t + full_held t) (threads s)
          ≤ length (threads s)).
  { apply total_le_length. intros i t Hi. by destruct (Hparked i t Hi). }
  rewrite total_plus in *. lia.
Qed.

Lemma buffer_never_deadlocks_witness :
  ∃ s i s', run program [0; 0; 0; 1; 1; 3] = None
            ∧ run program [0; 0; 0; 1; 1] = Some s
            ∧ step s i = Some s'.
Proof.
  destruct (run program [0; 0; 0; 1; 1]) as [s|] eqn:Hs;
    [|vm_compute in Hs; discriminate Hs].
  destruct (buffer_never_deadlocks 3 1 [0; 0; 0; 1; 1] s) as (i & s' & Hi);
    [lia | lia | unfold BUFFER_SIZE; lia | exact Hs |].
  exists s, i, s'. split; [reflexivity|]. by split.
Defined.

(** X2: outside the lock region the buffer holds whole pairs only.  In a
    reachable state whose lock is free the buffer is, element for element,
    the pairs that producers have printed and consumers have not, in the
    order in which they were printed; in particular its length is even. *)
Theorem buffer_holds_whole_pairs (np nc : nat) (sched : list nat) (s : state) :
  run (start np nc) sched = Some s →
  lock s = 1 →
  buffer s
  = flat (drop (length (consumed_pairs (log s))) (produced_pairs (log s)))
  ∧ length (buffer s)
    = 2 * (length (produced_pairs (log s)) - length (consumed_pairs (log s))).
Proof.
  intros Hrun Hlock.
  destruct (reachable_inv _ _ _ _ Hrun) as (_ & _ & (R & HR & _ & Hfree & _)).
  rewrite HR, drop_app_length, length_app, (Hfree Hlock), flat_length.
  split; [done|]. lia.
Qed.

Lemma buffer_holds_whole_pairs_witness :
  ∃ s, run program (replicate 10 1 ++ replicate 10 0 ++ replicate 7 3) = Some s
       ∧ buffer s = ["P0-A"; "P0-B"].
Proof.
  destruct (run program (replicate 10 1 ++ replicate 10 0 ++ replicate 7 3))
    as [s|] eqn:Hs; [|vm_compute in Hs; discriminate Hs].
  exists s. split; [done|].
  destruct (buffer_holds_whole_pairs 3 1 _ s Hs) as [Hb _].
  { vm_compute in Hs. by injection Hs as <-. }
  rewrite Hb. vm_compute in Hs. by injection Hs as <-.
Defined.

Lemma log_step (s s' : state) (i : nat) :
  inv s → step s i = Some s' →
  log s' = log s ∨ ∃ e, log s' = log s ++ [e] ∧ size_ok e.
Proof.
  intros ((A & B & L) & Hsound & (R & HR & Hpairs & Hfree & Hshape)) Hs.
  unfold step in Hs.
  destruct (threads s !! i) as [t|] eqn:Hi; [|done].
  pose proof (total_ge space_held _ _ _ Hi) as Hsp.
  pose proof (Hshape i t Hi) as Hme.
  destruct s as [buf sp fu lk ts lg]. simpl in *.
  destruct t as [pid p P1 P2|cid p P1 P2]; destruct p; simpl in Hs, Hsp, Hme;
    repeat case_match; simplify_eq; simpl; try (by left); right;
    eexists; (split; [reflexivity|]); simpl.
  - rewrite length_app, flat_length in *. simpl in *.
    split; [exists (length R + 1); lia|]. lia.
  - assert (Hl : length (flat R) = S (S (length buf))) by (by rewrite Hme).
    rewrite flat_length in Hl.
    split; [exists (length R - 1); lia|]. lia.
Qed.

(** X3: what the program prints as buffer size.  Every line printed by a
    producer shows an even size between 2 and 100, and every line printed
    by a consumer shows an even size of at most 98. *)
Theorem printed_sizes (np nc : nat) (sched : list nat) (s : state) :
  run (start np nc) sched = Some s →
  (∀ pid x y size, Produced pid x y size ∈ log s →
     Nat.Even size ∧ 2 ≤ size ∧ size ≤ 100)
  ∧ (∀ cid x y size, Consumed cid x y size ∈ log s →
       Nat.Even size ∧ size ≤ 98).
Proof.
  intros Hrun.
  assert (Hall : Forall size_ok (log s)).
  { assert (Hgen : ∀ sched s0, inv s0 → Forall size_ok (log s0) →
                     run s0 sched = Some s → Forall size_ok (log s)).
    { clear. intros sched. induction sched as [|i sched IH];
        intros s0 Hinv Hlog Hrun.
      - by injection Hrun as <-.
      - simpl in Hrun. destruct (step s0 i) as [m|] eqn:Hs; [|done].
        apply (IH m); [by eapply inv_step| |done].
        destruct (log_step _ _ _ Hinv Hs) as [->|(e & -> & He)]; [done|].
        apply Forall_app. split; [done|]. by apply Forall_singleton. }
    apply (Hgen sched (start np nc)); [apply inv_start|by apply Forall_nil|done]. }
  rewrite Forall_forall in Hall. unfold BUFFER_SIZE in Hall. split.
  - intros pid x y size Hin. apply (Hall _ Hin).
  - intros cid x y size Hin. destruct (Hall _ Hin) as [He Hle].
    split; [done|]. unfold BUFFER_SIZE in Hle. lia.
Qed.

Lemma printed_sizes_witness :
  ∃ s, run program (replicate 10 1 ++ replicate 10 0 ++ replicate 6 3) = Some s
       ∧ log s = [Produced 1 "P1-A" "P1-B" 2; Produced 0 "P0-A" "P0-B" 4;
                  Consumed 0 "P1-A" "P1-B" 2]
       ∧ Nat.Even 4.
Proof.
  destruct (run program (replicate 10 1 ++ replicate 10 0 ++ replicate 6 3))
    as [s|] eqn:Hs; [|vm_compute in Hs; discriminate Hs].
  destruct (printed_sizes 3 1 _ s Hs) as [Hp _].
  assert (Hlog : log s = [Produced 1 "P1-A" "P1-B" 2; Produced 0 "P0-A" "P0-B" 4;
                          Consumed 0 "P1-A" "P1-B" 2]).
  { vm_compute in Hs. by injection Hs as <-. }
  exists s. split; [done|]. split; [done|].
  apply (Hp 0 "P0-A" "P0-B" 4). rewrite Hlog.
  rewrite !elem_of_cons. auto.
Defined.

(** X4: the three semaphores stay within their initial values.  In every
    reachable state [lock] is 0 or 1, [space] never exceeds the free cells
    and [full] never exceeds the elements present; and the lock is never
    lost: its value is 0 exactly when some thread is between
    [lock.acquire()] and [lock.release()]. *)
Theorem semaphores_stay_bounded (np nc : nat) (sched : list nat) (s : state) :
  run (start np nc) sched = Some s →
  lock s ≤ 1
  ∧ space s + length (buffer s) ≤ BUFFER_SIZE
  ∧ full s ≤ length (buffer s)
  ∧ space s ≤ 100 ∧ full s ≤ 100
  ∧ (lock s = 0 ↔ ∃ i t, threads s !! i = Some t ∧ in_cs t = 1).
Proof.
  intros Hrun. destruct (reachable_inv _ _ _ _ Hrun) as ((A & B & L) & _ & _).
  unfold BUFFER_SIZE in *.
  split; [lia|]. split; [lia|]. split; [lia|]. split; [lia|]. split; [lia|].
  split.
  - intros H0. destruct (total_pos in_cs (threads s)) as (i & t & Hi & Ht);
      [lia|].
    exists i, t. split; [done|]. pose proof (total_ge in_cs _ _ _ Hi). lia.
  - intros (i & t & Hi & Ht). pose proof (total_ge in_cs _ _ _ Hi). lia.
Qed.

Lemma semaphores_stay_bounded_witness :
  ∃ s, run program [0; 0; 0; 0] = Some s ∧ lock s = 0 ∧ space s = 98.
Proof.
  destruct (run program [0; 0; 0; 0]) as [s|] eqn:Hs;
    [|vm_compute in Hs; discriminate Hs].
  destruct (semaphores_stay_bounded 3 1 _ s Hs) as (_ & _ & _ & _ & _ & Hl).
  exists s. split; [done|]. split.
  - apply Hl. exists 0. vm_compute in Hs. injection Hs as <-. by eexists.
  - vm_compute in Hs. by injection Hs as <-.
Defined.

End Problem1Extra.

(** * Further properties of the relay *)

Module Problem2Extra.
Import Problem2 RelayPermits.
Local Open Scope list_scope.
Local Open Scope nat_scope.

Lemma permits_step (s s' : state) (t : tid) :
  step s t = Some s' → permits s' ≤ permits s.
Proof.
  intros Hs.
  destruct s as [va vb vc p1 p2 p3 out], t;
    unfold step, process1, process2, process3 in Hs; simpl in Hs;
    [destruct p1 | destruct p2 | destruct p3]; simpl in Hs;
    repeat case_match; simplify_eq; unfold permits, busy; simpl; lia.
Qed.

(** X5: the permits of the relay never multiply.  Along any schedule, from
    any state, the number of permits (stored in [a], [b], [c] or carried
    by a process inside its loop body) does not grow; so a relay started
    with one permit never has two processes inside their bodies at the
    same time, and its three semaphores stay binary. *)
Theorem relay_permits_never_grow (sched : list tid) (s s' : state) :
  run s sched = Some s' →
  permits s' ≤ permits s
  ∧ (permits s ≤ 1 →
     busy s' ≤ 1 ∧ a s' ≤ 1 ∧ b s' ≤ 1 ∧ c s' ≤ 1
     ∧ (at1 s' = P1_acquire_a ∨ at2 s' = P2_acquire_b)
     ∧ (at1 s' = P1_acquire_a ∨ at3 s' = P3_acquire_c)
     ∧ (at2 s' = P2_acquire_b ∨ at3 s' = P3_acquire_c)).
Proof.
  intros Hrun.
  assert (Hle : permits s' ≤ permits s).
  { revert s Hrun. induction sched as [|t sched IH]; intros s Hrun.
    - by injection Hrun as <-.
    - simpl in Hrun. destruct (step s t) as [m|] eqn:Hs; [|done].
      pose proof (permits_step _ _ _ Hs). specialize (IH _ Hrun). lia. }
  split; [exact Hle|]. intros H1.
  unfold permits, busy in *.
  destruct (at1 s'), (at2 s'), (at3 s'); simpl in *;
    repeat split; first [ lia | by left | by right ].
Qed.

Lemma relay_permits_never_grow_witness :
  ∃ s', run init [T1; T1; T1; T1; T2; T2] = Some s'
        ∧ busy s' ≤ 1 ∧ at1 s' = P1_acquire_a ∧ at2 s' = P2_print_L2.
Proof.
  destruct (run init [T1; T1; T1; T1; T2; T2]) as [s'|] eqn:Hs;
    [|vm_compute in Hs; discriminate Hs].
  destruct (relay_permits_never_grow _ _ _ Hs) as [_ H1].
  destruct H1 as (Hb & _); [vm_compute; lia|].
  exists s'. split; [done|]. split; [exact Hb|].
  vm_compute in Hs. by injection Hs as <-.
Defined.

Lemma statements_left_step (s s' : state) (t : tid) :
  step s t = Some s' → S (statements_left s') = statements_left s.
Proof.
  intros Hs.
  destruct s as [va vb vc p1 p2 p3 out], t;
    unfold step, process1, process2, process3 in Hs; simpl in Hs;
    [destruct p1 | destruct p2 | destruct p3]; simpl in Hs;
    repeat case_match; simplify_eq; unfold statements_left; simpl; lia.
Qed.

(** X6: the relay always comes to rest.  From any state, a schedule of
    [n] statements lowers [statements_left] by exactly [n], so no
    execution is longer than [statements_left] of its first state; and the
    states in which no process can take a step are exactly those with
    nothing left: no permit anywhere and every process at its
    [acquire]. *)
Theorem relay_comes_to_rest (sched : list tid) (s s' : state) :
  run s sched = Some s' →
  length sched + statements_left s' = statements_left s
  ∧ ((∀ t, step s' t = None) ↔ statements_left s' = 0)
  ∧ (statements_left s' = 0 →
     a s' = 0 ∧ b s' = 0 ∧ c s' = 0 ∧ at1 s' = P1_acquire_a
     ∧ at2 s' = P2_acquire_b ∧ at3 s' = P3_acquire_c).
Proof.
  intros Hrun. split; [|split].
  - revert s Hrun. induction sched as [|t sched IH]; intros s Hrun.
    + by injection Hrun as <-.
    + simpl in Hrun. destruct (step s t) as [m|] eqn:Hs; [|done].
      pose proof (statements_left_step _ _ _ Hs). specialize (IH _ Hrun).
      simpl. lia.
  - split.
    + intros Hstuck. pose proof (Hstuck T1) as H1. pose proof (Hstuck T2) as H2.
      pose proof (Hstuck T3) as H3. clear Hrun Hstuck.
      destruct s' as [va vb vc p1 p2 p3 out].
      unfold step, process1, process2, process3 in *. simpl in *.
      destruct p1, p2, p3; simpl in *; try done;
        destruct va, vb, vc; try done.
    + intros H0 t. destruct s' as [va vb vc p1 p2 p3 out].
      unfold statements_left in H0.
      unfold step, process1, process2, process3. simpl in *.
      destruct p1, p2, p3, t; simpl in *; try lia;
        destruct va, vb, vc; simpl in *; try lia; done.
  - intros H0. destruct s' as [va vb vc p1 p2 p3 out].
    unfold statements_left in H0. simpl in *.
    destruct p1, p2, p3; simpl in *; try lia; repeat split; lia.
Qed.

Lemma relay_comes_to_rest_witness :
  ∃ s', run (State 2 0 1 P1_acquire_a P2_acquire_b P3_acquire_c [])
            [T3; T3; T1; T1; T1; T1] = Some s'
        ∧ statements_left s' = 16.
Proof.
  destruct (run (State 2 0 1 P1_acquire_a P2_acquire_b P3_acquire_c [])
              [T3; T3; T1; T1; T1; T1]) as [s'|] eqn:Hs;
    [|vm_compute in Hs; discriminate Hs].
  destruct (relay_comes_to_rest _ _ _ Hs) as [Hl _].
  exists s'. split; [done|].
  change (6 + statements_left s' = 22) in Hl. lia.
Defined.

End Problem2Extra.

(** * Further properties of the transfers *)

Module TransferPoolFacts.
Import DeadlockSimulation TransferPool.
Local Open Scope list_scope.
Local Open Scope nat_scope.
Lemma tally_insert {A} (w : A → nat) (l : list A) (i : nat) (x y : A) :
  l !! i = Some x → tally w (<[i := y]> l) + w x = tally w l + w y.
Proof.
  revert i. induction l as [|u l IH]; intros i Hi; [done|].
  destruct i as [|i]; simpl in *.
  - injection Hi as ->. lia.
  - specialize (IH i Hi). lia.
Qed.

Lemma tally_ge {A} (w : A → nat) (l : list A) (i : nat) (x : A) :
  l !! i = Some x → w x ≤ tally w l.
Proof.
  revert i. induction l as [|u l IH]; intros i Hi; [done|].
  destruct i as [|i]; simpl in *.
  - injection Hi as ->. lia.
  - specialize (IH i Hi). lia.
Qed.

Lemma tally_two {A} (w : A → nat) (l : list A) (i j : nat) (x y : A) :
  i ≠ j → l !! i = Some x → l !! j = Some y → w x + w y ≤ tally w l.
Proof.
  revert i j. induction l as [|v l IH]; intros i j Hne Hi Hj; [done|].
  destruct i as [|i], j as [|j]; simpl in *; try done.
  - injection Hi as ->. pose proof (tally_ge w l j y Hj). lia.
  - injection Hj as ->. pose proof (tally_ge w l i x Hi). lia.
  - assert (i ≠ j) by congruence. specialize (IH i j H Hi Hj). lia.
Qed.

Lemma tally_zero {A} (w : A → nat) (l : list A) :
  Forall (λ x, w x = 0) l → tally w l = 0.
Proof. induction 1 as [|x l Hx _ IH]; simpl; [done|]. lia. Qed.

(** Every statement keeps, for each account, the sum of its lock's value
    and of the permits held by the thread that executes it. *)
Lemma thread_step_locks (me : nat) (h h' : heap) (tr tr' : list event)
    (t t' : thread) (r : nat) (x' : Account) :
  thread_step me h tr t = Some (h', tr', t') →
  h' !! r = Some x' →
  ∃ x, h !! r = Some x ∧ lock x' + holds t' r = lock x + holds t r
       ∧ account_id x' = account_id x.
Proof.
  intros Hs Hr. destruct t as [p a|p a l]; simpl in Hs.
  - unfold transfer in Hs.
    destruct (h !! from_account a) as [src|] eqn:Hsrc; [|done].
    destruct (h !! to_account a) as [dst|] eqn:Hdst; [|done].
    apply lookup_lt_Some in Hsrc as Hlf. apply lookup_lt_Some in Hdst as Hlt.
    simpl in Hs.
    destruct p; simpl in Hs; unfold acquire, release in Hs; simpl in Hs;
      rewrite ?Hsrc, ?Hdst in Hs; simpl in Hs;
      repeat case_match; simpl in Hs; simplify_eq; simpl;
      try (exists x'; split; [done|]; split; [lia|done]);
      match type of Hr with
      | <[?r0 := _]> _ !! _ = _ =>
          destruct (decide (r0 = r)) as [<-|Hne];
          [ rewrite list_lookup_insert_eq in Hr by done; simplify_eq;
            eexists; split; [eassumption|]; simpl; rewrite ?Nat.eqb_refl;
            split; [|done];
            repeat match goal with
                   | |- context [Nat.eqb ?u ?v] => destruct (Nat.eqb u v)
                   end; simpl; lia
          | rewrite list_lookup_insert_ne in Hr by done;
            exists x'; split; [done|]; split; [|done];
            repeat match goal with
                   | |- context [Nat.eqb ?u ?v] =>
                       destruct (Nat.eqb_spec u v); try done
                   end; simpl; lia ]
      end.
  - unfold transfer_ordered in Hs.
    destruct (h !! from_account a) as [src|] eqn:Hsrc; [|done].
    destruct (h !! to_account a) as [dst|] eqn:Hdst; [|done].
    apply lookup_lt_Some in Hsrc as Hlf. apply lookup_lt_Some in Hdst as Hlt.
    simpl in Hs.
    destruct p; simpl in Hs; unfold acquire, release in Hs; simpl in Hs;
      destruct (h !! lock_a l) as [la|] eqn:Hla;
      destruct (h !! lock_b l) as [lb|] eqn:Hlb; simpl in Hs;
      repeat case_match; simpl in Hs; simplify_eq; simpl;
      try (exists x'; split; [done|]; split; [lia|done]);
      match type of Hr with
      | <[?r0 := _]> _ !! _ = _ =>
          assert (r0 < length h) by (by eapply lookup_lt_Some);
          destruct (decide (r0 = r)) as [<-|Hne];
          [ rewrite list_lookup_insert_eq in Hr by done; simplify_eq;
            eexists; split; [eassumption|]; simpl; rewrite ?Nat.eqb_refl;
            split; [|done];
            repeat match goal with
                   | |- context [Nat.eqb ?u ?v] => destruct (Nat.eqb u v)
                   end; simpl; lia
          | rewrite list_lookup_insert_ne in Hr by done;
            exists x'; split; [done|]; split; [|done];
            repeat match goal with
                   | |- context [Nat.eqb ?u ?v] =>
                       destruct (Nat.eqb_spec u v); try done
                   end; simpl; lia ]
      end.
Qed.

Lemma locks_step (s s' : state) (i : nat) :
  locks_accounted s → step s i = Some s' → locks_accounted s'.
Proof.
  intros Hinv Hs r x' Hr. unfold step in Hs.
  destruct (threads s !! i) as [t|] eqn:Hi; [|done]. simpl in Hs.
  destruct (thread_step i (accounts s) (trace s) t) as [[[h' tr'] t']|] eqn:Ht;
    [|done].
  simpl in Hs. injection Hs as <-. simpl in *.
  destruct (thread_step_locks _ _ _ _ _ _ _ _ _ Ht Hr) as (x & Hx & Heq & _).
  pose proof (Hinv r x Hx).
  pose proof (tally_insert (λ t, holds t r) (threads s) i t t' Hi). simpl in *.
  lia.
Qed.

Lemma thread_step_locals (me : nat) (h h' : heap) (tr tr' : list event)
    (t t' : thread) :
  thread_step me h tr t = Some (h', tr', t') →
  locals_set t → locals_set t' ∧ args_of t' = args_of t.
Proof.
  intros Hs Hl. destruct t as [p a|p a l]; simpl in Hs.
  - destruct (transfer me a h tr p) as [[[h1 tr1] p1]|]; [|done].
    simpl in Hs. by injection Hs as <- <- <-.
  - unfold transfer_ordered in Hs.
    destruct (h !! from_account a) as [src|]; [|done].
    destruct (h !! to_account a) as [dst|]; [|done]. simpl in Hs.
    destruct p; simpl in Hs, Hl; unfold acquire, release in Hs;
      destruct (h !! lock_a l) as [la|];
      destruct (h !! lock_b l) as [lb|]; simpl in Hs;
      repeat case_match; simpl in Hs; simplify_eq; simpl;
      (split; [|done]); intros Hle Hne; simpl in *;
      first [ lia | done | by left | by right | apply Hl; done || lia ].
Qed.

Lemma locals_step (s s' : state) (i : nat) :
  Forall locals_set (threads s) → step s i = Some s' →
  Forall locals_set (threads s')
  ∧ args_of <$> threads s' = args_of <$> threads s.
Proof.
  intros Hall Hs. unfold step in Hs.
  destruct (threads s !! i) as [t|] eqn:Hi; [|done]. simpl in Hs.
  destruct (thread_step i (accounts s) (trace s) t) as [[[h' tr'] t']|] eqn:Ht;
    [|done].
  simpl in Hs. injection Hs as <-. simpl.
  destruct (thread_step_locals _ _ _ _ _ _ _ Ht
              (Forall_lookup_1 _ _ _ _ Hall Hi)) as [Hl Ha].
  split; [by apply Forall_insert|].
  rewrite list_fmap_insert, Ha. apply list_insert_id.
  by rewrite list_lookup_fmap, Hi.
Qed.

Lemma pool_start (h0 : heap) (calls : list thread) (tr0 : list event) :
  Forall (λ x, lock x = 1) h0 → Forall fresh calls →
  locks_accounted (State h0 calls tr0) ∧ Forall locals_set calls.
Proof.
  intros Hfree Hfresh. split.
  - intros r x Hx. simpl in *.
    pose proof (Forall_lookup_1 _ _ _ _ Hfree Hx) as Hl. simpl in Hl.
    rewrite tally_zero; [lia|].
    eapply Forall_impl; [exact Hfresh|]. by intros t [-> | ->].
  - eapply Forall_impl; [exact Hfresh|]. intros t [-> | ->]; simpl; [done|].
    intros; lia.
Qed.

Lemma pool_run (sched : list nat) (s s' : state) :
  locks_accounted s → Forall locals_set (threads s) →
  run s sched = Some s' →
  locks_accounted s' ∧ Forall locals_set (threads s')
  ∧ args_of <$> threads s' = args_of <$> threads s.
Proof.
  revert s. induction sched as [|i sched IH]; intros s Hl Hs Hrun.
  - by injection Hrun as <-.
  - simpl in Hrun. destruct (step s i) as [m|] eqn:Hm; [|done].
    destruct (locals_step _ _ _ Hs Hm) as [Hs' Ha].
    destruct (IH m (locks_step _ _ _ Hl Hm) Hs' Hrun) as (? & ? & Ha').
    split; [done|]. split; [done|]. by rewrite Ha', Ha.
Qed.

Lemma critical_holds_both (t : thread) :
  locals_set t → in_critical t = true →
  1 ≤ holds t (from_account (args_of t))
  ∧ 1 ≤ holds t (to_account (args_of t)).
Proof.
  destruct t as [p a|p a l]; simpl; intros Hl Hc.
  - destruct p; try done; simpl; rewrite !Nat.eqb_refl; simpl; lia.
  - destruct p; try done; simpl in *;
      (destruct Hl as [[-> ->]|[-> ->]]; [lia|done| |]);
      rewrite !Nat.eqb_refl; simpl; lia.
Qed.

(** X7: the semaphores of the accounts exclude one another's holders.
    Any number of [transfer] and [transfer_ordered] calls are started
    together on accounts whose locks are free.  In every state they can
    reach, under any interleaving: each lock's value is 0 or 1 and is 0
    exactly when one thread holds it; two different threads never hold the
    lock of the same account; and a thread that is at the test or at an
    update of the balances holds the locks of both its accounts. *)
Theorem account_locks_exclude (h0 : heap) (calls : list thread)
    (tr0 : list event) (sched : list nat) (s : state) :
  Forall (λ x, lock x = 1) h0 → Forall fresh calls →
  run (State h0 calls tr0) sched = Some s →
  (∀ r x, accounts s !! r = Some x →
     lock x + tally (λ t, holds t r) (threads s) = 1)
  ∧ (∀ r x i j t u,
       accounts s !! r = Some x → i ≠ j →
       threads s !! i = Some t → threads s !! j = Some u →
       1 ≤ holds t r → holds u r = 0 ∧ lock x = 0)
  ∧ (∀ i t, threads s !! i = Some t → in_critical t = true →
       1 ≤ holds t (from_account (args_of t))
       ∧ 1 ≤ holds t (to_account (args_of t))).
Proof.
  intros Hfree Hfresh Hrun.
  destruct (pool_start h0 calls tr0 Hfree Hfresh) as [Hl0 Hs0].
  destruct (pool_run _ _ _ Hl0 Hs0 Hrun) as (Hl & Hs & _).
  split; [exact Hl|]. split.
  - intros r x i j t u Hx Hne Hi Hj Ht.
    pose proof (Hl r x Hx).
    pose proof (tally_two (λ t, holds t r) _ i j t u Hne Hi Hj). simpl in *.
    lia.
  - intros i t Hi Hc. apply critical_holds_both; [|done].
    by eapply Forall_lookup_1.
Qed.

Lemma account_locks_exclude_witness :
  ∃ s, run (State fresh_accounts
              [thread1_task; thread2_task_ordered; thread1_task_ordered] [])
           [0; 0; 1; 1; 1; 1; 2; 2; 2; 2] = Some s
       ∧ lock_of (accounts s) account1 = Some 0
       ∧ tally (λ t, holds t account1) (threads s) = 1.
Proof.
  destruct (run (State fresh_accounts
              [thread1_task; thread2_task_ordered; thread1_task_ordered] [])
              [0; 0; 1; 1; 1; 1; 2; 2; 2; 2]) as [s|] eqn:Hs;
    [|vm_compute in Hs; discriminate Hs].
  destruct (account_locks_exclude fresh_accounts
              [thread1_task; thread2_task_ordered; thread1_task_ordered] []
              [0; 0; 1; 1; 1; 1; 2; 2; 2; 2] s) as (Hl & _);
    [ by repeat constructor | | exact Hs |].
  { apply Forall_cons. split; [by left|].
    apply Forall_cons. split; [by right|].
    apply Forall_cons. split; [by right|]. apply Forall_nil_2. }
  assert (Hx : accounts s !! account1 = Some (mkAccount "Account1" 1000 0)).
  { vm_compute in Hs. by injection Hs as <-. }
  exists s. split; [done|]. split; [unfold lock_of; by rewrite Hx|].
  exact (Hl _ _ Hx).
Defined.

(** **** Balances *)

Lemma sumZ_insert {A} (w : A → Z) (l : list A) (i : nat) (x y : A) :
  l !! i = Some x → (sumZ w (<[i := y]> l) = sumZ w l - w x + w y)%Z.
Proof.
  revert i. induction l as [|u l IH]; intros i Hi; [done|].
  destruct i as [|i]; simpl in *.
  - injection Hi as ->. lia.
  - specialize (IH i Hi). lia.
Qed.

Lemma sumZ_same {A} (w : A → Z) (l l' : list A) :
  (∀ r, w <$> l' !! r = w <$> l !! r) → sumZ w l' = sumZ w l.
Proof.
  revert l'. induction l as [|u l IH]; intros l' H.
  - destruct l' as [|v l']; [done|]. by specialize (H 0).
  - destruct l' as [|v l']; [by specialize (H 0)|]. simpl.
    pose proof (H 0) as H0. simpl in H0. injection H0 as ->.
    rewrite (IH l'); [done|]. intros r. apply (H (S r)).
Qed.

Lemma sumZ_zero {A} (w : A → Z) (l : list A) :
  Forall (λ x, w x = 0%Z) l → sumZ w l = 0%Z.
Proof. induction 1 as [|x l Hx _ IH]; simpl; [done|]. lia. Qed.

(** What one statement does to the balances: nothing, the debit, or the
    credit. *)
Lemma thread_step_balances (me : nat) (h h' : heap) (tr tr' : list event)
    (t t' : thread) :
  thread_step me h tr t = Some (h', tr', t') →
  (in_flight t' = in_flight t
   ∧ (∀ r, balance <$> h' !! r = balance <$> h !! r)
   ∧ (at_debit t' = true →
      at_debit t = true
      ∨ ∃ x, h !! from_account (args_of t) = Some x
             ∧ (amount (args_of t) ≤ balance x)%Z))
  ∨ (at_debit t = true ∧ at_debit t' = false
     ∧ in_flight t = 0%Z ∧ in_flight t' = amount (args_of t)
     ∧ ∃ x, h !! from_account (args_of t) = Some x
            ∧ h' = <[from_account (args_of t)
                     := set_balance x (balance x - amount (args_of t))]> h)
  ∨ (at_debit t = false ∧ at_debit t' = false
     ∧ in_flight t = amount (args_of t) ∧ in_flight t' = 0%Z
     ∧ ∃ x, h !! to_account (args_of t) = Some x
            ∧ h' = <[to_account (args_of t)
                     := set_balance x (balance x + amount (args_of t))]> h).
Proof.
  intros Hs.
  assert (Hsame : ∀ (r0 : nat) (x : Account) (n : nat),
            h !! r0 = Some x →
            ∀ r, balance <$> <[r0 := set_lock x n]> h !! r = balance <$> h !! r).
  { intros r0 x n Hx r. destruct (decide (r0 = r)) as [<-|Hne].
    - rewrite list_lookup_insert_eq by (by eapply lookup_lt_Some).
      by rewrite Hx.
    - by rewrite list_lookup_insert_ne. }
  destruct t as [p a|p a l]; simpl in Hs.
  - unfold transfer in Hs.
    destruct (h !! from_account a) as [src|] eqn:Hsrc; [|done].
    destruct (h !! to_account a) as [dst|] eqn:Hdst; [|done]. simpl in Hs.
    destruct p; simpl in Hs; unfold acquire, release in Hs; simpl in Hs;
      rewrite ?Hsrc, ?Hdst in Hs; simpl in Hs;
      repeat case_match; simpl in Hs; simplify_eq; simpl;
      first [ left; split; [done|]; split; [by auto|]; intros Hd;
              first [ done | by left
                    | right; eexists; split; [done|];
                      match goal with
                      | H : (_ >=? _)%Z = true |- _ => apply Z.geb_le in H; lia
                      end ]
            | right; left; repeat split; try done; by eexists
            | right; right; repeat split; try done; by eexists ].
  - unfold transfer_ordered in Hs.
    destruct (h !! from_account a) as [src|] eqn:Hsrc; [|done].
    destruct (h !! to_account a) as [dst|] eqn:Hdst; [|done]. simpl in Hs.
    destruct p; simpl in Hs; unfold acquire, release in Hs; simpl in Hs;
      destruct (h !! lock_a l) as [la|] eqn:Hla;
      destruct (h !! lock_b l) as [lb|] eqn:Hlb; simpl in Hs;
      repeat case_match; simpl in Hs; simplify_eq; simpl;
      first [ left; split; [done|]; split; [by auto|]; intros Hd;
              first [ done | by left
                    | right; eexists; split; [done|];
                      match goal with
                      | H : (_ >=? _)%Z = true |- _ => apply Z.geb_le in H; lia
                      end ]
            | right; left; repeat split; try done; by eexists
            | right; right; repeat split; try done; by eexists ].
Qed.

Lemma money_step (s s' : state) (i : nat) :
  step s i = Some s' → money s' = money s.
Proof.
  intros Hs. unfold step in Hs.
  destruct (threads s !! i) as [t|] eqn:Hi; [|done]. simpl in Hs.
  destruct (thread_step i (accounts s) (trace s) t) as [[[h' tr'] t']|] eqn:Ht;
    [|done].
  simpl in Hs. injection Hs as <-. unfold money. simpl.
  rewrite (sumZ_insert in_flight _ _ _ t' Hi).
  destruct (thread_step_balances _ _ _ _ _ _ _ Ht)
    as [(Hf & Hb & _)|[(_ & _ & Hf & Hf' & x & Hx & ->)
                      |(_ & _ & Hf & Hf' & x & Hx & ->)]].
  - rewrite (sumZ_same balance _ _ Hb). lia.
  - rewrite (sumZ_insert balance _ _ _ _ Hx). simpl. lia.
  - rewrite (sumZ_insert balance _ _ _ _ Hx). simpl. lia.
Qed.

(** X8: money is neither created nor lost.  For any number of [transfer]
    and [transfer_ordered] calls started together, in every state they can
    reach under any interleaving, the sum of all balances plus the amounts
    debited and not yet credited equals the sum of the balances at the
    start; so once no thread is between its debit and its credit, in
    particular once all calls have returned, the total is the initial
    one. *)
Theorem transfers_conserve_money (h0 : heap) (calls : list thread)
    (tr0 : list event) (sched : list nat) (s : state) :
  Forall fresh calls →
  run (State h0 calls tr0) sched = Some s →
  (sumZ balance (accounts s) + sumZ in_flight (threads s)
   = sumZ balance h0)%Z
  ∧ (Forall (λ t, in_flight t = 0%Z) (threads s) →
     sumZ balance (accounts s) = sumZ balance h0)
  ∧ (Forall (λ t, returned t = true) (threads s) →
     sumZ balance (accounts s) = sumZ balance h0).
Proof.
  intros Hfresh Hrun.
  assert (Hm : money s = money (State h0 calls tr0)).
  { revert Hrun. generalize (State h0 calls tr0). clear.
    induction sched as [|i sched IH]; intros s0 Hrun.
    - by injection Hrun as <-.
    - simpl in Hrun. destruct (step s0 i) as [m|] eqn:Hm; [|done].
      rewrite (IH _ Hrun). by eapply money_step. }
  unfold money in Hm. simpl in Hm.
  rewrite (sumZ_zero in_flight calls) in Hm.
  2:{ eapply Forall_impl; [exact Hfresh|]. by intros t [-> | ->]. }
  split; [lia|]. split.
  - intros H0. rewrite (sumZ_zero in_flight _ H0) in Hm. lia.
  - intros Hret. rewrite (sumZ_zero in_flight (threads s)) in Hm; [lia|].
    eapply Forall_impl; [exact Hret|].
    intros [p a|p a l]; destruct p; simpl; done.
Qed.

Lemma transfers_conserve_money_witness :
  ∃ s, run (main fresh_accounts) [0; 0; 0; 0; 0; 0; 0; 0; 0] = Some s
       ∧ sumZ balance (accounts s) = 1900%Z
       ∧ sumZ in_flight (threads s) = 100%Z.
Proof.
  destruct (run (main fresh_accounts) [0; 0; 0; 0; 0; 0; 0; 0; 0])
    as [s|] eqn:Hs; [|vm_compute in Hs; discriminate Hs].
  destruct (transfers_conserve_money fresh_accounts
              [thread1_task; thread2_task] []
              [0; 0; 0; 0; 0; 0; 0; 0; 0] s) as (Hm & _);
    [ | exact Hs |].
  { apply Forall_cons. split; [by left|].
    apply Forall_cons. split; [by left|]. apply Forall_nil_2. }
  assert (Hf : sumZ in_flight (threads s) = 100%Z).
  { vm_compute in Hs. by injection Hs as <-. }
  exists s. split; [done|]. split; [|done].
  rewrite Hf in Hm. change (sumZ balance fresh_accounts) with 2000%Z in Hm. lia.
Defined.

Lemma at_debit_critical (t : thread) : at_debit t = true → in_critical t = true.
Proof. destruct t as [p a|p a l]; by destruct p. Qed.

Lemma solvent_step (s s' : state) (i : nat) :
  locks_accounted s → Forall locals_set (threads s) → solvent s →
  step s i = Some s' → solvent s'.
Proof.
  intros Hlocks Hlocals (N & Am & D) Hs. unfold step in Hs.
  destruct (threads s !! i) as [t|] eqn:Hi; [|done]. simpl in Hs.
  destruct (thread_step i (accounts s) (trace s) t) as [[[h' tr'] t']|] eqn:Ht;
    [|done].
  simpl in Hs. injection Hs as <-.
  assert (Hlt : i < length (threads s)) by (by eapply lookup_lt_Some).
  pose proof (Forall_lookup_1 _ _ _ _ Hlocals Hi) as Hlt'.
  destruct (thread_step_locals _ _ _ _ _ _ _ Ht Hlt') as [_ Ha].
  assert (Am' : ∀ j u, <[i := t']> (threads s) !! j = Some u →
                       (0 ≤ amount (args_of u))%Z).
  { intros j u Hj. destruct (decide (i = j)) as [<-|Hne].
    - rewrite list_lookup_insert_eq in Hj by done. injection Hj as <-.
      rewrite Ha. by eapply Am.
    - rewrite list_lookup_insert_ne in Hj by done. by eapply Am. }
  split; [|split; [exact Am'|]]; simpl.
  - intros r x' Hr.
    destruct (thread_step_balances _ _ _ _ _ _ _ Ht)
      as [(_ & Hb & _)|[(Hd & _ & _ & _ & x & Hx & ->)
                       |(_ & _ & _ & _ & x & Hx & ->)]].
    + specialize (Hb r). rewrite Hr in Hb.
      destruct (accounts s !! r) as [x|] eqn:Hx; [|done].
      injection Hb as Hb. rewrite Hb. by eapply N.
    + destruct (decide (from_account (args_of t) = r)) as [<-|Hne].
      * rewrite list_lookup_insert_eq in Hr by (by eapply lookup_lt_Some).
        injection Hr as <-. simpl. pose proof (D i t x Hi Hd Hx). lia.
      * rewrite list_lookup_insert_ne in Hr by done. by eapply N.
    + destruct (decide (to_account (args_of t) = r)) as [<-|Hne].
      * rewrite list_lookup_insert_eq in Hr by (by eapply lookup_lt_Some).
        injection Hr as <-. simpl.
        pose proof (N _ x Hx). pose proof (Am i t Hi). lia.
      * rewrite list_lookup_insert_ne in Hr by done. by eapply N.
  - intros j u x' Hj Hu Hr.
    destruct (thread_step_balances _ _ _ _ _ _ _ Ht)
      as [(_ & Hb & Hnew)|[(Hd & Hd' & _ & _ & x & Hx & ->)
                         |(_ & Hd' & _ & _ & x & Hx & ->)]].
    + specialize (Hb (from_account (args_of u))). rewrite Hr in Hb.
      destruct (accounts s !! from_account (args_of u)) as [x|] eqn:Hx;
        [|done].
      injection Hb as Hb. rewrite Hb.
      destruct (decide (i = j)) as [<-|Hne].
      * rewrite list_lookup_insert_eq in Hj by done. injection Hj as <-.
        rewrite Ha in *. destruct (Hnew Hu) as [Hold|(x0 & Hx0 & Hle)].
        -- by eapply D.
        -- by simplify_eq.
      * rewrite list_lookup_insert_ne in Hj by done. by eapply D.
    + destruct (decide (i = j)) as [<-|Hne].
      { rewrite list_lookup_insert_eq in Hj by done. injection Hj as <-.
        by rewrite Hd' in Hu. }
      rewrite list_lookup_insert_ne in Hj by done.
      destruct (decide (from_account (args_of t) = from_account (args_of u)))
        as [Heq|Hdiff].
      * exfalso.
        pose proof (Forall_lookup_1 _ _ _ _ Hlocals Hj) as Hlu.
        destruct (critical_holds_both t Hlt' (at_debit_critical _ Hd))
          as [H1 _].
        destruct (critical_holds_both u Hlu (at_debit_critical _ Hu))
          as [H2 _].
        rewrite <- Heq in H2.
        pose proof (tally_two (λ t0, holds t0 (from_account (args_of t)))
                      _ i j t u Hne Hi Hj) as H3. simpl in H3.
        pose proof (Hlocks _ _ Hx). lia.
      * rewrite list_lookup_insert_ne in Hr by done. by eapply D.
    + destruct (decide (i = j)) as [<-|Hne].
      { rewrite list_lookup_insert_eq in Hj by done. injection Hj as <-.
        by rewrite Hd' in Hu. }
      rewrite list_lookup_insert_ne in Hj by done.
      destruct (decide (to_account (args_of t) = from_account (args_of u)))
        as [Heq|Hdiff].
      * rewrite <- Heq in Hr.
        rewrite list_lookup_insert_eq in Hr by (by eapply lookup_lt_Some).
        injection Hr as <-. simpl. rewrite Heq in Hx.
        pose proof (D j u x Hj Hu Hx). pose proof (Am i t Hi). lia.
      * rewrite list_lookup_insert_ne in Hr by done. by eapply D.
Qed.

(** X9: no account is ever overdrawn.  Any number of [transfer] and
    [transfer_ordered] calls with amounts that are not negative are
    started together on accounts whose locks are free and whose balances
    are not negative.  Then in every state they can reach, under any
    interleaving, every balance is at least 0: between the test of line
    46 (104) and the debit of line 47 (105) no other thread can lower the
    source. *)
Theorem no_account_overdrawn (h0 : heap) (calls : list thread)
    (tr0 : list event) (sched : list nat) (s : state) :
  Forall (λ x, lock x = 1) h0 →
  Forall (λ x, (0 ≤ balance x)%Z) h0 →
  Forall fresh calls →
  Forall (λ t, (0 ≤ amount (args_of t))%Z) calls →
  run (State h0 calls tr0) sched = Some s →
  (∀ r x, accounts s !! r = Some x → (0 ≤ balance x)%Z)
  ∧ (∀ i t x, threads s !! i = Some t → at_debit t = true →
       accounts s !! from_account (args_of t) = Some x →
       (amount (args_of t) ≤ balance x)%Z).
Proof.
  intros Hfree Hpos Hfresh Hamt Hrun.
  destruct (pool_start h0 calls tr0 Hfree Hfresh) as [Hl0 Hs0].
  assert (Hsolv0 : solvent (State h0 calls tr0)).
  { split; [|split]; simpl.
    - intros r x Hx. by apply (Forall_lookup_1 _ _ _ _ Hpos Hx).
    - intros i t Hi. by apply (Forall_lookup_1 _ _ _ _ Hamt Hi).
    - intros i t x Hi Hd. exfalso.
      destruct (Forall_lookup_1 _ _ _ _ Hfresh Hi) as [E|E]; by rewrite E in Hd. }
  assert (Hgen : ∀ sched s0, locks_accounted s0 → Forall locals_set (threads s0) →
            solvent s0 → run s0 sched = Some s → solvent s).
  { clear. intros sched. induction sched as [|i sched IH];
      intros s0 Hl Hs Hsolv Hrun.
    - by injection Hrun as <-.
    - simpl in Hrun. destruct (step s0 i) as [m|] eqn:Hm; [|done].
      apply (IH m); [by eapply locks_step| |by eapply solvent_step|done].
      by destruct (locals_step _ _ _ Hs Hm). }
  destruct (Hgen _ _ Hl0 Hs0 Hsolv0 Hrun) as (N & _ & D). by split.
Qed.

Lemma no_account_overdrawn_witness :
  ∃ s, run (State fresh_accounts
              [call_transfer account1 account2 700 "A";
               call_transfer_ordered account1 account2 700 "B"] [])
           (replicate 17 0 ++ replicate 16 1) = Some s
       ∧ balance_of (accounts s) account1 = Some 300%Z
       ∧ balance_of (accounts s) account2 = Some 1700%Z.
Proof.
  destruct (run (State fresh_accounts
              [call_transfer account1 account2 700 "A";
               call_transfer_ordered account1 account2 700 "B"] [])
           (replicate 17 0 ++ replicate 16 1)) as [s|] eqn:Hs;
    [|vm_compute in Hs; discriminate Hs].
  destruct (no_account_overdrawn fresh_accounts
              [call_transfer account1 account2 700 "A";
               call_transfer_ordered account1 account2 700 "B"] []
              (replicate 17 0 ++ replicate 16 1) s) as (Hn & _);
    [ by repeat constructor | by repeat constructor | | | exact Hs |].
  { apply Forall_cons. split; [by left|].
    apply Forall_cons. split; [by right|]. apply Forall_nil_2. }
  { by repeat constructor. }
  exists s. split; [done|]. vm_compute in Hs. by injection Hs as <-.
Defined.

(** **** Ordered transfers always complete *)

Lemma thread_step_ids (me : nat) (h h' : heap) (tr tr' : list event)
    (t t' : thread) :
  thread_step me h tr t = Some (h', tr', t') →
  account_id <$> h' = account_id <$> h.
Proof.
  intros Hs.
  assert (Hins : ∀ (r0 : nat) (x y : Account),
            h !! r0 = Some x → account_id y = account_id x →
            account_id <$> <[r0 := y]> h = account_id <$> h).
  { intros r0 x y Hx Hy. rewrite list_fmap_insert, Hy. apply list_insert_id.
    by rewrite list_lookup_fmap, Hx. }
  destruct t as [p a|p a l]; simpl in Hs.
  - unfold transfer in Hs.
    destruct (h !! from_account a) as [src|] eqn:Hsrc; [|done].
    destruct (h !! to_account a) as [dst|] eqn:Hdst; [|done]. simpl in Hs.
    destruct p; simpl in Hs; unfold acquire, release in Hs; simpl in Hs;
      rewrite ?Hsrc, ?Hdst in Hs; simpl in Hs;
      repeat case_match; simpl in Hs; simplify_eq;
      first [ done | by eapply Hins ].
  - unfold transfer_ordered in Hs.
    destruct (h !! from_account a) as [src|] eqn:Hsrc; [|done].
    destruct (h !! to_account a) as [dst|] eqn:Hdst; [|done]. simpl in Hs.
    destruct p; simpl in Hs; unfold acquire, release in Hs; simpl in Hs;
      destruct (h !! lock_a l) as [la|] eqn:Hla;
      destruct (h !! lock_b l) as [lb|] eqn:Hlb; simpl in Hs;
      repeat case_match; simpl in Hs; simplify_eq;
      first [ done | by eapply Hins ].
Qed.

Lemma key_lookup (h : heap) (r : nat) (k : Z) :
  key (account_id <$> h) r = Some k →
  ∃ x, h !! r = Some x ∧ numeric_id (account_id x) = Some k.
Proof.
  unfold key. rewrite list_lookup_fmap.
  destruct (h !! r) as [x|]; [|done]. simpl. intros Hk. by exists x.
Qed.

Ltac split_cases H :=
  repeat match type of H with
         | context [match ?x with _ => _ end] => destruct x eqn:?
         end.

Lemma thread_step_ordered (me : nat) (h h' : heap) (tr tr' : list event)
    (t t' : thread) :
  ordered_ok (account_id <$> h) t →
  thread_step me h tr t = Some (h', tr', t') →
  ordered_ok (account_id <$> h) t' ∧ left_of t' < left_of t.
Proof.
  intros Hok Hs. destruct t as [p a|p a l]; [done|].
  destruct Hok as (Hne & Hp & kf & kt & Hkf & Hkt & Hf & Ht & Hl).
  destruct (key_lookup _ _ _ Hkf) as (src & Hsrc & Hnf).
  destruct (key_lookup _ _ _ Hkt) as (dst & Hdst & Hnt).
  simpl in Hs. unfold transfer_ordered in Hs. rewrite Hsrc, Hdst in Hs.
  simpl in Hs. rewrite ?Hnf, ?Hnt in Hs.
  destruct p; simpl in Hs, Hf, Ht, Hl; unfold acquire, release in Hs;
    destruct (h !! lock_a l) as [la|] eqn:Hla;
    destruct (h !! lock_b l) as [lb|] eqn:Hlb; simpl in Hs;
    split_cases Hs; simpl in Hs; simplify_eq; simpl;
    (split; [|lia]); (split; [done|]); (split; [done|]);
    exists kf, kt; (split; [done|]); (split; [done|]); simpl;
    repeat split; intros; try lia; try done;
    first [ by apply Hf; lia | by apply Ht; lia | by apply Hl; lia
          | rewrite (Hf ltac:(lia)), (Ht ltac:(lia)) in *;
            by repeat case_match ].
Qed.

(** A call that cannot move has returned or waits for a lock whose value
    is 0. *)
Lemma ordered_parked (me : nat) (h : heap) (tr : list event) (t : thread) :
  ordered_ok (account_id <$> h) t →
  thread_step me h tr t = None →
  returned t = true
  ∨ ∃ r x, waits t = Some r ∧ h !! r = Some x ∧ lock x = 0.
Proof.
  intros Hok Hs. destruct t as [p a|p a l]; [done|].
  destruct Hok as (Hne & Hp & kf & kt & Hkf & Hkt & Hf & Ht & Hl).
  destruct (key_lookup _ _ _ Hkf) as (src & Hsrc & Hnf).
  destruct (key_lookup _ _ _ Hkt) as (dst & Hdst & Hnt).
  simpl in Hs. unfold transfer_ordered in Hs. rewrite Hsrc, Hdst in Hs.
  simpl in Hs. rewrite ?Hnf, ?Hnt in Hs.
  assert (Hla : left p ≤ 17 → is_Some (h !! lock_a l) ∧ is_Some (h !! lock_b l)).
  { intros Hle. destruct (Hl Hle) as [-> ->].
    destruct (kf <? kt)%Z; rewrite Hsrc, Hdst; by split. }
  destruct p; simpl in Hs, Hla; try done;
    try (destruct Hla as [[la Ea] [lb Eb]]; [lia|];
         unfold acquire, release in Hs; rewrite ?Ea, ?Eb in Hs; simpl in Hs);
    split_cases Hs; simpl in Hs; try done.
  - right. exists (lock_a l), la. by repeat split.
  - right. exists (lock_b l), lb. by repeat split.
  - by left.
Qed.

Lemma ordered_pool_step (ids : list string) (s s' : state) (i : nat) :
  ordered_pool ids s → step s i = Some s' →
  ordered_pool ids s'
  ∧ tally left_of (threads s') < tally left_of (threads s).
Proof.
  intros (Hids & Hok & Hlocks) Hs.
  pose proof (locks_step _ _ _ Hlocks Hs) as Hlocks'.
  unfold step in Hs.
  destruct (threads s !! i) as [t|] eqn:Hi; [|done]. simpl in Hs.
  destruct (thread_step i (accounts s) (trace s) t) as [[[h' tr'] t']|] eqn:Ht;
    [|done].
  simpl in Hs. injection Hs as <-. simpl in *.
  pose proof (Forall_lookup_1 _ _ _ _ Hok Hi) as Hti. rewrite <- Hids in Hti.
  destruct (thread_step_ordered _ _ _ _ _ _ _ Hti Ht) as [Ht' Hless].
  split.
  - split; [|split; [|done]]; simpl.
    + by rewrite (thread_step_ids _ _ _ _ _ _ _ Ht).
    + apply Forall_insert; [done|]. by rewrite <- Hids.
  - pose proof (tally_insert left_of _ _ _ t' Hi). lia.
Qed.

Lemma ordered_pool_run (ids : list string) (sched : list nat) (s s' : state) :
  ordered_pool ids s → run s sched = Some s' →
  ordered_pool ids s'
  ∧ length sched + tally left_of (threads s') ≤ tally left_of (threads s).
Proof.
  revert s. induction sched as [|i sched IH]; intros s Hp Hrun.
  - injection Hrun as <-. split; [done|]. simpl. lia.
  - simpl in Hrun. destruct (step s i) as [m|] eqn:Hm; [|done].
    destruct (ordered_pool_step _ _ _ _ Hp Hm) as [Hp' Hless].
    destruct (IH m Hp' Hrun) as [Hp'' Hle]. split; [done|]. simpl. lia.
Qed.

Lemma tally_pos {A} (w : A → nat) (l : list A) :
  0 < tally w l → ∃ i x, l !! i = Some x ∧ 0 < w x.
Proof.
  induction l as [|u l IH]; simpl; [lia|]. intros H.
  destruct (w u) as [|n] eqn:Hu.
  - destruct IH as (i & x & Hi & Hx); [lia|]. by exists (S i), x.
  - exists 0, u. split; [done|]. lia.
Qed.

(** Among the threads on which [f] is defined one has the largest
    value. *)
Lemma largest_exists {A} (f : A → option Z) (l : list A) :
  (∃ i x k, l !! i = Some x ∧ f x = Some k) →
  ∃ j y m, l !! j = Some y ∧ f y = Some m
           ∧ ∀ i x k, l !! i = Some x → f x = Some k → (k ≤ m)%Z.
Proof.
  induction l as [|u l IH]; intros (i & x & k & Hi & Hk); [done|].
  assert (Htail : (∃ i x k, l !! i = Some x ∧ f x = Some k)
                  ∨ ∀ i x, l !! i = Some x → f x = None).
  { clear. induction l as [|v l IH]; [by right|].
    destruct (f v) as [k|] eqn:Hv; [left; by exists 0, v, k|].
    destruct IH as [(i & x & k & Hi & Hk)|Hnone].
    - left. by exists (S i), x, k.
    - right. intros [|i] x Hi; simpl in Hi; [by injection Hi as <-|].
      by eapply Hnone. }
  destruct Htail as [Hsome|Hnone].
  - destruct (IH Hsome) as (j & y & m & Hj & Hy & Hmax).
    destruct (f u) as [ku|] eqn:Hu.
    + destruct (Z.le_gt_cases ku m) as [Hle|Hgt].
      * exists (S j), y, m. split; [done|]. split; [done|].
        intros [|i'] x' k' Hi' Hk'; simpl in Hi'.
        -- injection Hi' as <-. rewrite Hu in Hk'. injection Hk' as <-. done.
        -- by eapply Hmax.
      * exists 0, u, ku. split; [done|]. split; [done|].
        intros [|i'] x' k' Hi' Hk'; simpl in Hi'.
        -- injection Hi' as <-. rewrite Hu in Hk'. injection Hk' as <-. lia.
        -- pose proof (Hmax _ _ _ Hi' Hk'). lia.
    + exists (S j), y, m. split; [done|]. split; [done|].
      intros [|i'] x' k' Hi' Hk'; simpl in Hi'.
      * injection Hi' as <-. by rewrite Hu in Hk'.
      * by eapply Hmax.
  - destruct i as [|i]; simpl in Hi.
    + injection Hi as <-. exists 0, u, k. split; [done|]. split; [done|].
      intros [|i'] x' k' Hi' Hk'; simpl in Hi'.
      * injection Hi' as <-. rewrite Hk in Hk'. injection Hk' as <-. done.
      * by rewrite (Hnone _ _ Hi') in Hk'.
    + by rewrite (Hnone _ _ Hi) in Hk.
Qed.

Lemma waits_key (ids : list string) (t : thread) (r : nat) :
  ordered_ok ids t → waits t = Some r → is_Some (key ids r).
Proof.
  destruct t as [p a|p a l]; [done|].
  intros (Hne & Hp & kf & kt & Hkf & Hkt & Hf & Ht & Hl) Hw.
  destruct p; simpl in Hw; try done; injection Hw as <-;
    destruct (Hl ltac:(simpl; lia)) as [Ha Hb]; rewrite ?Ha, ?Hb;
    by destruct (kf <? kt)%Z.
Qed.

(** A thread that holds the lock of [r] and waits for another lock waits
    for an account with a larger identifier. *)
Lemma holder_waits_higher (ids : list string) (t : thread) (r r' : nat) :
  distinct_keys ids → ordered_ok ids t →
  0 < holds t r → waits t = Some r' →
  ∃ k k', key ids r = Some k ∧ key ids r' = Some k' ∧ (k < k')%Z.
Proof.
  intros Hd Hok Hh Hw. destruct t as [p a|p a l]; [done|].
  destruct Hok as (Hne & Hp & kf & kt & Hkf & Hkt & Hf & Ht & Hl).
  assert (kf ≠ kt) as Hk.
  { intros ->. apply Hne. by eapply Hd. }
  destruct p; simpl in Hw; try done; injection Hw as <-; simpl in Hh;
    [lia|].
  destruct (Nat.eqb_spec (lock_a l) r) as [<-|]; [|simpl in Hh; lia].
  destruct (Hl ltac:(simpl; lia)) as [-> ->].
  destruct (Z.ltb_spec kf kt).
  - by exists kf, kt.
  - exists kt, kf. repeat split; [done..|lia].
Qed.

Lemma step_none_thread (s : state) (i : nat) (t : thread) :
  threads s !! i = Some t → step s i = None →
  thread_step i (accounts s) (trace s) t = None.
Proof.
  intros Hi Hs. unfold step in Hs. rewrite Hi in Hs. simpl in Hs.
  by destruct (thread_step i (accounts s) (trace s) t) as [[[? ?] ?]|].
Qed.

Lemma ordered_pool_stuck (ids : list string) (s : state) :
  distinct_keys ids → ordered_pool ids s →
  (∀ i, step s i = None) →
  Forall (λ t, returned t = true) (threads s).
Proof.
  intros Hd (Hids & Hok & Hlocks) Hstuck.
  assert (Hpark : ∀ i t, threads s !! i = Some t →
            returned t = true
            ∨ ∃ r x, waits t = Some r ∧ accounts s !! r = Some x ∧ lock x = 0).
  { intros i t Hi. apply (ordered_parked i _ (trace s)).
    - rewrite Hids. by eapply Forall_lookup_1.
    - by apply step_none_thread. }
  assert (Hnone : ¬ ∃ i t k, threads s !! i = Some t
                             ∧ waits t ≫= key ids = Some k).
  { intros Hex.
    destruct (largest_exists _ _ Hex) as (j & u & m & Hj & Hu & Hmax).
    destruct (waits u) as [r|] eqn:Hw; [|done]. simpl in Hu.
    destruct (Hpark j u Hj) as [Hret|(r' & x & Hw' & Hx & Hl)].
    { destruct u as [p a|p a l]; destruct p; done. }
    rewrite Hw in Hw'. injection Hw' as <-.
    pose proof (Hlocks r x Hx) as Hacc.
    destruct (tally_pos (λ t, holds t r) (threads s)) as (n & v & Hn & Hv);
      [lia|].
    pose proof (Forall_lookup_1 _ _ _ _ Hok Hn) as Hvok.
    destruct (Hpark n v Hn) as [Hret|(rv & xv & Hwv & _)].
    { destruct v as [p a|p a l]; destruct p; simpl in *; done || lia. }
    destruct (holder_waits_higher ids v r rv Hd Hvok Hv Hwv)
      as (k & k' & Hk & Hk' & Hlt).
    rewrite Hu in Hk. injection Hk as <-.
    assert (Hle : (k' ≤ m)%Z).
    { apply (Hmax n v k' Hn). by rewrite Hwv. }
    lia. }
  apply Forall_lookup_2. intros i t Hi.
  destruct (Hpark i t Hi) as [Hret|(r & x & Hw & _)]; [done|].
  exfalso. apply Hnone.
  destruct (waits_key ids t r (Forall_lookup_1 _ _ _ _ Hok Hi) Hw) as [k Hk].
  exists i, t, k. split; [done|]. by rewrite Hw.
Qed.

(** X10: ordered transfers cannot deadlock and always end.  Any number
    of [transfer_ordered] calls, each between two different accounts, are
    started together on accounts whose locks are free and whose
    identifiers are ASCII strings in which [int] reads pairwise different
    numbers.  Then, under any interleaving: at most 20 statements run per
    call; a state in which no thread can move has no thread alive and
    every lock free; so in every reachable state either every call has
    ended or some thread can take a step. *)
Theorem ordered_pool_completes (h0 : heap) (calls : list thread)
    (tr0 : list event) (sched : list nat) (s : state) :
  Forall (λ x, lock x = 1) h0 →
  Forall (λ x, is_ascii (account_id x) = true) h0 →
  distinct_keys (account_id <$> h0) →
  Forall (ordered_call (account_id <$> h0)) calls →
  run (State h0 calls tr0) sched = Some s →
  length sched ≤ 20 * length calls
  ∧ ((∀ i, step s i = None) →
     Forall (λ t, is_alive t = false) (threads s)
     ∧ Forall (λ x, lock x = 1) (accounts s))
  ∧ (Forall (λ t, is_alive t = false) (threads s)
     ∨ ∃ i s', step s i = Some s').
Proof.
  intros Hfree _ Hd Hcalls Hrun.
  assert (Hp0 : ordered_pool (account_id <$> h0) (State h0 calls tr0)).
  { split; [done|]. split; simpl.
    - eapply Forall_impl; [exact Hcalls|].
      intros t (-> & Hne & [kf Hkf] & [kt Hkt]). simpl in *.
      split; [done|]. split; [done|]. exists kf, kt.
      repeat split; try done; simpl; lia.
    - apply pool_start; [done|].
      eapply Forall_impl; [exact Hcalls|]. intros t (E & _). by right. }
  destruct (ordered_pool_run _ _ _ _ Hp0 Hrun) as [Hp Hlen]. simpl in Hlen.
  assert (Hstart : tally left_of calls = 20 * length calls).
  { clear -Hcalls. induction Hcalls as [|t l (-> & _) _ IH]; simpl; [done|].
    rewrite IH. lia. }
  assert (Hended : (∀ i, step s i = None) →
            Forall (λ t, is_alive t = false) (threads s)).
  { intros Hstuck. eapply Forall_impl; [exact (ordered_pool_stuck _ _ Hd Hp Hstuck)|].
    intros [p a|p a l] Ht; by destruct p. }
  split; [lia|]. split.
  - intros Hstuck. split; [by apply Hended|].
    destruct Hp as (_ & _ & Hl).
    apply Forall_lookup_2. intros r x Hx. pose proof (Hl r x Hx) as Hacc.
    rewrite tally_zero in Hacc; [lia|].
    eapply Forall_impl; [exact (Hended Hstuck)|].
    intros [p a|p a l] Ha; destruct p; done.
  - destruct (decide (Exists (λ i, is_Some (step s i))
                        (seq 0 (length (threads s))))) as [He|Hn].
    { right. apply Exists_exists in He as (i & _ & [s' Hs']). by exists i, s'. }
    left. apply Hended. intros i.
    apply not_Exists_Forall in Hn; [|apply _]. rewrite Forall_forall in Hn.
    destruct (decide (i < length (threads s))) as [Hlt|Hge].
    + apply eq_None_not_Some. apply (Hn i). apply elem_of_seq. lia.
    + unfold step. rewrite lookup_ge_None_2; [done|lia].
Qed.

Lemma ordered_pool_completes_witness :
  let h := [Account_init "Account3" 10; Account_init "Account1" 20;
            Account_init "Account2" 30] in
  let calls := [call_transfer_ordered 0 1 5 "A"; call_transfer_ordered 1 2 5 "B";
                call_transfer_ordered 2 0 5 "C"] in
  ∃ s, run (State h calls [])
           (replicate 5 0 ++ replicate 4 1 ++ replicate 4 2) = Some s
       ∧ ∃ i s', step s i = Some s'.
Proof.
  intros h calls.
  destruct (run (State h calls [])
              (replicate 5 0 ++ replicate 4 1 ++ replicate 4 2))
    as [s|] eqn:Hs; [|vm_compute in Hs; discriminate Hs].
  exists s. split; [done|].
  destruct (ordered_pool_completes h calls []
              (replicate 5 0 ++ replicate 4 1 ++ replicate 4 2) s)
    as (_ & _ & [Hret|Hgo]); [ | | | | exact Hs | | exact Hgo ].
  - by repeat constructor.
  - by repeat constructor.
  - clear Hs. intros r r' k Hr Hr'.
    destruct r as [|[|[|r]]], r' as [|[|[|r']]]; vm_compute in Hr, Hr';
      congruence.
  - subst calls.
    apply Forall_cons; split;
      [repeat split; [done|by eexists..]|].
    apply Forall_cons; split;
      [repeat split; [done|by eexists..]|].
    apply Forall_cons; split;
      [repeat split; [done|by eexists..]|]. apply Forall_nil_2.
  - exfalso. vm_compute in Hs. injection Hs as <-.
    apply Forall_cons in Hret as [Hr _]. done.
Defined.

Lemma ids_run (sched : list nat) (s s' : state) :
  run s sched = Some s' →
  account_id <$> accounts s' = account_id <$> accounts s.
Proof.
  revert s. induction sched as [|i sched IH]; intros s Hrun.
  - by injection Hrun as <-.
  - simpl in Hrun. destruct (step s i) as [m|] eqn:Hm; [|done].
    rewrite (IH m Hrun). unfold step in Hm.
    destruct (threads s !! i) as [t|]; [|done]. simpl in Hm.
    destruct (thread_step i (accounts s) (trace s) t) as [[[h' tr'] t']|] eqn:Ht;
      [|done].
    simpl in Hm. injection Hm as <-. simpl.
    by eapply thread_step_ids.
Qed.

(** X17: calls that have ended leave every lock free.  Any number of
    [transfer] and [transfer_ordered] calls are started together on
    accounts whose locks are free.  In a state, reached under any
    interleaving, in which no thread is alive any more (each call has
    returned, or has raised at line 74 or 75), every account's semaphore
    is back at 1, and the accounts bear the identifiers they had. *)
Theorem ended_calls_leave_locks_free (h0 : heap) (calls : list thread)
    (tr0 : list event) (sched : list nat) (s : state) :
  Forall (λ x, lock x = 1) h0 → Forall fresh calls →
  run (State h0 calls tr0) sched = Some s →
  Forall (λ t, is_alive t = false) (threads s) →
  Forall (λ x, lock x = 1) (accounts s)
  ∧ account_id <$> accounts s = account_id <$> h0.
Proof.
  intros Hfree Hfresh Hrun Hend.
  destruct (pool_start h0 calls tr0 Hfree Hfresh) as [Hl0 Hs0].
  destruct (pool_run _ _ _ Hl0 Hs0 Hrun) as (Hl & _ & _).
  split; [|exact (ids_run _ _ _ Hrun)].
  apply Forall_lookup_2. intros r x Hx.
  pose proof (Hl r x Hx) as Hacc.
  rewrite tally_zero in Hacc; [lia|].
  eapply Forall_impl; [exact Hend|].
  intros [p a|p a l] Ha; destruct p; done.
Qed.

Lemma ended_calls_leave_locks_free_witness :
  ∃ s, run (State fresh_accounts [thread1_task; thread2_task_ordered] [])
           (replicate 17 0 ++ replicate 20 1) = Some s
       ∧ Forall (λ x, lock x = 1) (accounts s).
Proof.
  destruct (run (State fresh_accounts [thread1_task; thread2_task_ordered] [])
              (replicate 17 0 ++ replicate 20 1)) as [s|] eqn:Hs;
    [|vm_compute in Hs; discriminate Hs].
  exists s. split; [done|].
  apply (ended_calls_leave_locks_free fresh_accounts
           [thread1_task; thread2_task_ordered] []
           (replicate 17 0 ++ replicate 20 1) s).
  - by repeat constructor.
  - apply Forall_cons. split; [by left|].
    apply Forall_cons. split; [by right|]. apply Forall_nil_2.
  - exact Hs.
  - vm_compute in Hs. injection Hs as <-. by repeat constructor.
Defined.
End TransferPoolFacts.

Module ScriptFacts.
Import DeadlockSimulation DeadlockSimulationFacts TransferPool Script.
Local Open Scope list_scope.
Local Open Scope nat_scope.
(** **** Every interleaving of [main] *)

Lemma main_state_step (p1 p2 : transfer_pc) (tr : list event) (i : nat)
    (s' : state) :
  compatible p1 p2 = true →
  step (main_at p1 p2 tr) i = Some s' →
  ∃ q1 q2 tr', s' = main_at q1 q2 tr' ∧ compatible q1 q2 = true
               ∧ S (remaining q1 + remaining q2) = remaining p1 + remaining p2.
Proof.
  intros Hc Hs. destruct i as [|[|i]].
  - exists (after p1), p2.
    destruct p1, p2; try discriminate Hc; vm_compute in Hs; try discriminate Hs;
      injection Hs as <-; eexists; (split; [reflexivity|]); split; reflexivity.
  - exists p1, (after p2).
    destruct p1, p2; try discriminate Hc; vm_compute in Hs; try discriminate Hs;
      injection Hs as <-; eexists; (split; [reflexivity|]); split; reflexivity.
  - discriminate Hs.
Qed.

Lemma main_state_run (sched : list nat) (p1 p2 : transfer_pc)
    (tr : list event) (s' : state) :
  compatible p1 p2 = true →
  run (main_at p1 p2 tr) sched = Some s' →
  ∃ q1 q2 tr', s' = main_at q1 q2 tr' ∧ compatible q1 q2 = true
               ∧ length sched + (remaining q1 + remaining q2)
                 = remaining p1 + remaining p2.
Proof.
  revert p1 p2 tr. induction sched as [|i sched IH]; intros p1 p2 tr Hc Hrun.
  - injection Hrun as <-. by exists p1, p2, tr.
  - simpl in Hrun. destruct (step (main_at p1 p2 tr) i) as [m|] eqn:Hs; [|done].
    destruct (main_state_step _ _ _ _ _ Hc Hs) as (m1 & m2 & tr1 & -> & Hc1 & Hm).
    destruct (IH _ _ _ Hc1 Hrun) as (q1 & q2 & tr' & -> & Hc' & Hl).
    exists q1, q2, tr'. simpl. repeat split; [done|lia].
Qed.

(** The states of [main] in which no thread can move. *)
Lemma main_state_stuck (p1 p2 : transfer_pc) (tr : list event) :
  compatible p1 p2 = true →
  (∀ i, step (main_at p1 p2 tr) i = None) →
  (p1 = T41_acquire_to ∧ p2 = T41_acquire_to)
  ∨ (p1 = T_return ∧ p2 = T_return).
Proof.
  intros Hc Hstuck. pose proof (Hstuck 0) as H0. pose proof (Hstuck 1) as H1.
  destruct p1, p2; try discriminate Hc;
    first [ by left | by right | vm_compute in H0; discriminate H0
          | vm_compute in H1; discriminate H1 ].
Qed.

Lemma main_start : main fresh_accounts = main_at T27_print T27_print [].
Proof. reflexivity. Qed.

(** X11: the two outcomes of [main].  On the accounts as created, under
    any interleaving of the two opposite [transfer] calls, at most 34
    statements run.  A state in which no thread can move is one of two:
    the deadlock, reached after exactly 10 statements, where each thread
    holds the lock of its source in front of line 41, both balances are
    still 1000 and the test of line 168 reports the deadlock; or the end,
    after exactly 34 statements, where both calls have returned, both
    locks are free and the balances are 950 and 1050.  Whenever the test
    of line 168 finds no thread alive the accounts are the latter. *)
Theorem main_has_two_outcomes (sched : list nat) (s : state) :
  run (main fresh_accounts) sched = Some s →
  length sched ≤ 34
  ∧ ((∀ i, step s i = None) →
     (length sched = 10
      ∧ deadlock_reported s = true
      ∧ accounts s = [mkAccount "Account1" 1000 0; mkAccount "Account2" 1000 0]
      ∧ threads s = [Transfer T41_acquire_to (Args account1 account2 100 "Thread-1");
                     Transfer T41_acquire_to (Args account2 account1 50 "Thread-2")])
     ∨ (length sched = 34
        ∧ deadlock_reported s = false
        ∧ Forall (λ t, returned t = true) (threads s)))
  ∧ (deadlock_reported s = false →
     accounts s = [mkAccount "Account1" 950 1; mkAccount "Account2" 1050 1])
  ∧ ((∃ i s', step s i = Some s') ∨ (∀ i, step s i = None)).
Proof.
  rewrite main_start. intros Hrun.
  destruct (main_state_run _ T27_print T27_print _ _ eq_refl Hrun)
    as (q1 & q2 & tr' & -> & Hc & Hl).
  simpl in Hl. split; [lia|]. split; [|split].
  - intros Hstuck.
    destruct (main_state_stuck _ _ _ Hc Hstuck) as [[-> ->]|[-> ->]];
      simpl in Hl; [left|right].
    + split; [lia|]. by repeat split.
    + split; [lia|]. split; [done|]. by repeat constructor.
  - intros Hd. destruct q1, q2; try discriminate Hd; try discriminate Hc.
    reflexivity.
  - destruct (step (main_at q1 q2 tr') 0) as [m|] eqn:H0; [by eauto|].
    destruct (step (main_at q1 q2 tr') 1) as [m|] eqn:H1; [by eauto|].
    right. intros [|[|i]]; done.
Qed.

(** Both outcomes occur: each thread up to line 41 in turn, and one call
    after the other. *)
Lemma main_has_two_outcomes_witness :
  ∃ s1 s2,
    run (main fresh_accounts) (replicate 5 0 ++ replicate 5 1) = Some s1
    ∧ run (main fresh_accounts) (replicate 17 0 ++ replicate 17 1) = Some s2
    ∧ deadlock_reported s1 = true
    ∧ accounts s2 = [mkAccount "Account1" 950 1; mkAccount "Account2" 1050 1].
Proof.
  destruct (run (main fresh_accounts) (replicate 5 0 ++ replicate 5 1))
    as [s1|] eqn:H1; [|vm_compute in H1; discriminate H1].
  destruct (run (main fresh_accounts) (replicate 17 0 ++ replicate 17 1))
    as [s2|] eqn:H2; [|vm_compute in H2; discriminate H2].
  exists s1, s2. split; [reflexivity|]. split; [reflexivity|].
  pose proof (main_has_two_outcomes _ _ H1) as (_ & F1 & _).
  pose proof (main_has_two_outcomes _ _ H2) as (_ & _ & F2 & _).
  split.
  - assert (S1 : ∀ i, step s1 i = None).
    { vm_compute in H1. injection H1 as <-. intros [|[|i]]; reflexivity. }
    destruct (F1 S1) as [(_ & D & _)|(L & _)]; [exact D|].
    simpl in L. discriminate L.
  - apply F2. vm_compute in H2. by injection H2 as <-.
Defined.

(** **** [main_ordered] after [main] *)

Lemma after_deadlock_step (p3 p4 : ordered_pc) (tr : list event) (i : nat)
    (s' : state) :
  before_first p3 = true → before_first p4 = true →
  step (second_at T41_acquire_to held_accounts p3 p4 tr) i = Some s' →
  ∃ q3 q4 tr', s' = second_at T41_acquire_to held_accounts q3 q4 tr'
               ∧ before_first q3 = true ∧ before_first q4 = true
               ∧ S (left q3 + left q4) = left p3 + left p4
               ∧ lock_ops tr' = lock_ops tr.
Proof.
  intros H3 H4 Hs. destruct i as [|[|[|[|i]]]].
  - discriminate Hs.
  - discriminate Hs.
  - exists (next p3), p4.
    destruct p3; try discriminate H3; destruct p4; try discriminate H4;
      vm_compute in Hs; try discriminate Hs;
      injection Hs as <-; eexists; (split; [reflexivity|]);
      rewrite ?lock_ops_app, ?app_nil_r; by repeat split.
  - exists p3, (next p4).
    destruct p3; try discriminate H3; destruct p4; try discriminate H4;
      vm_compute in Hs; try discriminate Hs;
      injection Hs as <-; eexists; (split; [reflexivity|]);
      rewrite ?lock_ops_app, ?app_nil_r; by repeat split.
  - discriminate Hs.
Qed.

Lemma after_deadlock_run (sched : list nat) (p3 p4 : ordered_pc)
    (tr : list event) (s' : state) :
  before_first p3 = true → before_first p4 = true →
  run (second_at T41_acquire_to held_accounts p3 p4 tr) sched = Some s' →
  ∃ q3 q4 tr', s' = second_at T41_acquire_to held_accounts q3 q4 tr'
               ∧ before_first q3 = true ∧ before_first q4 = true
               ∧ length sched + (left q3 + left q4) = left p3 + left p4
               ∧ lock_ops tr' = lock_ops tr.
Proof.
  revert p3 p4 tr. induction sched as [|i sched IH]; intros p3 p4 tr H3 H4 Hrun.
  - injection Hrun as <-. by exists p3, p4, tr.
  - simpl in Hrun.
    destruct (step (second_at T41_acquire_to held_accounts p3 p4 tr) i)
      as [m|] eqn:Hs; [|done].
    destruct (after_deadlock_step _ _ _ _ _ H3 H4 Hs)
      as (m3 & m4 & tr1 & -> & K3 & K4 & Hm & Ho).
    destruct (IH _ _ _ K3 K4 Hrun) as (q3 & q4 & tr' & -> & J3 & J4 & Hl & Ho').
    exists q3, q4, tr'. simpl. repeat split; [done..|lia|congruence].
Qed.

(** X12: a deadlock of [main] is inherited by [main_ordered].  When
    [main] has ended in its deadlock, the two threads it started keep the
    two locks, and [main_ordered], run next by the script, only resets
    the balances.  Then under any interleaving at most 8 more statements
    run; no semaphore operation is performed; both balances stay 1000;
    the test of line 225 reports a deadlock; and when no thread can move
    both ordered calls are parked at their first [acquire], line 89. *)
Theorem main_ordered_inherits_deadlock (sched1 sched2 : list nat)
    (s1 s2 : state) :
  run (main fresh_accounts) sched1 = Some s1 →
  (∀ i, step s1 i = None) →
  deadlock_reported s1 = true →
  run (main_then_main_ordered s1) sched2 = Some s2 →
  length sched2 ≤ 8
  ∧ ordered_deadlock_reported s2 = true
  ∧ accounts s2 = [mkAccount "Account1" 1000 0; mkAccount "Account2" 1000 0]
  ∧ lock_ops (trace s2) = lock_ops (trace s1)
  ∧ ((∀ i, step s2 i = None) →
     length sched2 = 8
     ∧ threads s2 !! 2 = Some (thread1_at O89_acquire_a)
     ∧ threads s2 !! 3 = Some (thread2_at O89_acquire_a)).
Proof.
  rewrite main_start. intros Hrun Hstuck Hd Hrun2.
  destruct (main_state_run _ T27_print T27_print _ _ eq_refl Hrun)
    as (q1 & q2 & tr' & -> & Hc & _).
  destruct (main_state_stuck _ _ _ Hc Hstuck) as [[-> ->]|[-> ->]];
    [|discriminate Hd].
  change (main_then_main_ordered (main_at T41_acquire_to T41_acquire_to tr'))
    with (second_at T41_acquire_to held_accounts O74_from_id O74_from_id tr')
    in Hrun2.
  destruct (after_deadlock_run sched2 O74_from_id O74_from_id tr' s2
              eq_refl eq_refl Hrun2)
    as (q3 & q4 & tr2 & -> & K3 & K4 & Hl & Ho).
  simpl in Hl. split.
  { destruct q3, q4; try discriminate K3; try discriminate K4; simpl in Hl; lia. }
  split. { by destruct q3, q4. }
  split; [done|]. split; [exact Ho|].
  intros Hstuck2. pose proof (Hstuck2 2) as S2. pose proof (Hstuck2 3) as S3.
  destruct q3; try discriminate K3; try (vm_compute in S2; discriminate S2);
    destruct q4; try discriminate K4; try (vm_compute in S3; discriminate S3).
  simpl in Hl. split; [lia|]. by split.
Qed.

Lemma main_ordered_inherits_deadlock_witness :
  ∃ s1 s2,
    run (main fresh_accounts) (replicate 5 0 ++ replicate 5 1) = Some s1
    ∧ run (main_then_main_ordered s1) (replicate 4 2 ++ replicate 4 3) = Some s2
    ∧ ordered_deadlock_reported s2 = true.
Proof.
  destruct (run (main fresh_accounts) (replicate 5 0 ++ replicate 5 1))
    as [s1|] eqn:H1; [|vm_compute in H1; discriminate H1].
  assert (E1 : s1 = main_at T41_acquire_to T41_acquire_to (trace s1)).
  { vm_compute in H1. by injection H1 as <-. }
  destruct (run (main_then_main_ordered s1) (replicate 4 2 ++ replicate 4 3))
    as [s2|] eqn:H2; [|rewrite E1 in H2; vm_compute in H2; discriminate H2].
  exists s1, s2. split; [reflexivity|]. split; [exact H2|].
  apply (main_ordered_inherits_deadlock
           (replicate 5 0 ++ replicate 5 1) (replicate 4 2 ++ replicate 4 3)
           s1 s2 H1); [| |exact H2].
  - rewrite E1. intros [|[|i]]; reflexivity.
  - by rewrite E1.
Defined.

Lemma after_return_step (p3 p4 : ordered_pc) (tr : list event) (i : nat)
    (s' : state) :
  consistent p3 p4 = true →
  step (second_at T_return (accounts_at p3 p4) p3 p4 tr) i = Some s' →
  ∃ q3 q4 tr', s' = second_at T_return (accounts_at q3 q4) q3 q4 tr'
               ∧ consistent q3 q4 = true
               ∧ S (left q3 + left q4) = left p3 + left p4.
Proof.
  intros Hc Hs. destruct i as [|[|[|[|i]]]].
  - discriminate Hs.
  - discriminate Hs.
  - exists (next p3), p4.
    destruct p3, p4; try discriminate Hc; vm_compute in Hs; try discriminate Hs;
      injection Hs as <-; eexists; (split; [reflexivity|]); split; reflexivity.
  - exists p3, (next p4).
    destruct p3, p4; try discriminate Hc; vm_compute in Hs; try discriminate Hs;
      injection Hs as <-; eexists; (split; [reflexivity|]); split; reflexivity.
  - discriminate Hs.
Qed.

Lemma after_return_run (sched : list nat) (p3 p4 : ordered_pc)
    (tr : list event) (s' : state) :
  consistent p3 p4 = true →
  run (second_at T_return (accounts_at p3 p4) p3 p4 tr) sched = Some s' →
  ∃ q3 q4 tr', s' = second_at T_return (accounts_at q3 q4) q3 q4 tr'
               ∧ consistent q3 q4 = true
               ∧ length sched + (left q3 + left q4) = left p3 + left p4.
Proof.
  revert p3 p4 tr. induction sched as [|i sched IH]; intros p3 p4 tr Hc Hrun.
  - injection Hrun as <-. by exists p3, p4, tr.
  - simpl in Hrun.
    destruct (step (second_at T_return (accounts_at p3 p4) p3 p4 tr) i)
      as [m|] eqn:Hs; [|done].
    destruct (after_return_step _ _ _ _ _ Hc Hs) as (m3 & m4 & tr1 & -> & Hc1 & Hm).
    destruct (IH _ _ _ Hc1 Hrun) as (q3 & q4 & tr' & -> & Hc' & Hl).
    exists q3, q4, tr'. simpl. repeat split; [done|lia].
Qed.

Lemma after_return_stuck (p3 p4 : ordered_pc) (tr : list event) :
  consistent p3 p4 = true →
  (∀ i, step (second_at T_return (accounts_at p3 p4) p3 p4 tr) i = None) →
  p3 = O_return ∧ p4 = O_return.
Proof.
  intros Hc Hstuck. pose proof (Hstuck 2) as H2. pose proof (Hstuck 3) as H3.
  destruct p3, p4; try discriminate Hc;
    first [ by split | vm_compute in H2; discriminate H2
          | vm_compute in H3; discriminate H3 ].
Qed.

(** X13: after a [main] that has completed, [main_ordered] starts afresh.
    When the test of line 168 has found both threads of [main] finished
    (balances 950 and 1050), the reset of lines 188-189 puts both
    balances back to 1000 and the locks are free: under any interleaving
    the two ordered calls run at most 40 statements, can always go on
    until both have returned, and then the test of line 225 reports
    success with the balances again 950 and 1050. *)
Theorem main_ordered_after_completion (sched1 sched2 : list nat)
    (s1 s2 : state) :
  run (main fresh_accounts) sched1 = Some s1 →
  deadlock_reported s1 = false →
  run (main_then_main_ordered s1) sched2 = Some s2 →
  accounts (main_then_main_ordered s1) = fresh_accounts
  ∧ length sched2 ≤ 40
  ∧ ((∀ i, step s2 i = None) →
     length sched2 = 40
     ∧ ordered_deadlock_reported s2 = false
     ∧ accounts s2 = [mkAccount "Account1" 950 1; mkAccount "Account2" 1050 1])
  ∧ (length sched2 < 40 → ∃ i s', step s2 i = Some s').
Proof.
  rewrite main_start. intros Hrun Hd Hrun2.
  destruct (main_state_run _ T27_print T27_print _ _ eq_refl Hrun)
    as (q1 & q2 & tr' & -> & Hc & _).
  assert (q1 = T_return ∧ q2 = T_return) as [-> ->].
  { by destruct q1, q2; try discriminate Hd; try discriminate Hc. }
  split; [reflexivity|].
  change (main_then_main_ordered (main_at T_return T_return tr'))
    with (second_at T_return (accounts_at O74_from_id O74_from_id)
                    O74_from_id O74_from_id tr') in Hrun2.
  destruct (after_return_run sched2 O74_from_id O74_from_id tr' s2
              eq_refl Hrun2)
    as (q3 & q4 & tr2 & -> & Hc2 & Hl).
  simpl in Hl. split; [lia|]. split.
  - intros Hstuck. destruct (after_return_stuck _ _ _ Hc2 Hstuck) as [-> ->].
    simpl in Hl. split; [lia|]. by split.
  - intros Hlt.
    destruct (step (second_at T_return (accounts_at q3 q4) q3 q4 tr2) 2)
      as [m|] eqn:H2; [by eauto|].
    destruct (step (second_at T_return (accounts_at q3 q4) q3 q4 tr2) 3)
      as [m|] eqn:H3; [by eauto|].
    assert (q3 = O_return ∧ q4 = O_return) as [-> ->].
    { apply (after_return_stuck _ _ tr2 Hc2). intros [|[|[|[|i]]]]; done. }
    simpl in Hl. lia.
Qed.

Lemma main_ordered_after_completion_witness :
  ∃ s1 s2,
    run (main fresh_accounts) (replicate 17 0 ++ replicate 17 1) = Some s1
    ∧ run (main_then_main_ordered s1) (replicate 20 3 ++ replicate 20 2) = Some s2
    ∧ accounts s2 = [mkAccount "Account1" 950 1; mkAccount "Account2" 1050 1].
Proof.
  destruct (run (main fresh_accounts) (replicate 17 0 ++ replicate 17 1))
    as [s1|] eqn:H1; [|vm_compute in H1; discriminate H1].
  assert (E1 : s1 = main_at T_return T_return (trace s1)).
  { vm_compute in H1. by injection H1 as <-. }
  destruct (run (main_then_main_ordered s1) (replicate 20 3 ++ replicate 20 2))
    as [s2|] eqn:H2; [|rewrite E1 in H2; vm_compute in H2; discriminate H2].
  exists s1, s2. split; [reflexivity|]. split; [exact H2|].
  destruct (main_ordered_after_completion
              (replicate 17 0 ++ replicate 17 1)
              (replicate 20 3 ++ replicate 20 2) s1 s2 H1)
    as (_ & _ & F & _); [by rewrite E1 | exact H2 |].
  apply F. rewrite E1 in H2. vm_compute in H2. injection H2 as <-.
  intros [|[|[|[|i]]]]; reflexivity.
Defined.
End ScriptFacts.

Module SingleCallFacts.
Import DeadlockSimulation DeadlockSimulationFacts.
Local Open Scope list_scope.
Local Open Scope nat_scope.

(** **** The order in which [transfer_ordered] takes the locks *)

(** X14: [transfer_ordered] takes the lock of the smaller number first.
    The call is between two different accounts whose identifiers are
    ASCII strings in which [int] reads two different numbers; [lo] is the
    account with the smaller number and [hi] the other, whichever of the
    two is the source.  When the lock of [lo] is held by another thread
    the call parks at line 89 without any semaphore operation, whatever
    the lock of [hi]; when the lock of [lo] is free and that of [hi] is
    held it takes [lo] and parks at line 99, holding it; when both are
    free it ends after the operations acquire [lo], acquire [hi], release
    [hi], release [lo], both locks back at 1. *)
Theorem ordered_call_takes_lower_first (me : nat) (h : heap)
    (tr : list event) (X Y : nat) (ax ay : Account) (kx ky amt : Z)
    (name : string) :
  h !! X = Some ax → h !! Y = Some ay → X ≠ Y →
  is_ascii (account_id ax) = true → is_ascii (account_id ay) = true →
  numeric_id (account_id ax) = Some kx →
  numeric_id (account_id ay) = Some ky →
  kx ≠ ky →
  let call := call_transfer_ordered X Y amt name in
  let lo := if (kx <? ky)%Z then X else Y in
  let hi := if (kx <? ky)%Z then Y else X in
  (if (ky <? kx)%Z then Y else X) = lo
  ∧ (if (ky <? kx)%Z then X else Y) = hi
  ∧ (lock_of h lo = Some 0 →
     ∀ fuel, 4 ≤ fuel →
     ∃ out t',
       thread_run fuel me h tr call = (h, tr ++ out, t')
       ∧ thread_step me h (tr ++ out) t' = None
       ∧ is_alive t' = true ∧ returned t' = false
       ∧ lock_ops out = [])
  ∧ (lock_of h lo = Some 1 → lock_of h hi = Some 0 →
     ∀ fuel, 8 ≤ fuel →
     ∃ h' out t',
       thread_run fuel me h tr call = (h', tr ++ out, t')
       ∧ thread_step me h' (tr ++ out) t' = None
       ∧ is_alive t' = true ∧ returned t' = false
       ∧ lock_ops out = [Acquire me lo]
       ∧ lock_of h' lo = Some 0 ∧ lock_of h' hi = Some 0)
  ∧ (lock_of h lo = Some 1 → lock_of h hi = Some 1 →
     ∃ h' out t',
       thread_run call_fuel me h tr call = (h', tr ++ out, t')
       ∧ is_alive t' = false
       ∧ lock_ops out
         = [Acquire me lo; Acquire me hi; Release me hi; Release me lo]
       ∧ lock_of h' lo = Some 1 ∧ lock_of h' hi = Some 1).
Proof.
  intros HX HY Hne _ _ KX KY Hk call lo hi.
  destruct ax as [idx bx lx], ay as [idy by_ ly]. simpl in KX, KY.
  subst call lo hi. unfold lock_of.
  split. { destruct (Z.ltb_spec kx ky), (Z.ltb_spec ky kx); try done; lia. }
  split. { destruct (Z.ltb_spec kx ky), (Z.ltb_spec ky kx); try done; lia. }
  destruct (kx <? ky)%Z eqn:Hlt; rewrite ?HX, ?HY; simpl.
  - split; [|split].
    + intros [= ->] fuel Hfuel.
      do 4 (destruct fuel as [|fuel]; [lia|]). unfold call_transfer_ordered.
      do 4 one_step. eexists _, _. rewrite thread_run_stop.
      * split; [unfold emit; rewrite <- ?app_assoc; reflexivity|].
        split; [|by repeat split].
        unfold thread_step, transfer_ordered, acquire. simpl.
        by rewrite HX, HY.
      * unfold thread_step, transfer_ordered, acquire. simpl.
        by rewrite HX, HY.
    + intros [= ->] [= ->] fuel Hfuel.
      do 8 (destruct fuel as [|fuel]; [lia|]). unfold call_transfer_ordered.
      do 8 one_step. eexists _, _, _. rewrite thread_run_stop.
      * split; [unfold emit; rewrite <- ?app_assoc; reflexivity|].
        assert (L1 : <[X := set_lock (mkAccount idx bx 1) 0]> h !! X
                     = Some (mkAccount idx bx 0)) by find_lookup.
        assert (L2 : <[X := set_lock (mkAccount idx bx 1) 0]> h !! Y
                     = Some (mkAccount idy by_ 0)) by find_lookup.
        split.
        { unfold thread_step, transfer_ordered, acquire. simpl.
          by rewrite L1, L2. }
        rewrite L1, L2. by repeat split.
      * unfold thread_step, transfer_ordered, acquire. simpl.
        resolve_lookups. reflexivity.
    + intros [= ->] [= ->].
      destruct (transfer_ordered_alone me h tr X Y amt name idx idy bx by_ 0 0
                  HX HY Hne kx ky true (bx >=? amt)%Z KX KY Hlt eq_refl)
        as (h' & R & X1 & Y1 & _).
      eexists h', _, _. split; [exact R|]. rewrite X1, Y1. simpl.
      split; [done|]. rewrite !lock_ops_app.
      split; [by destruct (bx >=? amt)%Z|]. done.
  - split; [|split].
    + intros [= ->] fuel Hfuel.
      do 4 (destruct fuel as [|fuel]; [lia|]). unfold call_transfer_ordered.
      do 4 one_step. eexists _, _. rewrite thread_run_stop.
      * split; [unfold emit; rewrite <- ?app_assoc; reflexivity|].
        split; [|by repeat split].
        unfold thread_step, transfer_ordered, acquire. simpl.
        by rewrite HX, HY.
      * unfold thread_step, transfer_ordered, acquire. simpl.
        by rewrite HX, HY.
    + intros [= ->] [= ->] fuel Hfuel.
      do 8 (destruct fuel as [|fuel]; [lia|]). unfold call_transfer_ordered.
      do 8 one_step. eexists _, _, _. rewrite thread_run_stop.
      * split; [unfold emit; rewrite <- ?app_assoc; reflexivity|].
        assert (L1 : <[Y := set_lock (mkAccount idy by_ 1) 0]> h !! X
                     = Some (mkAccount idx bx 0)) by find_lookup.
        assert (L2 : <[Y := set_lock (mkAccount idy by_ 1) 0]> h !! Y
                     = Some (mkAccount idy by_ 0)) by find_lookup.
        split.
        { unfold thread_step, transfer_ordered, acquire. simpl.
          by rewrite L1, L2. }
        rewrite L1, L2. by repeat split.
      * unfold thread_step, transfer_ordered, acquire. simpl.
        resolve_lookups. reflexivity.
    + intros [= ->] [= ->].
      destruct (transfer_ordered_alone me h tr X Y amt name idx idy bx by_ 0 0
                  HX HY Hne kx ky false (bx >=? amt)%Z KX KY Hlt eq_refl)
        as (h' & R & X1 & Y1 & _).
      eexists h', _, _. split; [exact R|]. rewrite X1, Y1. simpl.
      split; [done|]. rewrite !lock_ops_app.
      split; [by destruct (bx >=? amt)%Z|]. done.
Qed.

Lemma ordered_call_takes_lower_first_witness :
  ∃ h' out t',
    thread_run call_fuel 1 fresh_accounts []
      (call_transfer_ordered account2 account1 50 "Thread-2") = (h', out, t')
    ∧ lock_ops out = [Acquire 1 account1; Acquire 1 account2;
                      Release 1 account2; Release 1 account1].
Proof.
  destruct (ordered_call_takes_lower_first 1 fresh_accounts [] account2 account1
              (Account_init "Account2" 1000) (Account_init "Account1" 1000)
              2 1 50 "Thread-2")
    as (_ & _ & _ & _ & Hfree);
    [reflexivity | reflexivity | discriminate | reflexivity | reflexivity
    | by vm_compute | by vm_compute | lia |].
  destruct Hfree as (h' & out & t' & R & _ & Hops & _);
    [reflexivity | reflexivity |].
  by exists h', out, t'.
Defined.

(** **** Calls that do not return *)

(** X15: a transfer from an account to itself never returns.  Both
    parameters are then the same object, whose semaphore has one permit:
    the call (for [transfer_ordered]: on an ASCII identifier in which
    [int] reads a number) takes it at its first [acquire] and parks for
    ever at its second (line 41, line 99), alive and not returned, having
    performed that one semaphore operation and changed no balance. *)
Theorem transfer_to_same_account_parks (me : nat) (h : heap)
    (tr : list event) (X : nat) (ax : Account) (amt : Z) (name : string)
    (call : thread) (fuel : nat) :
  h !! X = Some ax → lock ax = 1 →
  call = call_transfer X X amt name
  ∨ (call = call_transfer_ordered X X amt name
     ∧ is_ascii (account_id ax) = true
     ∧ is_Some (numeric_id (account_id ax))) →
  8 ≤ fuel →
  ∃ out t',
    thread_run fuel me h tr call = (<[X := set_lock ax 0]> h, tr ++ out, t')
    ∧ thread_step me (<[X := set_lock ax 0]> h) (tr ++ out) t' = None
    ∧ returned t' = false ∧ is_alive t' = true
    ∧ lock_ops out = [Acquire me X].
Proof.
  intros HX HL Hcall Hfuel.
  destruct ax as [id b l]. simpl in HL. subst l. unfold set_lock. simpl.
  do 8 (destruct fuel as [|fuel]; [lia|]). clear Hfuel.
  assert (HX' : <[X := mkAccount id b 0]> h !! X = Some (mkAccount id b 0)).
  { by eapply lookup_update_eq. }
  destruct Hcall as [->|(-> & _ & [k Hk])].
  - unfold call_transfer. do 5 one_step.
    eexists _, _. rewrite thread_run_stop.
    + split; [unfold emit; rewrite <- ?app_assoc; reflexivity|].
      split; [|by repeat split].
      unfold thread_step, transfer, acquire. simpl. by rewrite HX'.
    + unfold thread_step, transfer, acquire, set_lock. simpl. by rewrite HX'.
  - unfold call_transfer_ordered. simpl in Hk.
    pose proof (Z.ltb_irrefl k) as Hkk. do 8 one_step.
    eexists _, _. rewrite thread_run_stop.
    + split; [unfold emit; rewrite <- ?app_assoc; reflexivity|].
      split; [|by repeat split].
      unfold thread_step, transfer_ordered, acquire. simpl. by rewrite HX'.
    + unfold thread_step, transfer_ordered, acquire, set_lock. simpl.
      by rewrite HX'.
Qed.

Lemma transfer_to_same_account_parks_witness :
  (∃ out t',
     thread_run call_fuel 0 fresh_accounts []
       (call_transfer account1 account1 100 "T")
     = ([mkAccount "Account1" 1000 0; Account_init "Account2" 1000], out, t')
     ∧ returned t' = false)
  ∧ (∃ out t',
       thread_run call_fuel 0 fresh_accounts []
         (call_transfer_ordered account2 account2 100 "T")
       = ([Account_init "Account1" 1000; mkAccount "Account2" 1000 0], out, t')
       ∧ returned t' = false).
Proof.
  split.
  - destruct (transfer_to_same_account_parks 0 fresh_accounts [] account1
                (Account_init "Account1" 1000) 100 "T"
                (call_transfer account1 account1 100 "T") call_fuel)
      as (out & t' & Hr & _ & Hret & _);
      [reflexivity | reflexivity | by left | unfold call_fuel; lia |].
    by exists out, t'.
  - destruct (transfer_to_same_account_parks 0 fresh_accounts [] account2
                (Account_init "Account2" 1000) 100 "T"
                (call_transfer_ordered account2 account2 100 "T") call_fuel)
      as (out & t' & Hr & _ & Hret & _);
      [reflexivity | reflexivity
      | right; repeat split; by eexists | unfold call_fuel; lia |].
    by exists out, t'.
Defined.

(** X16: an identifier in which [int] reads no number ends
    [transfer_ordered] at once.  When one of the two identifiers is an
    ASCII string whose text, "Account" removed, is not a number, the call
    raises [ValueError] at line 74 or 75: whatever the values of the
    locks it does not park, prints nothing, performs no semaphore
    operation and leaves every account as it is; the thread is no longer
    alive and has not returned. *)
Theorem unparsable_identifier_raises (me : nat) (h : heap) (tr : list event)
    (X Y : nat) (ax ay : Account) (amt : Z) (name : string) (fuel : nat) :
  h !! X = Some ax → h !! Y = Some ay →
  (is_ascii (account_id ax) = true ∧ numeric_id (account_id ax) = None)
  ∨ (is_ascii (account_id ay) = true ∧ numeric_id (account_id ay) = None) →
  2 ≤ fuel →
  ∃ l,
    thread_run fuel me h tr (call_transfer_ordered X Y amt name)
    = (h, tr, TransferOrdered O_ValueError (Args X Y amt name) l)
    ∧ is_alive (TransferOrdered O_ValueError (Args X Y amt name) l) = false
    ∧ returned (TransferOrdered O_ValueError (Args X Y amt name) l) = false.
Proof.
  intros HX HY Hid Hfuel.
  do 2 (destruct fuel as [|fuel]; [lia|]). clear Hfuel.
  destruct (ordered_call_raises me h tr X Y ax ay amt name fuel HX HY)
    as (l & R).
  { destruct Hid as [[_ ?]|[_ ?]]; auto. }
  exists l. by split.
Qed.

Lemma unparsable_identifier_raises_witness :
  let h := [mkAccount "Savings" 1000 0; mkAccount "Account2" 1000 0] in
  ∃ l, thread_run call_fuel 0 h [] (call_transfer_ordered 0 1 10 "T")
       = (h, [], TransferOrdered O_ValueError (Args 0 1 10 "T") l).
Proof.
  intros h.
  destruct (unparsable_identifier_raises 0 h [] 0 1
              (mkAccount "Savings" 1000 0) (mkAccount "Account2" 1000 0)
              10 "T" call_fuel) as (l & Hr & _);
    [reflexivity | reflexivity | left; by split | unfold call_fuel; lia |].
  by exists l.
Defined.

End SingleCallFacts.
